(** * Table column resizing and the full-width toggle (wangEditor-next, table-module)

    A shallow embedding of
    - the column-resize module (the drag gesture on a column border and the
      pure width recomputation), and
    - [menu/AlwaysFullWidth.ts] (the toolbar command that switches a table
      between its intrinsic width and 100% of its container).

    JavaScript numbers are IEEE-754 binary64 values.  They are modelled by
    the Standard Library's specification of binary floating point
    ([SpecFloat]) at precision 53 and maximal exponent 1024: the four
    arithmetic operations are its correctly rounded ones (round to nearest,
    ties to even), with signed zeros, the two infinities and one [NaN].
    [undefined] is only ever read in arithmetic positions by this code, where
    it converts to [NaN], so a read outside an array yields [NaN]. *)

From Stdlib Require Import ZArith QArith Qabs Qpower Lia Lqa Bool String Ascii List SpecFloat.
From stdpp Require Import base list functions.
Import ListNotations.

Local Open Scope Z_scope.

(* ===================================================================== *)
(** ** JavaScript numbers *)
(* ===================================================================== *)

Definition prec : Z := 53.
Definition emax : Z := 1024.

Definition number : Type := spec_float.

Definition NaN : number := S754_nan.
Definition PInf : number := S754_infinity false.
Definition NInf : number := S754_infinity true.

(** The number a whole number converts to: the nearest double, which is
    the whole number itself up to [2 ^ 53] in magnitude. *)
Definition ofZ (z : Z) : number := binary_normalize prec emax z 0 false.

Definition nadd (x y : number) : number := SFadd prec emax x y.
Definition nsub (x y : number) : number := SFsub prec emax x y.
Definition nmul (x y : number) : number := SFmul prec emax x y.
Definition ndiv (x y : number) : number := SFdiv prec emax x y.

(** [x < y], [x > y], [x >= y]: false as soon as a [NaN] is involved. *)
Definition nltb (x y : number) : bool := SFltb x y.
Definition ngtb (x y : number) : bool := SFltb y x.
Definition ngeb (x y : number) : bool := SFleb y x.

(** [Math.max(x, y)]: [NaN] when either is; [+0] counts as larger than
    [-0]. *)
Definition nmax (x y : number) : number :=
  match SFcompare x y with
  | None => NaN
  | Some Lt => y
  | Some Gt => x
  | Some Eq => match x with S754_zero true => y | _ => x end
  end.

(** [Math.abs(x)]. *)
Definition nabs (x : number) : number := SFabs x.

(** [Math.floor(x)]: a double with a non-negative exponent is a whole
    number already; otherwise the mantissa is divided, rounding down. *)
Definition nfloor (x : number) : number :=
  match x with
  | S754_finite s m e =>
      if 0 <=? e then x
      else binary_normalize prec emax (cond_Zopp s (Zpos m) / 2 ^ (- e)) 0 s
  | _ => x
  end.

(** [Number.isNaN(x)]. *)
Definition isNaN (x : number) : bool :=
  match x with S754_nan => true | _ => false end.

(** Truthiness of a number: everything but [NaN] and the two zeros. *)
Definition truthy (x : number) : bool :=
  match x with
  | S754_nan | S754_zero _ => false
  | _ => true
  end.

(** [x || y] on numbers. *)
Definition nor (x y : number) : number := if truthy x then x else y.

(** The literal [0.1]: the double nearest to 1/10. *)
Definition tenth : number := ndiv (ofZ 1) (ofZ 10).

(** The number a decimal numeral [n / d] with sign [s] is read as: the
    double nearest to it. *)
Definition ofRatio (s : bool) (n d : Z) : number :=
  match n with
  | Z0 => S754_zero s
  | _ =>
      let '(mz, ez, lz) := SFdiv_core_binary prec emax n 0 d 0 in
      binary_round_aux prec emax s mz ez lz
  end.

(** The digits [x.toFixed(2)] prints for [m * 2 ^ e], without the decimal
    point: the integer nearest to a hundred times the value, the larger one
    of two. *)
Definition fixedInteger (m : positive) (e : Z) : Z :=
  if 0 <=? e then 100 * Zpos m * 2 ^ e
  else (200 * Zpos m + 2 ^ (- e)) / 2 ^ (1 - e).

(** [Number(x.toFixed(2))].  Values of magnitude 1e21 and more are printed
    in full and read back unchanged; [(-0).toFixed(2)] is ["0.00"]. *)
Definition toFixed2 (x : number) : number :=
  match x with
  | S754_finite s m e =>
      if (0 <=? e) && (10 ^ 21 <=? Zpos m * 2 ^ e) then x
      else ofRatio s (fixedInteger m e) 100
  | S754_zero _ => S754_zero false
  | _ => x
  end.

(* ===================================================================== *)
(** ** Strings read as numbers *)
(* ===================================================================== *)

(** A JavaScript string is kept as its UTF-8 text. *)
Definition byte (c : ascii) : Z := Z.of_N (N_of_ascii c).

(** The white space of three bytes: U+1680, U+2000 to U+200A, U+2028,
    U+2029, U+202F, U+205F, U+3000 and U+FEFF. *)
Definition isWideWhiteSpace (b1 b2 b3 : Z) : bool :=
  (b1 =? 225) && (b2 =? 154) && (b3 =? 128)
  || (b1 =? 226) && (b2 =? 128)
     && ((128 <=? b3) && (b3 <=? 138) || (b3 =? 168) || (b3 =? 169) || (b3 =? 175))
  || (b1 =? 226) && (b2 =? 129) && (b3 =? 159)
  || (b1 =? 227) && (b2 =? 128) && (b3 =? 128)
  || (b1 =? 239) && (b2 =? 187) && (b3 =? 191).

(** Leading white space and line terminators are skipped: U+0009 to
    U+000D, U+0020, U+00A0 and the ones above. *)
Fixpoint skipWhiteSpace (s : string) : string :=
  match s with
  | EmptyString => s
  | String c r =>
      let b := byte c in
      if (9 <=? b) && (b <=? 13) || (b =? 32) then skipWhiteSpace r
      else
        match r with
        | EmptyString => s
        | String c2 r2 =>
            let b2 := byte c2 in
            if (b =? 194) && (b2 =? 160) then skipWhiteSpace r2
            else
              match r2 with
              | EmptyString => s
              | String c3 r3 =>
                  if isWideWhiteSpace b b2 (byte c3) then skipWhiteSpace r3 else s
              end
        end
  end.

Definition digitValue (c : ascii) : option Z :=
  let n := byte c in
  if (48 <=? n) && (n <=? 57) then Some (n - 48) else None.

(** The longest prefix of decimal digits; [acc] is [None] until a digit has
    been read. *)
Fixpoint readDigits (s : string) (acc : option Z) : option Z :=
  match s with
  | String c r =>
      match digitValue c with
      | Some d => readDigits r (Some (10 * default 0 acc + d))
      | None => acc
      end
  | EmptyString => acc
  end.

(** [parseInt(s, 10)]: the digits read as a whole number, converted to the
    nearest double; ["-0"] reads as [-0]. *)
Definition parseInt (s : string) : number :=
  let s := skipWhiteSpace s in
  let '(negative, digits) :=
    match s with
    | String "-"%char r => (true, r)
    | String "+"%char r => (false, r)
    | _ => (false, s)
    end in
  match readDigits digits None with
  | None => NaN
  | Some z => binary_normalize prec emax (if negative then - z else z) 0 negative
  end.

(** [s.replace('px', '')]: the first occurrence only. *)
Fixpoint removePx (s : string) : string :=
  match s with
  | String "p"%char (String "x"%char r) => r
  | String c r => String c (removePx r)
  | EmptyString => EmptyString
  end.

(* ===================================================================== *)
(** ** Arrays of numbers *)
(* ===================================================================== *)

Definition len (a : list number) : Z := Z.of_nat (length a).

(** [a[i]] in an arithmetic position. *)
Definition array_get (a : list number) (i : Z) : number :=
  if i <? 0 then NaN else default NaN (a !! Z.to_nat i).

(** [a[i] = v]: in range it overwrites; past the end JavaScript extends the
    array (the hole reads as [undefined], hence [NaN]); a negative index
    sets a property that is no element, so the elements stay as they are. *)
Definition array_set (a : list number) (i : Z) (v : number) : list number :=
  if i <? 0 then a
  else if i <? len a then <[Z.to_nat i := v]> a
  else a ++ replicate (Z.to_nat i - length a) NaN ++ [v].

(** [a.reduce((x, y) => x + y, 0)]. *)
Definition sum (a : list number) : number := fold_left nadd a (ofZ 0).

Fixpoint cumulate (totalWidth : number) (columnWidths : list number) : list number :=
  match columnWidths with
  | [] => []
  | width :: rest =>
      let totalWidth := nadd totalWidth width in
      totalWidth :: cumulate totalWidth rest
  end.

(** Distance of every cell border from the left edge of the table. *)
Definition getCumulativeWidths (columnWidths : list number) : list number :=
  cumulate (ofZ 0) columnWidths.

(** Share of every column in the total width. *)
Definition getColumnWidthRatios (columnWidths : list number) : list number :=
  let totalWidth := sum columnWidths in
  map (fun width => ndiv width totalWidth) columnWidths.

(* ===================================================================== *)
(** ** The document, the editor and the DOM *)
(* ===================================================================== *)

(** Modelled from the spec: the table node, whose declaration
    ([custom-types.ts]) is not among the sources.  It carries the durable
    data the spec lists - [columnWidths], a sequence of numbers, one per
    column; [width], an intrinsic marker (['auto']) or the
    100%-of-container marker (['100%']); the transient flags
    [isHoverCellBorder], [resizingIndex] and [isResizing] - and the node
    type and measured size this module reads and writes besides.  Every
    field is a JavaScript property that may be [undefined]; the same record,
    with the fields to change filled in, is the [Partial<TableElement>]
    handed to [Transforms.setNodes]. *)
Record TableElement : Type := mkTableElement {
  type : option string;
  width : option string;
  columnWidths : option (list number);
  scrollWidth : option number;
  height : option number;
  resizingIndex : option Z;
  isResizing : option bool;
  isHoverCellBorder : option bool;
}.

Definition override {A : Type} (new old : option A) : option A :=
  match new with
  | Some v => Some v
  | None => old
  end.

(** The node after [props] have been set on it. *)
Definition assign (props node : TableElement) : TableElement :=
  {| type := override (type props) (type node);
     width := override (width props) (width node);
     columnWidths := override (columnWidths props) (columnWidths node);
     scrollWidth := override (scrollWidth props) (scrollWidth node);
     height := override (height props) (height node);
     resizingIndex := override (resizingIndex props) (resizingIndex node);
     isResizing := override (isResizing props) (isResizing node);
     isHoverCellBorder := override (isHoverCellBorder props) (isHoverCellBorder node) |}.

(** The selection; only whether it is collapsed matters here. *)
Record Range : Type := { isCollapsed : bool }.

(** What [getComputedStyle] reports for an element. *)
Record ComputedStyle : Type := {
  cssPaddingLeft : string;
  cssPaddingRight : string;
  cssWidth : string;
}.

(** The [.table-container] element. *)
Record ContainerElement : Type := {
  clientWidth : number;
  containerStyle : ComputedStyle;
(** [getElementsByTagName('table')], each with its computed style *)
  tablesByTagName : list ComputedStyle;
}.

(** The DOM node rendered for a table node. *)
Record TableDom : Type := {
(** [querySelector('.table-container')] *)
  tableContainer : option ContainerElement;
(** [querySelector('.table')], with the left edge of its bounding rectangle *)
  tableRectLeft : option number;
}.

(** The [insertTable] menu configuration.  [minWidth] may be a number or a
    string; it is kept as the text [minWidth.toString()] yields. *)
Record MenuConfig : Type := { minWidth : option string }.

(** Modelled from the spec: the host editor (its document model, selection
    model and DOM rendering are external collaborators), as far as this
    module reads and writes it.  The document is abstracted to the top-level
    block that holds the selection. *)
Record IDomEditor : Type := mkEditor {
  selection : option Range;
  block : TableElement;
(** [editor.isDisabled()] *)
  disabled : bool;
(** [editor.getMenuConfig('insertTable')] *)
  insertTableConfig : MenuConfig;
(** [DomEditor.toDOMNode(editor, tableNode)]; [None] when no DOM node can
    be resolved, in which case the host throws *)
  domNode : option TableDom;
(** the [set_node] operations applied so far, oldest first *)
  operations : list TableElement;
}.

(** Modelled from the spec: [DomEditor.getSelectedNodeByType(editor, t)] of
    the host's node-type registry and selection model: the node of type [t]
    at the selection, if there is one. *)
Definition getSelectedNodeByType (editor : IDomEditor) (t : string)
  : option TableElement :=
  match selection editor with
  | None => None
  | Some _ =>
      match type (block editor) with
      | Some ty => if String.eqb ty t then Some (block editor) else None
      | None => None
      end
  end.

(** Modelled from the spec: [Transforms.setNodes(editor, props,
    { mode: 'highest' })] of the host's node-transform API, to which every
    state commit is delegated: without a selection nothing happens; otherwise
    the props are set on the highest block at the selection. *)
Definition setNodes (editor : IDomEditor) (props : TableElement) : IDomEditor :=
  match selection editor with
  | None => editor
  | Some _ =>
      {| selection := selection editor;
         block := assign props (block editor);
         disabled := disabled editor;
         insertTableConfig := insertTableConfig editor;
         domNode := domNode editor;
         operations := operations editor ++ [props] |}
  end.

(** How a handler ends: it returns, or an exception leaves it. *)
Inductive result (S : Type) : Type :=
| Done (s : S)
| Raised (s : S).
Arguments Done {S} s.
Arguments Raised {S} s.

Definition state_of {S : Type} (r : result S) : S :=
  match r with Done s | Raised s => s end.

(** An element a mouse event can hit. *)
Record HTMLElement : Type := {
  tagName : string;
(** [closest('[data-block-type=table-cell]')] finds something *)
  closestTableCell : bool;
(** [closest('.column-resizer-item')] finds something *)
  closestColumnResizerItem : bool;
(** [getBoundingClientRect()] *)
  rectX : number;
  rectWidth : number;
(** [closest('.table')], with the [x] of its bounding rectangle *)
  closestTable : option number;
}.

Record MouseEvent : Type := {
  eventType : string;
  clientX : number;
(** [None] when the target is no HTML element *)
  target : option HTMLElement;
}.

(* ===================================================================== *)
(** ** menu/AlwaysFullWidth.ts *)
(* ===================================================================== *)

Definition isFullWidthActive (editor : IDomEditor) : bool :=
  match getSelectedNodeByType editor "table" with
  | None => false
  | Some tableNode =>
      match width tableNode with
      | Some w => String.eqb w "100%"
      | None => false
      end
  end.

(** [parseInt(style.padding, 10) || 0] *)
Definition padding (s : string) : number := nor (parseInt s) (ofZ 0).

(** The width available inside the container. *)
Definition containerWidth (containerElement : ContainerElement) : number :=
  let parentStyle := containerStyle containerElement in
  let paddingLeft := padding (cssPaddingLeft parentStyle) in
  let paddingRight := padding (cssPaddingRight parentStyle) in
  nsub (nsub (clientWidth containerElement) paddingLeft) paddingRight.

(** The real width of the table, the base of the conversion. *)
Definition tableCurrentWidth (containerElement : ContainerElement)
    (currentTableStyle : ComputedStyle) (columnWidths : list number) : number :=
  let ctPaddingLeft := padding (cssPaddingLeft currentTableStyle) in
  let ctPaddingRight := padding (cssPaddingRight currentTableStyle) in
  let tryWidth := parseInt (removePx (cssWidth currentTableStyle)) in
  let ctWidth :=
    if isNaN tryWidth then containerWidth containerElement else tryWidth in
  nmax (nmul (ofZ (len columnWidths)) (ofZ 60))
       (nsub (nsub ctWidth ctPaddingLeft) ctPaddingRight).

Definition newColumnWidths (tableCurrentWidth containerWidth : number)
    (columnWidths : list number) : list number :=
  map (fun width =>
         let percentage := toFixed2 (ndiv width tableCurrentWidth) in
         nmul percentage containerWidth)
      columnWidths.

Module TableAlwaysFullWidth.

Definition getValue (editor : IDomEditor) : bool := isFullWidthActive editor.

Definition isActive (editor : IDomEditor) : bool := getValue editor.

Definition isDisabled (editor : IDomEditor) : bool :=
  match selection editor with
  | None => true
  | Some sel =>
      if negb (isCollapsed sel) then true
      else
        match getSelectedNodeByType editor "table" with
        | None => true
        | Some _ => false
        end
  end.

Definition exec (editor : IDomEditor) : result IDomEditor :=
  if isDisabled editor then Done editor
  else if isActive editor then
    let props := {| type := None; width := Some "auto"%string;
                    columnWidths := None; scrollWidth := None; height := None;
                    resizingIndex := None; isResizing := None;
                    isHoverCellBorder := None |} in
    Done (setNodes editor props)
  else
    match getSelectedNodeByType editor "table" with
    | None => Done editor
    | Some tableNode =>
        let columnWidths := default [] (columnWidths tableNode) in
        match domNode editor with
        | None => Raised editor
        | Some tableDom =>
            match tableContainer tableDom with
            | None => Done editor
            | Some containerElement =>
                if len columnWidths =? 0 then Done editor
                else
                  match tablesByTagName containerElement with
                  | [] => Done editor
                  | truthTableDom :: _ =>
                      let containerWidth := containerWidth containerElement in
                      let tableCurrentWidth :=
                        tableCurrentWidth containerElement truthTableDom columnWidths in
                      let props :=
                        {| type := None; width := Some "100%"%string;
                           columnWidths :=
                             Some (newColumnWidths tableCurrentWidth containerWidth
                                                   columnWidths);
                           scrollWidth := None; height := None;
                           resizingIndex := None; isResizing := None;
                           isHoverCellBorder := None |} in
                      Done (setNodes editor props)
                  end
            end
        end
    end.

End TableAlwaysFullWidth.

(* ===================================================================== *)
(** ** The column-resize module *)
(* ===================================================================== *)

(** The module's own variables, the cursor style of [document.body], the two
    listeners the module binds to and unbinds from [window], and the editors
    of the page.  [editorWhenMouseDown] is a reference to an editor: the index
    under which [editors] holds it. *)
Record World : Type := mkWorld {
  isSelectionOperation : bool;
  isMouseDownForResize : bool;
  clientXWhenMouseDown : number;
  editorWhenMouseDown : option nat;
  bodyCursor : string;
  mousemoveBound : bool;
  mouseupBound : bool;
  editors : nat -> IDomEditor;
}.

(** The state in which the module is loaded. *)
Definition initialWorld (editors : nat -> IDomEditor) : World :=
  {| isSelectionOperation := false;
     isMouseDownForResize := false;
     clientXWhenMouseDown := ofZ 0;
     editorWhenMouseDown := None;
     bodyCursor := "";
     mousemoveBound := false;
     mouseupBound := false;
     editors := editors |}.

Definition with_editor (w : World) (id : nat) (editor : IDomEditor) : World :=
  {| isSelectionOperation := isSelectionOperation w;
     isMouseDownForResize := isMouseDownForResize w;
     clientXWhenMouseDown := clientXWhenMouseDown w;
     editorWhenMouseDown := editorWhenMouseDown w;
     bodyCursor := bodyCursor w;
     mousemoveBound := mousemoveBound w;
     mouseupBound := mouseupBound w;
     editors := <[id := editor]> (editors w) |}.

(** [$window.on('mousemove', onMouseMove); $window.on('mouseup', onMouseUp)] *)
Definition bindListeners (w : World) : World :=
  {| isSelectionOperation := isSelectionOperation w;
     isMouseDownForResize := isMouseDownForResize w;
     clientXWhenMouseDown := clientXWhenMouseDown w;
     editorWhenMouseDown := editorWhenMouseDown w;
     bodyCursor := bodyCursor w;
     mousemoveBound := true;
     mouseupBound := true;
     editors := editors w |}.

Definition onMouseDown (elem : HTMLElement) (clientX : number) (w : World) : World :=
  if closestTableCell elem then
    bindListeners
      {| isSelectionOperation := true;
         isMouseDownForResize := isMouseDownForResize w;
         clientXWhenMouseDown := clientXWhenMouseDown w;
         editorWhenMouseDown := editorWhenMouseDown w;
         bodyCursor := bodyCursor w;
         mousemoveBound := mousemoveBound w;
         mouseupBound := mouseupBound w;
         editors := editors w |}
  else if String.eqb (tagName elem) "DIV" && closestColumnResizerItem elem then
    match editorWhenMouseDown w with
    | None => w
    | Some _ =>
        bindListeners
          {| isSelectionOperation := isSelectionOperation w;
             isMouseDownForResize := true;
             clientXWhenMouseDown := clientX;
             editorWhenMouseDown := editorWhenMouseDown w;
             bodyCursor := "col-resize";
             mousemoveBound := mousemoveBound w;
             mouseupBound := mouseupBound w;
             editors := editors w |}
    end
  else bindListeners w.

Definition onMouseUp (w : World) : World :=
  {| isSelectionOperation := false;
     isMouseDownForResize := false;
     clientXWhenMouseDown := clientXWhenMouseDown w;
     editorWhenMouseDown := None;
     bodyCursor := "";
     mousemoveBound := false;
     mouseupBound := false;
     editors := editors w |}.

Definition handleCellBorderMouseDown (id : nat) (w : World) : World :=
  if isMouseDownForResize w then w
  else
    {| isSelectionOperation := isSelectionOperation w;
       isMouseDownForResize := isMouseDownForResize w;
       clientXWhenMouseDown := clientXWhenMouseDown w;
       editorWhenMouseDown := Some id;
       bodyCursor := bodyCursor w;
       mousemoveBound := mousemoveBound w;
       mouseupBound := mouseupBound w;
       editors := editors w |}.

(** [parseInt(minWidth.toString(), 10) || 60], with [minWidth = 60] when the
    configuration has none. *)
Definition minColumnWidth (editor : IDomEditor) : number :=
  let minWidth := default "60"%string (minWidth (insertTableConfig editor)) in
  nor (parseInt minWidth) (ofZ 60).

(** [resizingIndex === 0 ? 0 : cumulativeWidths[resizingIndex - 1]] *)
Definition leftBoundary (resizingIndex : Z) (cumulativeWidths : list number) : number :=
  if resizingIndex =? 0 then ofZ 0 else array_get cumulativeWidths (resizingIndex - 1).

(** [Math.max(minColumnWidth, mousePositionInTable - leftBoundary)] *)
Definition adjustedWidth (editor : IDomEditor) (resizingIndex : Z)
    (mousePositionInTable : number) (cumulativeWidths : list number) : number :=
  let targetBorderPosition := mousePositionInTable in
  let newColumnWidth :=
    nsub targetBorderPosition (leftBoundary resizingIndex cumulativeWidths) in
  nmax (minColumnWidth editor) newColumnWidth.

(** [Math.floor(x * 100) / 100] *)
Definition floor2 (x : number) : number :=
  ndiv (nfloor (nmul x (ofZ 100))) (ofZ 100).

Section ColumnResize.

(** [numberToFixed] of [helpers.ts], which is not among the sources: a
    parameter of everything that calls it. *)
Variable numberToFixed : number -> number.

(** Adjacent widths for a drag of an inner border, from the distance the
    mouse has travelled: the dragged column changes, the others stay. *)
Definition calculateAdjacentWidths (columnWidths : list number) (resizingIndex : Z)
    (widthChange : number) (editor : IDomEditor) : list number :=
  let newWidths := columnWidths in
  let minColumnWidth := minColumnWidth editor in
  let currentWidth := array_get newWidths resizingIndex in
  let newWidth := nmax minColumnWidth (nadd currentWidth widthChange) in
  array_set newWidths resizingIndex (floor2 newWidth).

(** Column widths from the position of the mouse inside the table. *)
Definition calculateAdjacentWidthsByBorderPosition (columnWidths : list number)
    (resizingIndex : Z) (mousePositionInTable : number)
    (cumulativeWidths : list number) (editor : IDomEditor) : list number :=
  let newWidths := columnWidths in
  if (resizingIndex <? 0) || (resizingIndex >=? len columnWidths) then newWidths
  else
    let minColumnWidth := minColumnWidth editor in
    if negb (isFullWidthActive editor) then
      let adjustedWidth :=
        adjustedWidth editor resizingIndex mousePositionInTable cumulativeWidths in
      array_set newWidths resizingIndex (numberToFixed (floor2 adjustedWidth))
    else
      let adjustedWidth :=
        adjustedWidth editor resizingIndex mousePositionInTable cumulativeWidths in
      let widthChange := nsub adjustedWidth (array_get columnWidths resizingIndex) in
      let newWidths :=
        array_set newWidths resizingIndex (numberToFixed (floor2 adjustedWidth)) in
      if nltb (nabs widthChange) (tenth) then newWidths
      else if ngtb widthChange (ofZ 0) then
        if resizingIndex + 1 <? len columnWidths then
          let rightColumnNewWidth :=
            nmax minColumnWidth
                 (nsub (array_get columnWidths (resizingIndex + 1)) widthChange) in
          array_set newWidths (resizingIndex + 1)
                    (numberToFixed (floor2 rightColumnNewWidth))
        else if resizingIndex >? 0 then
          let leftColumnNewWidth :=
            nmax minColumnWidth
                 (nsub (array_get columnWidths (resizingIndex - 1)) widthChange) in
          array_set newWidths (resizingIndex - 1)
                    (numberToFixed (floor2 leftColumnNewWidth))
        else newWidths
      else
        if resizingIndex + 1 <? len columnWidths then
          let rightColumnNewWidth :=
            nsub (array_get columnWidths (resizingIndex + 1)) widthChange in
          array_set newWidths (resizingIndex + 1)
                    (numberToFixed (floor2 rightColumnNewWidth))
        else if resizingIndex >? 0 then
          let leftColumnNewWidth :=
            nsub (array_get columnWidths (resizingIndex - 1)) widthChange in
          array_set newWidths (resizingIndex - 1)
                    (numberToFixed (floor2 leftColumnNewWidth))
        else newWidths.

Definition columnWidthsProps (widths : list number) : TableElement :=
  {| type := None; width := None; columnWidths := Some widths;
     scrollWidth := None; height := None; resizingIndex := None;
     isResizing := None; isHoverCellBorder := None |}.

(** The body that [throttle] wraps: one run of the mouse-move handler. *)
Definition onMouseMove (clientX : number) (w : World) : result World :=
  if negb (isMouseDownForResize w) then Done w
  else
    match editorWhenMouseDown w with
    | None => Done w
    | Some id =>
        let editor := editors w id in
        let widthChange := nsub clientX (clientXWhenMouseDown w) in
        (* const [[elemNode]] = Editor.nodes(...): a TypeError without a match *)
        match getSelectedNodeByType editor "table" with
        | None => Raised w
        | Some elemNode =>
            let columnWidths := default [] (columnWidths elemNode) in
            let resizingIndex := default (-1) (resizingIndex elemNode) in
            match domNode editor with
            | None => Raised w
            | Some tableDom =>
                let adjustColumnWidths :=
                  match tableRectLeft tableDom with
                  | Some tableRectLeft =>
                      let mousePositionInTable := nsub clientX tableRectLeft in
                      let cumulativeWidths := getCumulativeWidths columnWidths in
                      calculateAdjacentWidthsByBorderPosition
                        columnWidths resizingIndex mousePositionInTable
                        cumulativeWidths editor
                  | None =>
                      calculateAdjacentWidths columnWidths resizingIndex
                                              widthChange editor
                  end in
                Done (with_editor w id
                        (setNodes editor (columnWidthsProps adjustColumnWidths)))
            end
        end
    end.

End ColumnResize.

Definition hoverProps (hover : bool) (index : Z) : TableElement :=
  {| type := None; width := None; columnWidths := None; scrollWidth := None;
     height := None; resizingIndex := Some index; isResizing := None;
     isHoverCellBorder := Some hover |}.

(** The loop over the cell borders: the first border within 5px of the
    mouse, counted from [i]. *)
Fixpoint findBorder (position : number) (cumulativeWidths : list number) (i : Z)
  : option Z :=
  match cumulativeWidths with
  | [] => None
  | border :: rest =>
      if ngeb position (nsub border (ofZ 5)) && nltb position (nadd border (ofZ 5))
      then Some i
      else findBorder position rest (i + 1)
  end.

(** On a mouse move over a table: find the cell border under the mouse and
    record it on the table node. *)
Definition handleCellBorderVisible (id : nat) (elemNode : TableElement)
    (e : MouseEvent) (scrollWidth : number) (w : World) : World :=
  let editor := editors w id in
  if disabled editor then w
  else if isSelectionOperation w || isMouseDownForResize w then w
  else
    let tableWidth := default "auto"%string (width elemNode) in
    let columnWidths := default [] (columnWidths elemNode) in
    let hovering := default false (isHoverCellBorder elemNode) in
    let reset :=
      if hovering then with_editor w id (setNodes editor (hoverProps false (-1)))
      else w in
    let insideCell :=
      match target e with
      | Some t =>
          ngtb (clientX e) (nadd (rectX t) (ofZ 5))
          && nltb (clientX e) (nsub (nadd (rectX t) (rectWidth t)) (ofZ 5))
      | None => false
      end in
    if insideCell then reset
    else
      match target e ≫= closestTable with
      | Some parentX =>
          let widths :=
            if String.eqb tableWidth "100%"
            then map (fun v => nmul v scrollWidth) (getColumnWidthRatios columnWidths)
            else columnWidths in
          let cumulativeWidths := getCumulativeWidths widths in
          match findBorder (nsub (clientX e) parentX) cumulativeWidths 0 with
          | Some i =>
              if decide (resizingIndex elemNode = Some i) then w
              else with_editor w id (setNodes editor (hoverProps true i))
          | None => reset
          end
      | None => reset
      end.

Definition handleCellBorderHighlight (id : nat) (e : MouseEvent) (w : World) : World :=
  let editor := editors w id in
  let props isResizing :=
    {| type := None; width := None; columnWidths := None; scrollWidth := None;
       height := None; resizingIndex := None; isResizing := Some isResizing;
       isHoverCellBorder := None |} in
  if String.eqb (eventType e) "mouseenter"
  then with_editor w id (setNodes editor (props true))
  else with_editor w id (setNodes editor (props false)).

(** The callback [observerTableResize] hands to the [ResizeObserver].  An
    observer that is replaced without being disconnected keeps reporting, so
    a run may call it for any editor at any time. *)
Definition tableResized (id : nat) (contentWidth contentHeight : number) (w : World)
  : World :=
  let props :=
    {| type := None; width := None; columnWidths := None;
       scrollWidth := Some contentWidth; height := Some contentHeight;
       resizingIndex := None; isResizing := None; isHoverCellBorder := None |} in
  with_editor w id (setNodes (editors w id) props).

(* ===================================================================== *)
(** ** Runs of the module *)
(* ===================================================================== *)

(** What can happen to the module: the three [window] events, the calls the
    renderer makes, the resize observation, the toolbar command, and anything
    else the host does to an editor. *)
Inductive Event : Type :=
| EvMouseDown (elem : HTMLElement) (clientX : number)
| EvMouseMove (clientX : number)
| EvMouseUp
| EvCellBorderVisible (id : nat) (elemNode : TableElement) (e : MouseEvent)
                      (scrollWidth : number)
| EvCellBorderHighlight (id : nat) (e : MouseEvent)
| EvCellBorderMouseDown (id : nat)
| EvTableResized (id : nat) (contentWidth contentHeight : number)
| EvToggleFullWidth (id : nat)
| EvHost (id : nat) (editor : IDomEditor).

Definition isMouseUp (ev : Event) : bool :=
  match ev with EvMouseUp => true | _ => false end.

(** A mouse-down that starts a resize: on a [DIV] inside a
    [.column-resizer-item], outside any table cell. *)
Definition onColumnResizer (elem : HTMLElement) : bool :=
  negb (closestTableCell elem)
  && (String.eqb (tagName elem) "DIV" && closestColumnResizerItem elem).

Section Runs.

Variable numberToFixed : number -> number.

(** One event.  The throttled mouse-move body may still run once after the
    listener is unbound, so it is run whenever a move is delivered; a
    mouse-up reaches [onMouseUp] only while that listener is bound.  An
    exception ends the handler and leaves the state as it was then. *)
Definition dispatch (w : World) (ev : Event) : World :=
  match ev with
  | EvMouseDown elem clientX => onMouseDown elem clientX w
  | EvMouseMove clientX => state_of (onMouseMove numberToFixed clientX w)
  | EvMouseUp => if mouseupBound w then onMouseUp w else w
  | EvCellBorderVisible id elemNode e scrollWidth =>
      handleCellBorderVisible id elemNode e scrollWidth w
  | EvCellBorderHighlight id e => handleCellBorderHighlight id e w
  | EvCellBorderMouseDown id => handleCellBorderMouseDown id w
  | EvTableResized id contentWidth contentHeight =>
      tableResized id contentWidth contentHeight w
  | EvToggleFullWidth id =>
      with_editor w id (state_of (TableAlwaysFullWidth.exec (editors w id)))
  | EvHost id editor => with_editor w id editor
  end.

Definition run (w : World) (evs : list Event) : World := fold_left dispatch evs w.

(** The events [evs] end inside a resize gesture: a mouse-down on a column
    resizer, made while an editor was recorded, with no mouse-up after it. *)
Definition insideDrag (start : World) (evs : list Event) : Prop :=
  exists (before : list Event) (elem : HTMLElement) (clientX : number)
         (since : list Event),
    evs = before ++ EvMouseDown elem clientX :: since
    /\ onColumnResizer elem = true
    /\ is_Some (editorWhenMouseDown (run start before))
    /\ Forall (fun ev => isMouseUp ev = false) since.

End Runs.
(* ===================================================================== *)
(** ** Vocabulary of the statements *)
(* ===================================================================== *)

(** A well-formed double: the mantissa of a finite value is in canonical
    form and its exponent within range. *)
Definition isDouble (x : number) : Prop := valid_binary prec emax x = true.

(** [Number.isFinite(x)], for a double. *)
Definition isFinite (x : number) : bool :=
  match x with
  | S754_zero _ => true
  | S754_finite _ m e => bounded prec emax m e
  | _ => false
  end.

(** The exact value of a number ([0] for [NaN] and the infinities). *)
Definition value (x : number) : Q :=
  match x with
  | S754_finite s m e => inject_Z (cond_Zopp s (Zpos m)) * 2 ^ e
  | _ => 0
  end.

(** The exact total of the values of a list of numbers. *)
Definition total (a : list number) : Q := fold_right (fun x t => value x + t)%Q 0%Q a.


(** A mantissa-exponent pair that rounding need not widen. *)
Definition wide (M E : Z) : Prop := E <= fexp prec emax (Zdigits2 M + E).

(** The double with sign [s] and value [M2 * 2 ^ e1], for a mantissa of at
    most 53 bits, or exactly [2 ^ 53]. *)
Definition rounded (s : bool) (M2 e1 : Z) : number :=
  if M2 =? 0 then S754_zero s
  else if M2 =? 2 ^ 53 then
    if e1 + 1 <=? 971 then S754_finite s (Z.to_pos (2 ^ 52)) (e1 + 1)
    else S754_infinity s
  else if e1 <=? 971 then S754_finite s (Z.to_pos M2) e1 else S754_infinity s.

(** The value of a positive finite double, times [2 ^ 1074]. *)
Definition pv (m : positive) (e : Z) : Z := Zpos m * 2 ^ (e + 1074).

(** A positive number, possibly infinite, that is at least the whole number
    [z]. *)
Definition atLeast (x : number) (z : Z) : Prop :=
  x = S754_infinity false
  \/ exists m e, x = S754_finite false m e /\ bounded prec emax m e = true
                 /\ z * 2 ^ 1074 <= pv m e.


(** The border test of the loop in [handleCellBorderVisible]. *)
Definition nearBorder (position border : number) : bool :=
  ngeb position (nsub border (ofZ 5)) && nltb position (nadd border (ofZ 5)).

(** The call by which the renderer records an editor. *)
Definition isCellBorderMouseDown (ev : Event) : bool :=
  match ev with EvCellBorderMouseDown _ => true | _ => false end.

(** [columnWidths] of the block at the selection, the empty array when the
    property is missing. *)
Definition widthsOf (editor : IDomEditor) : list number :=
  default [] (columnWidths (block editor)).

(* ===================================================================== *)
(** ** Sample tables *)
(* ===================================================================== *)

Definition sampleTable (tableWidth : string) (widths : list number) : TableElement :=
  {| type := Some "table"%string; width := Some tableWidth;
     columnWidths := Some widths; scrollWidth := None; height := None;
     resizingIndex := Some 0; isResizing := None; isHoverCellBorder := None |}.

Definition sampleStyle (tableWidth : string) : ComputedStyle :=
  {| cssPaddingLeft := "0px"; cssPaddingRight := "0px"; cssWidth := tableWidth |}.

(** A container 1000px wide that holds one table of the given width. *)
Definition sampleContainer (tableWidth : string) : ContainerElement :=
  {| clientWidth := ofZ 1000;
     containerStyle := sampleStyle "1000px";
     tablesByTagName := [sampleStyle tableWidth] |}.

Definition sampleDom (tableWidth : string) : TableDom :=
  {| tableContainer := Some (sampleContainer tableWidth);
     tableRectLeft := Some (ofZ 0) |}.

(** An enabled editor with a collapsed selection inside the table. *)
Definition sampleEditor (tableWidth : string) (widths : list number)
    (tableDom : TableDom) : IDomEditor :=
  {| selection := Some {| isCollapsed := true |};
     block := sampleTable tableWidth widths;
     disabled := false;
     insertTableConfig := {| minWidth := None |};
     domNode := Some tableDom;
     operations := [] |}.

(** Two columns of 100px each in a full-width table. *)
Definition evenColumns : IDomEditor :=
  sampleEditor "100%" [ofZ 100; ofZ 100] (sampleDom "200px").

(** Three columns of 60px each in a table 180px wide. *)
Definition threeColumns : IDomEditor :=
  sampleEditor "auto" [ofZ 60; ofZ 60; ofZ 60] (sampleDom "180px").

(** A full-width table without column widths whose DOM node holds no
    [.table-container]. *)
Definition fullWidthWithoutContainer : IDomEditor :=
  sampleEditor "100%" [] {| tableContainer := None; tableRectLeft := None |}.

(** Three columns of 60px each, not full-width, without a [.table-container]. *)
Definition threeColumnsWithoutContainer : IDomEditor :=
  sampleEditor "auto" [ofZ 60; ofZ 60; ofZ 60]
               {| tableContainer := None; tableRectLeft := None |}.

(** A page whose editors are all disabled. *)
Definition disabledPage (id : nat) : IDomEditor :=
  {| selection := Some {| isCollapsed := true |};
     block := sampleTable "auto" [ofZ 100; ofZ 100];
     disabled := true;
     insertTableConfig := {| minWidth := None |};
     domNode := Some (sampleDom "200px");
     operations := [] |}.

(** A mouse move over the border between the two columns. *)
Definition hoverBorder : MouseEvent :=
  {| eventType := "mousemove"; clientX := ofZ 100;
     target := Some {| tagName := "TD"; closestTableCell := true;
                       closestColumnResizerItem := false;
                       rectX := ofZ 0; rectWidth := ofZ 100;
                       closestTable := Some (ofZ 0) |} |}.

(** The element of a column resizer. *)
Definition resizerElement : HTMLElement :=
  {| tagName := "DIV"; closestTableCell := false; closestColumnResizerItem := true;
     rectX := ofZ 95; rectWidth := ofZ 10; closestTable := Some (ofZ 0) |}.

(** The renderer records editor 0, then the mouse goes down on a resizer. *)
Definition dragStart : list Event :=
  [EvCellBorderMouseDown 0%nat; EvMouseDown resizerElement (ofZ 100)].

Definition twoColumnPage (id : nat) : IDomEditor :=
  sampleEditor "auto" [ofZ 100; ofZ 100] (sampleDom "200px").

(** A world in the middle of a resize of editor 0. *)
Definition draggingWorld (page : nat -> IDomEditor) : World :=
  {| isSelectionOperation := false;
     isMouseDownForResize := true;
     clientXWhenMouseDown := ofZ 100;
     editorWhenMouseDown := Some 0%nat;
     bodyCursor := "col-resize";
     mousemoveBound := true;
     mouseupBound := true;
     editors := page |}.

(** One column of 100px in an editor configured with a minimal column width
    of 45.7. *)
Definition fractionalMinimum : IDomEditor :=
  {| selection := Some {| isCollapsed := true |};
     block := sampleTable "auto" [ofZ 100];
     disabled := false;
     insertTableConfig := {| minWidth := Some "45.7"%string |};
     domNode := Some (sampleDom "100px");
     operations := [] |}.
(* ===================================================================== *)
(** ** Doubles: how the arithmetic rounds *)
(* ===================================================================== *)

Lemma fexp_eq (e : Z) : fexp prec emax e = Z.max (e - 53) (-1074).
Proof. reflexivity. Qed.

Lemma digits2_pos_log2 (m : positive) :
  Zpos (digits2_pos m) = Z.log2 (Zpos m) + 1.
Proof.
  assert (H : digits2_pos m = Pos.size m) by (induction m; simpl; congruence).
  rewrite H. destruct m; simpl; lia.
Qed.

Lemma Zdigits2_log2 (z : Z) : 0 < z -> Zdigits2 z = Z.log2 z + 1.
Proof. destruct z; try lia. intros _. apply digits2_pos_log2. Qed.

Lemma digits_bounds (z : Z) :
  0 < z -> 2 ^ (Zdigits2 z - 1) <= z < 2 ^ Zdigits2 z.
Proof.
  intros H. rewrite Zdigits2_log2 by assumption.
  replace (Z.log2 z + 1 - 1) with (Z.log2 z) by lia.
  pose proof (Z.log2_spec z H). lia.
Qed.

Lemma digits_unique (z d : Z) : 2 ^ (d - 1) <= z < 2 ^ d -> 0 < z -> Zdigits2 z = d.
Proof.
  intros H Hz. rewrite Zdigits2_log2 by assumption.
  assert (0 <= d - 1).
  { destruct (Z.le_gt_cases 0 (d - 1)); [assumption|].
    assert (d <= 0) by lia.
    destruct (Z.eq_dec d 0) as [->|].
    - simpl in H. lia.
    - rewrite (Z.pow_neg_r 2 d) in H by lia. lia. }
  rewrite (Z.log2_unique z (d - 1)); [lia|lia|].
  replace (Z.succ (d - 1)) with d by lia. exact H.
Qed.

Lemma digits_shift (z k : Z) : 0 < z -> 0 <= k -> Zdigits2 (z * 2 ^ k) = Zdigits2 z + k.
Proof.
  intros Hz Hk.
  assert (0 < z * 2 ^ k)
    by (apply Z.mul_pos_pos; [assumption|]; apply Z.pow_pos_nonneg; lia).
  rewrite !Zdigits2_log2 by assumption.
  rewrite Z.log2_mul_pow2 by lia. lia.
Qed.

Lemma digits_pos (z : Z) : 0 < z -> 0 < Zdigits2 z.
Proof. intros H. rewrite Zdigits2_log2 by assumption. pose proof (Z.log2_nonneg z). lia. Qed.

Lemma digits_le (a b : Z) : 0 < a -> a <= b -> Zdigits2 a <= Zdigits2 b.
Proof.
  intros Ha Hab. rewrite !Zdigits2_log2 by lia.
  pose proof (Z.log2_le_mono a b Hab). lia.
Qed.

(** iteration *)
Lemma iter_pos_iter {A : Type} (f : A -> A) (p : positive) (x : A) :
  SpecFloat.iter_pos f p x = Pos.iter f x p.
Proof.
  revert x. induction p as [p IH|p IH|]; intros x; simpl.
  - rewrite !IH. rewrite <- !Pos.iter_swap. reflexivity.
  - now rewrite !IH.
  - reflexivity.
Qed.

Lemma shr_1_m (r : shr_record) : 0 <= shr_m r -> shr_m (shr_1 r) = shr_m r / 2.
Proof.
  destruct r as [m r s]. simpl. intros H.
  destruct m as [|p|p]; try lia.
  - reflexivity.
  - destruct p; simpl.
    + rewrite Pos2Z.inj_xI. apply Z.div_unique with 1; lia.
    + rewrite Pos2Z.inj_xO. apply Z.div_unique with 0; lia.
    + reflexivity.
Qed.

Lemma shr_iter_m (p : positive) (r : shr_record) :
  0 <= shr_m r ->
  0 <= shr_m (Pos.iter shr_1 r p)
  /\ shr_m (Pos.iter shr_1 r p) = shr_m r / 2 ^ Zpos p.
Proof.
  intros H. induction p using Pos.peano_ind.
  - simpl Pos.iter. rewrite shr_1_m by assumption. split; [|reflexivity].
    apply Z.div_pos; lia.
  - rewrite Pos.iter_succ. destruct IHp as [IH1 IH2].
    rewrite shr_1_m by assumption. split.
    + apply Z.div_pos; lia.
    + rewrite IH2, Pos2Z.inj_succ, Z.pow_succ_r by lia.
      rewrite Z.div_div by (try apply Z.pow_pos_nonneg; lia).
      f_equal. lia.
Qed.

Lemma shr_1_double (a : Z) :
  0 <= a ->
  shr_1 (Build_shr_record (a * 2) false false) = Build_shr_record a false false.
Proof.
  intros Ha. destruct a as [|q|q]; try lia; [reflexivity|].
  replace (Zpos q * 2) with (Zpos q~0) by lia. reflexivity.
Qed.

Lemma shr_iter_exact (p : positive) (a : Z) :
  0 <= a ->
  Pos.iter shr_1 (Build_shr_record (a * 2 ^ Zpos p) false false) p
  = Build_shr_record a false false.
Proof.
  revert a. induction p using Pos.peano_ind; intros a Ha.
  - rewrite Z.pow_1_r. now apply shr_1_double.
  - rewrite Pos.iter_succ, Pos2Z.inj_succ, Z.pow_succ_r by lia.
    replace (a * (2 * 2 ^ Zpos p)) with ((a * 2) * 2 ^ Zpos p) by lia.
    rewrite IHp by lia. now apply shr_1_double.
Qed.

Lemma shr_record_of_loc_m (M : Z) (l : location) : shr_m (shr_record_of_loc M l) = M.
Proof. destruct l as [|[]]; reflexivity. Qed.

Lemma loc_of_shr_record_of_loc (M : Z) (l : location) :
  loc_of_shr_record (shr_record_of_loc M l) = l.
Proof. destruct l as [|[]]; reflexivity. Qed.

Lemma round_nearest_even_range (m : Z) (l : location) :
  m <= round_nearest_even m l <= m + 1.
Proof. destruct l as [|[]]; simpl; try lia. destruct (Z.even m); lia. Qed.

Lemma shr_fexp_wide (M E : Z) (l : location) :
  0 < M -> wide M E ->
  exists rec,
    shr_fexp prec emax M E l = (rec, fexp prec emax (Zdigits2 M + E))
    /\ shr_m rec = M / 2 ^ (fexp prec emax (Zdigits2 M + E) - E)
    /\ (l = loc_Exact ->
        M mod 2 ^ (fexp prec emax (Zdigits2 M + E) - E) = 0 ->
        loc_of_shr_record rec = loc_Exact).
Proof.
  intros HM Hw. unfold wide in Hw. unfold shr_fexp, shr.
  set (e1 := fexp prec emax (Zdigits2 M + E)) in *.
  destruct (e1 - E) as [|p|p] eqn:Hn; try lia.
  - exists (shr_record_of_loc M l). repeat split.
    + f_equal. lia.
    + rewrite shr_record_of_loc_m. change (2 ^ 0) with 1. now rewrite Z.div_1_r.
    + intros -> _. reflexivity.
  - exists (SpecFloat.iter_pos shr_1 p (shr_record_of_loc M l)). repeat split.
    + f_equal. lia.
    + rewrite iter_pos_iter.
      destruct (shr_iter_m p (shr_record_of_loc M l)) as [_ ->];
        rewrite shr_record_of_loc_m; [lia|reflexivity].
    + intros -> Hmod. rewrite iter_pos_iter. simpl shr_record_of_loc.
      rewrite (Z.div_mod M (2 ^ Zpos p)) at 1 by (apply Z.pow_nonzero; lia).
      rewrite Hmod, Z.add_0_r, Z.mul_comm.
      rewrite shr_iter_exact; [reflexivity|].
      apply Z.div_pos; [lia|]. apply Z.pow_pos_nonneg; lia.
Qed.

Lemma finish_spec (s : bool) (M2 e1 : Z) :
  0 <= M2 <= 2 ^ 53 -> -1074 <= e1 ->
  (let '(mrs, e) := shr_fexp prec emax M2 e1 loc_Exact in
   match shr_m mrs with
   | Z0 => S754_zero s
   | Zpos m => if e <=? emax - prec then S754_finite s m e else S754_infinity s
   | Zneg _ => S754_nan
   end) = rounded s M2 e1.
Proof.
  intros HM2 He1. unfold rounded.
  destruct (Z.eqb_spec M2 0) as [->|Hnz].
  { unfold shr_fexp. simpl Zdigits2. rewrite fexp_eq. unfold shr.
    destruct (Z.max (0 + e1 - 53) (-1074) - e1) eqn:Hn; try reflexivity. lia. }
  destruct (Z.eqb_spec M2 (2 ^ 53)) as [->|Hn53].
  { unfold shr_fexp. change (Zdigits2 (2 ^ 53)) with 54. rewrite fexp_eq.
    replace (Z.max (54 + e1 - 53) (-1074) - e1) with 1 by lia.
    reflexivity. }
  assert (Hd : 0 < Zdigits2 M2 <= 53).
  { split; [apply digits_pos; lia|].
    destruct (Z.le_gt_cases (Zdigits2 M2) 53) as [|Hgt]; [assumption|].
    pose proof (digits_bounds M2 ltac:(lia)) as [Hlo _].
    assert (2 ^ 53 <= 2 ^ (Zdigits2 M2 - 1)) by (apply Z.pow_le_mono_r; lia).
    lia. }
  unfold shr_fexp. rewrite fexp_eq. unfold shr.
  destruct (Z.max (Zdigits2 M2 + e1 - 53) (-1074) - e1) eqn:Hn; try lia;
    simpl shr_m; destruct M2; try lia; reflexivity.
Qed.

Lemma bra_spec (s : bool) (M E : Z) (l : location) :
  0 < M -> wide M E ->
  exists M2,
    M / 2 ^ (fexp prec emax (Zdigits2 M + E) - E) <= M2
    /\ M2 <= M / 2 ^ (fexp prec emax (Zdigits2 M + E) - E) + 1
    /\ (l = loc_Exact ->
        M mod 2 ^ (fexp prec emax (Zdigits2 M + E) - E) = 0 ->
        M2 = M / 2 ^ (fexp prec emax (Zdigits2 M + E) - E))
    /\ binary_round_aux prec emax s M E l
       = rounded s M2 (fexp prec emax (Zdigits2 M + E)).
Proof.
  intros HM Hw.
  destruct (shr_fexp_wide M E l HM Hw) as (rec & Hshr & Hm & Hex).
  set (e1 := fexp prec emax (Zdigits2 M + E)) in *.
  set (M1 := M / 2 ^ (e1 - E)) in *.
  exists (round_nearest_even (shr_m rec) (loc_of_shr_record rec)).
  pose proof (round_nearest_even_range (shr_m rec) (loc_of_shr_record rec)) as Hr.
  rewrite Hm in *.
  assert (Hn : 0 <= e1 - E) by (unfold wide in Hw; fold e1 in Hw; lia).
  assert (HM1 : 0 <= M1 < 2 ^ 53).
  { split; [apply Z.div_pos; [lia|apply Z.pow_pos_nonneg; lia]|].
    apply Z.div_lt_upper_bound; [apply Z.pow_pos_nonneg; lia|].
    pose proof (digits_bounds M HM) as [_ Hhi].
    assert (Zdigits2 M <= e1 - E + 53) by (unfold e1; rewrite fexp_eq; lia).
    assert (2 ^ Zdigits2 M <= 2 ^ (e1 - E + 53)) by (apply Z.pow_le_mono_r; lia).
    rewrite Z.pow_add_r in * by lia. lia. }
  repeat split; try lia.
  - intros Hl Hmod. rewrite (Hex Hl Hmod). reflexivity.
  - unfold binary_round_aux. rewrite Hshr. rewrite Hm. fold M1.
    apply finish_spec; [lia|]. unfold e1. rewrite fexp_eq. lia.
Qed.

Lemma bra_shape (M E : Z) :
  0 < M -> wide M E ->
  0 <= fexp prec emax (Zdigits2 M + E) - E
  /\ 0 <= M / 2 ^ (fexp prec emax (Zdigits2 M + E) - E) < 2 ^ 53
  /\ (fexp prec emax (Zdigits2 M + E) = -1074
      \/ 2 ^ 52 <= M / 2 ^ (fexp prec emax (Zdigits2 M + E) - E)).
Proof.
  intros HM Hw. unfold wide in Hw.
  set (e1 := fexp prec emax (Zdigits2 M + E)) in *.
  assert (He1 : e1 = Z.max (Zdigits2 M + E - 53) (-1074)) by reflexivity.
  pose proof (digits_bounds M HM) as [Hlo Hhi].
  assert (Hp : 0 < 2 ^ (e1 - E)) by (apply Z.pow_pos_nonneg; lia).
  split; [lia|]. split; [split|].
  - apply Z.div_pos; lia.
  - apply Z.div_lt_upper_bound; [lia|].
    assert (2 ^ Zdigits2 M <= 2 ^ (e1 - E + 53)) by (apply Z.pow_le_mono_r; lia).
    rewrite Z.pow_add_r in * by lia. lia.
  - destruct (Z.eq_dec e1 (-1074)) as [|Hne]; [now left|right].
    assert (Hn : e1 - E = Zdigits2 M - 53) by lia.
    apply Z.div_le_lower_bound; [lia|].
    rewrite Hn, <- Z.pow_add_r by lia.
    replace (Zdigits2 M - 53 + 52) with (Zdigits2 M - 1) by lia. lia.
Qed.

Lemma rounded_valid (s : bool) (M2 e1 : Z) :
  0 <= M2 <= 2 ^ 53 -> -1074 <= e1 -> (e1 = -1074 \/ 2 ^ 52 <= M2) ->
  valid_binary prec emax (rounded s M2 e1) = true.
Proof.
  intros HM2 He1 Hn. unfold rounded.
  destruct (Z.eqb_spec M2 0); [reflexivity|].
  destruct (Z.eqb_spec M2 (2 ^ 53)).
  { destruct (Z.leb_spec (e1 + 1) 971); [|reflexivity].
    unfold valid_binary, bounded, canonical_mantissa.
    change (Zpos (digits2_pos (Z.to_pos (2 ^ 52)))) with 53.
    rewrite fexp_eq. apply andb_true_intro. split; [apply Z.eqb_eq|apply Z.leb_le]; unfold emax, prec; lia. }
  destruct (Z.leb_spec e1 971); [|reflexivity].
  unfold valid_binary, bounded, canonical_mantissa.
  assert (Hd : Zpos (digits2_pos (Z.to_pos M2)) = Zdigits2 M2)
    by (destruct M2; try lia; reflexivity).
  rewrite Hd, fexp_eq.
  pose proof (digits_bounds M2 ltac:(lia)) as [Hlo Hhi].
  assert (Zdigits2 M2 <= 53).
  { destruct (Z.le_gt_cases (Zdigits2 M2) 53) as [|Hgt]; [assumption|].
    assert (2 ^ 53 <= 2 ^ (Zdigits2 M2 - 1)) by (apply Z.pow_le_mono_r; lia). lia. }
  apply andb_true_intro. split; [apply Z.eqb_eq|apply Z.leb_le; unfold emax, prec; lia].
  destruct Hn as [->|Hn]; [lia|].
  assert (53 <= Zdigits2 M2).
  { destruct (Z.le_gt_cases 53 (Zdigits2 M2)) as [|Hlt]; [assumption|].
    assert (2 ^ Zdigits2 M2 <= 2 ^ 52) by (apply Z.pow_le_mono_r; lia). lia. }
  lia.
Qed.

Lemma bra_valid (s : bool) (M E : Z) (l : location) :
  0 < M -> wide M E ->
  valid_binary prec emax (binary_round_aux prec emax s M E l) = true.
Proof.
  intros HM Hw.
  destruct (bra_spec s M E l HM Hw) as (M2 & Hlo & Hhi & _ & ->).
  destruct (bra_shape M E HM Hw) as (Hn & HM1 & Hnorm).
  apply rounded_valid; [lia| rewrite fexp_eq; lia |].
  destruct Hnorm; [now left|right; lia].
Qed.

Lemma bra_shift (s : bool) (M E k : Z) :
  0 < M -> 0 <= k -> wide M E ->
  binary_round_aux prec emax s (M * 2 ^ k) (E - k) loc_Exact
  = binary_round_aux prec emax s M E loc_Exact.
Proof.
  intros HM Hk Hw.
  destruct (Z.eq_dec k 0) as [->|Hk0].
  { now rewrite Z.pow_0_r, Z.mul_1_r, Z.sub_0_r. }
  assert (Hs : shr_fexp prec emax (M * 2 ^ k) (E - k) loc_Exact
               = shr_fexp prec emax M E loc_Exact).
  { unfold shr_fexp. rewrite digits_shift by lia.
    replace (Zdigits2 M + k + (E - k)) with (Zdigits2 M + E) by lia.
    unfold wide in Hw. set (e1 := fexp prec emax (Zdigits2 M + E)) in *.
    simpl shr_record_of_loc. unfold shr.
    destruct (e1 - E) as [|n|n] eqn:Hn; try lia.
    - replace (e1 - (E - k)) with k by lia.
      destruct k as [|k|k]; try lia.
      rewrite iter_pos_iter, shr_iter_exact by lia. f_equal. lia.
    - destruct k as [|k|k]; try lia.
      replace (e1 - (E - Zpos k)) with (Zpos (n + k)) by lia.
      rewrite !iter_pos_iter, Pos.iter_add, shr_iter_exact by lia.
      f_equal. lia. }
  unfold binary_round_aux. now rewrite Hs.
Qed.

Lemma iter_xO (m d : positive) : Zpos (Pos.iter xO m d) = Zpos m * 2 ^ Zpos d.
Proof.
  induction d using Pos.peano_ind.
  - simpl. lia.
  - rewrite Pos.iter_succ, Pos2Z.inj_xO, IHd, Pos2Z.inj_succ, Z.pow_succ_r by lia. lia.
Qed.

(** [binary_round] first widens the mantissa. *)
Lemma binary_round_bra (s : bool) (m : positive) (e : Z) :
  let j := Z.max 0 (e - fexp prec emax (Zpos (digits2_pos m) + e)) in
  binary_round prec emax s m e
  = binary_round_aux prec emax s (Zpos m * 2 ^ j) (e - j) loc_Exact
  /\ wide (Zpos m * 2 ^ j) (e - j).
Proof.
  intros j. unfold binary_round, shl_align.
  set (e1 := fexp prec emax (Zpos (digits2_pos m) + e)) in *.
  assert (Hd : forall k, 0 <= k ->
                 fexp prec emax (Zdigits2 (Zpos m * 2 ^ k) + (e - k)) = e1).
  { intros k Hk. rewrite digits_shift by lia. unfold e1. f_equal.
    change (Zdigits2 (Zpos m)) with (Zpos (digits2_pos m)). lia. }
  destruct (e1 - e) as [|d|d] eqn:Hn.
  - replace j with 0 by lia. rewrite Z.pow_0_r, Z.mul_1_r, Z.sub_0_r.
    split; [reflexivity|]. unfold wide. fold e1.
    change (Zdigits2 (Zpos m)) with (Zpos (digits2_pos m)). fold e1. lia.
  - replace j with 0 by lia. rewrite Z.pow_0_r, Z.mul_1_r, Z.sub_0_r.
    split; [reflexivity|]. unfold wide.
    change (Zdigits2 (Zpos m)) with (Zpos (digits2_pos m)). fold e1. lia.
  - replace j with (Zpos d) by lia. rewrite iter_xO.
    replace (e - Zpos d) with e1 by lia.
    split; [reflexivity|]. unfold wide.
    replace e1 with (e - Zpos d) at 1 2 by lia. rewrite Hd by lia. lia.
Qed.

Lemma binary_round_valid (s : bool) (m : positive) (e : Z) :
  valid_binary prec emax (binary_round prec emax s m e) = true.
Proof.
  destruct (binary_round_bra s m e) as [-> Hw].
  apply bra_valid; [|assumption].
  apply Z.mul_pos_pos; [lia|]. apply Z.pow_pos_nonneg; lia.
Qed.

Lemma binary_round_shift (s : bool) (m : positive) (e k : Z) :
  0 <= k ->
  binary_round prec emax s (Z.to_pos (Zpos m * 2 ^ k)) (e - k)
  = binary_round prec emax s m e.
Proof.
  intros Hk.
  assert (Hp : 0 < 2 ^ k) by (apply Z.pow_pos_nonneg; lia).
  assert (Hmk : Zpos (Z.to_pos (Zpos m * 2 ^ k)) = Zpos m * 2 ^ k)
    by (apply Z2Pos.id; lia).
  destruct (binary_round_bra s (Z.to_pos (Zpos m * 2 ^ k)) (e - k)) as [-> Hw1].
  destruct (binary_round_bra s m e) as [-> Hw2].
  assert (Hd : Zpos (digits2_pos (Z.to_pos (Zpos m * 2 ^ k))) + (e - k)
               = Zpos (digits2_pos m) + e).
  { change (Zpos (digits2_pos (Z.to_pos (Zpos m * 2 ^ k))))
      with (Zdigits2 (Zpos (Z.to_pos (Zpos m * 2 ^ k)))).
    rewrite Hmk, digits_shift by lia.
    change (Zdigits2 (Zpos m)) with (Zpos (digits2_pos m)). lia. }
  rewrite Hd in *. rewrite Hmk in *.
  set (e1 := fexp prec emax (Zpos (digits2_pos m) + e)) in *.
  set (j := Z.max 0 (e - e1)) in *.
  set (j' := Z.max 0 (e - k - e1)) in *.
  replace (Zpos m * 2 ^ k * 2 ^ j') with ((Zpos m * 2 ^ j) * 2 ^ (k + j' - j)).
  2:{ rewrite <- !Z.mul_assoc, <- !Z.pow_add_r by lia. f_equal. f_equal. lia. }
  replace (e - k - j') with (e - j - (k + j' - j)) by lia.
  apply bra_shift; [|lia|assumption].
  apply Z.mul_pos_pos; [lia|]. apply Z.pow_pos_nonneg; lia.
Qed.

Lemma bounded_inv (m : positive) (e : Z) :
  bounded prec emax m e = true ->
  -1074 <= e <= 971 /\ Zpos m < 2 ^ 53 /\ (e = -1074 \/ 2 ^ 52 <= Zpos m)
  /\ fexp prec emax (Zpos (digits2_pos m) + e) = e.
Proof.
  unfold bounded, canonical_mantissa. intros H.
  apply andb_true_iff in H as [Hc Hb].
  apply Z.eqb_eq in Hc. apply Z.leb_le in Hb. unfold emax, prec in Hb.
  pose proof Hc as Hc'. rewrite fexp_eq in Hc.
  pose proof (digits_bounds (Zpos m) ltac:(lia)) as [Hlo Hhi].
  change (Zdigits2 (Zpos m)) with (Zpos (digits2_pos m)) in *.
  set (d := Zpos (digits2_pos m)) in *.
  split; [lia|]. split; [|split; [|exact Hc']].
  - assert (2 ^ d <= 2 ^ 53) by (apply Z.pow_le_mono_r; lia). lia.
  - destruct (Z.eq_dec e (-1074)); [now left|right].
    assert (d = 53) by lia. replace (d - 1) with 52 in Hlo by lia. exact Hlo.
Qed.

Lemma compare_pos (m1 : positive) (e1 : Z) (m2 : positive) (e2 : Z) :
  bounded prec emax m1 e1 = true -> bounded prec emax m2 e2 = true ->
  SFcompare (S754_finite false m1 e1) (S754_finite false m2 e2)
  = Some (pv m1 e1 ?= pv m2 e2).
Proof.
  intros H1 H2.
  destruct (bounded_inv m1 e1 H1) as (He1 & Hm1 & Hn1 & _).
  destruct (bounded_inv m2 e2 H2) as (He2 & Hm2 & Hn2 & _).
  unfold pv, SFcompare. f_equal.
  destruct (Z.compare_spec e1 e2) as [->|Hlt|Hgt].
  - rewrite Pos.compare_cont_spec. simpl Pos.switch_Eq.
    assert (Hp : 0 < 2 ^ (e2 + 1074)) by (apply Z.pow_pos_nonneg; lia).
    change (m1 ?= m2)%positive with (Zpos m1 ?= Zpos m2).
    destruct (Z.compare_spec (Zpos m1) (Zpos m2)) as [Heq|Hlt|Hgt]; symmetry.
    + apply Z.compare_eq_iff. congruence.
    + apply Z.compare_lt_iff. nia.
    + apply Z.compare_gt_iff. nia.
  - symmetry. apply Z.compare_lt_iff.
    assert (Hp : 0 < 2 ^ (e1 + 1074)) by (apply Z.pow_pos_nonneg; lia).
    assert (Hq : 2 * 2 ^ (e1 + 1074) <= 2 ^ (e2 + 1074)).
    { rewrite <- Z.pow_succ_r by lia. apply Z.pow_le_mono_r; lia. }
    destruct Hn2 as [|Hn2]; [lia|]. change (2 ^ 53) with (2 * 2 ^ 52) in Hm1. nia.
  - symmetry. apply Z.compare_gt_iff.
    assert (Hp : 0 < 2 ^ (e2 + 1074)) by (apply Z.pow_pos_nonneg; lia).
    assert (Hq : 2 * 2 ^ (e2 + 1074) <= 2 ^ (e1 + 1074)).
    { rewrite <- Z.pow_succ_r by lia. apply Z.pow_le_mono_r; lia. }
    destruct Hn1 as [|Hn1]; [lia|]. change (2 ^ 53) with (2 * 2 ^ 52) in Hm2. nia.
Qed.

(** What rounding returns, seen as a value. *)
Lemma rounded_cases (s : bool) (M2 e1 : Z) :
  0 < M2 <= 2 ^ 53 -> -1074 <= e1 ->
  rounded s M2 e1 = S754_infinity s
  \/ exists m e, rounded s M2 e1 = S754_finite s m e
                 /\ pv m e = M2 * 2 ^ (e1 + 1074).
Proof.
  intros HM2 He1. unfold rounded.
  destruct (Z.eqb_spec M2 0); [lia|].
  destruct (Z.eqb_spec M2 (2 ^ 53)) as [->|].
  - destruct (Z.leb_spec (e1 + 1) 971); [right|now left].
    eexists _, _. split; [reflexivity|]. unfold pv.
    replace (e1 + 1 + 1074) with (Z.succ (e1 + 1074)) by lia.
    rewrite Z.pow_succ_r by lia. change (Zpos (Z.to_pos (2 ^ 52))) with (2 ^ 52).
    change (2 ^ 53) with (2 ^ 52 * 2). lia.
  - destruct (Z.leb_spec e1 971); [right|now left].
    eexists _, _. split; [reflexivity|]. unfold pv. rewrite Z2Pos.id by lia. reflexivity.
Qed.

(** Rounding never goes below a double that is not above the exact value. *)
Lemma bra_lower (M E : Z) (l : location) (mr : positive) (er c : Z) :
  0 < M -> wide M E -> bounded prec emax mr er = true ->
  c <= E -> c <= er ->
  Zpos mr * 2 ^ (er - c) < (M + 1) * 2 ^ (E - c) ->
  binary_round_aux prec emax false M E l = S754_infinity false
  \/ exists m e, binary_round_aux prec emax false M E l = S754_finite false m e
                 /\ pv mr er <= pv m e.
Proof.
  intros HM Hw Hr HcE Hcer Hle.
  destruct (bra_spec false M E l HM Hw) as (M2 & Hlo & Hhi & _ & ->).
  destruct (bra_shape M E HM Hw) as (Hn & HM1 & Hnorm).
  destruct (bounded_inv mr er Hr) as (Her & Hmr & Hnr & _).
  set (e1 := fexp prec emax (Zdigits2 M + E)) in *.
  set (M1 := M / 2 ^ (e1 - E)) in *.
  assert (He1 : -1074 <= e1) by (unfold e1; rewrite fexp_eq; lia).
  assert (Hkey : pv mr er <= M1 * 2 ^ (e1 + 1074)).
  { unfold pv. destruct (Z.le_gt_cases e1 er) as [Hge|Hlt].
    - assert (H1 : Zpos mr * 2 ^ (er - e1) <= M1).
      { apply Z.div_le_lower_bound; [apply Z.pow_pos_nonneg; lia|].
        assert (H2 : Zpos mr * 2 ^ (er - E) < M + 1).
        { replace (er - c) with ((er - E) + (E - c)) in Hle by lia.
          rewrite Z.pow_add_r, Z.mul_assoc in Hle by lia.
          apply Z.mul_lt_mono_pos_r in Hle; [assumption|].
          apply Z.pow_pos_nonneg; lia. }
        replace (er - E) with ((e1 - E) + (er - e1)) in H2 by lia.
        rewrite Z.pow_add_r in H2 by lia. lia. }
      replace (er + 1074) with ((er - e1) + (e1 + 1074)) by lia.
      rewrite Z.pow_add_r, Z.mul_assoc by lia.
      apply Z.mul_le_mono_nonneg_r; [apply Z.pow_nonneg; lia|assumption].
    - destruct Hnorm as [Hsub|Hnorm]; [lia|].
      assert (Hp : 0 < 2 ^ (er + 1074)) by (apply Z.pow_pos_nonneg; lia).
      assert (Hq : 2 * 2 ^ (er + 1074) <= 2 ^ (e1 + 1074)).
      { rewrite <- Z.pow_succ_r by lia. apply Z.pow_le_mono_r; lia. }
      change (2 ^ 53) with (2 * 2 ^ 52) in Hmr. nia. }
  assert (HM2 : 0 < M2).
  { destruct (Z.eq_dec M2 0) as [->|]; [|lia].
    assert (M1 = 0) by lia.
    assert (0 < pv mr er) by (unfold pv; apply Z.mul_pos_pos; [lia|apply Z.pow_pos_nonneg; lia]).
    lia. }
  destruct (rounded_cases false M2 e1 ltac:(lia) He1) as [->|(m & e & -> & Hv)];
    [now left|right].
  exists m, e. split; [reflexivity|]. rewrite Hv.
  assert (0 <= 2 ^ (e1 + 1074)) by (apply Z.pow_nonneg; lia). nia.
Qed.

Lemma pow2_pos (k : Z) : 0 <= k -> 0 < 2 ^ k.
Proof. intros. apply Z.pow_pos_nonneg; lia. Qed.

(** Changing the scale of a comparison. *)
Lemma scale_lt (a ea b eb k1 k2 : Z) :
  k1 <= ea -> k1 <= eb -> k2 <= ea -> k2 <= eb ->
  a * 2 ^ (ea - k1) < b * 2 ^ (eb - k1) -> a * 2 ^ (ea - k2) < b * 2 ^ (eb - k2).
Proof.
  intros H1 H2 H3 H4 H.
  destruct (Z.le_ge_cases k1 k2) as [Hk|Hk].
  - replace (ea - k1) with ((ea - k2) + (k2 - k1)) in H by lia.
    replace (eb - k1) with ((eb - k2) + (k2 - k1)) in H by lia.
    rewrite !Z.pow_add_r, !Z.mul_assoc in H by lia.
    apply Z.mul_lt_mono_pos_r in H; [assumption|apply pow2_pos; lia].
  - replace (ea - k2) with ((ea - k1) + (k1 - k2)) by lia.
    replace (eb - k2) with ((eb - k1) + (k1 - k2)) by lia.
    rewrite !Z.pow_add_r, !Z.mul_assoc by lia.
    apply Z.mul_lt_mono_pos_r; [apply pow2_pos; lia|assumption].
Qed.

Lemma scale_le (a ea b eb k1 k2 : Z) :
  k1 <= ea -> k1 <= eb -> k2 <= ea -> k2 <= eb ->
  a * 2 ^ (ea - k1) <= b * 2 ^ (eb - k1) -> a * 2 ^ (ea - k2) <= b * 2 ^ (eb - k2).
Proof.
  intros H1 H2 H3 H4 H.
  destruct (Z.le_ge_cases k1 k2) as [Hk|Hk].
  - replace (ea - k1) with ((ea - k2) + (k2 - k1)) in H by lia.
    replace (eb - k1) with ((eb - k2) + (k2 - k1)) in H by lia.
    rewrite !Z.pow_add_r, !Z.mul_assoc in H by lia.
    apply Z.mul_le_mono_pos_r in H; [assumption|apply pow2_pos; lia].
  - replace (ea - k2) with ((ea - k1) + (k1 - k2)) by lia.
    replace (eb - k2) with ((eb - k1) + (k1 - k2)) by lia.
    rewrite !Z.pow_add_r, !Z.mul_assoc by lia.
    apply Z.mul_le_mono_pos_r; [apply pow2_pos; lia|assumption].
Qed.

(** The double of a positive integer below [2 ^ 53]. *)
Lemma ofZ_pos (z : Z) :
  0 < z < 2 ^ 53 ->
  exists m, ofZ z = S754_finite false m (Zdigits2 z - 53)
            /\ Zpos m = z * 2 ^ (53 - Zdigits2 z)
            /\ bounded prec emax m (Zdigits2 z - 53) = true.
Proof.
  intros Hz. destruct z as [|p|p]; try lia.
  pose proof (digits_bounds (Zpos p) ltac:(lia)) as [Hlo Hhi].
  pose proof (digits_pos (Zpos p) ltac:(lia)) as Hd0.
  assert (Hd : Zdigits2 (Zpos p) <= 53).
  { destruct (Z.le_gt_cases (Zdigits2 (Zpos p)) 53) as [|Hgt]; [assumption|].
    assert (2 ^ 53 <= 2 ^ (Zdigits2 (Zpos p) - 1)) by (apply Z.pow_le_mono_r; lia). lia. }
  set (d := Zdigits2 (Zpos p)) in *.
  assert (Hval : valid_binary prec emax (ofZ (Zpos p)) = true)
    by apply binary_round_valid.
  unfold ofZ, binary_normalize in *.
  destruct (binary_round_bra false p 0) as [Hbr Hw].
  change (Zpos (digits2_pos p)) with d in *.
  rewrite fexp_eq in *.
  assert (Hj : Z.max 0 (0 - Z.max (d + 0 - 53) (-1074)) = 53 - d) by lia.
  rewrite Hj in *. clear Hj.
  set (M := Zpos p * 2 ^ (53 - d)) in *.
  assert (HM : 2 ^ 52 <= M < 2 ^ 53).
  { unfold M. split.
    - replace 52 with ((d - 1) + (53 - d)) by lia. rewrite Z.pow_add_r by lia.
      apply Z.mul_le_mono_nonneg_r; [apply Z.pow_nonneg; lia|assumption].
    - replace 53 with (d + (53 - d)) at 2 by lia. rewrite Z.pow_add_r by lia.
      apply Z.mul_lt_mono_pos_r; [apply pow2_pos; lia|assumption]. }
  destruct (bra_spec false M (0 - (53 - d)) loc_Exact ltac:(lia) Hw)
    as (M2 & _ & _ & Hex & Hr).
  assert (HdM : Zdigits2 M = 53) by (apply digits_unique; [exact HM|lia]).
  rewrite HdM, fexp_eq in *.
  replace (Z.max (53 + (0 - (53 - d)) - 53) (-1074)) with (d - 53) in * by lia.
  replace (d - 53 - (0 - (53 - d))) with 0 in Hex by lia.
  rewrite Z.pow_0_r, Z.div_1_r in Hex. specialize (Hex eq_refl (Z.mod_1_r M)).
  subst M2. rewrite Hbr in *. rewrite Hr in *. unfold rounded in *.
  destruct (Z.eqb_spec M 0); [lia|].
  destruct (Z.eqb_spec M (2 ^ 53)); [lia|].
  destruct (Z.leb_spec (d - 53) 971); [|lia].
  exists (Z.to_pos M). repeat split.
  - rewrite Z2Pos.id by lia. reflexivity.
  - exact Hval.
Qed.

Lemma ofZ_pv (z : Z) :
  0 < z < 2 ^ 53 ->
  exists m e, ofZ z = S754_finite false m e /\ bounded prec emax m e = true
              /\ pv m e = z * 2 ^ 1074 /\ -52 <= e <= 0.
Proof.
  intros Hz. destruct (ofZ_pos z Hz) as (m & Hm & Hv & Hb).
  pose proof (digits_pos z ltac:(lia)).
  destruct (bounded_inv _ _ Hb) as (He & Hm53 & _).
  assert (Zdigits2 z <= 53).
  { destruct (Z.le_gt_cases (Zdigits2 z) 53) as [|Hgt]; [assumption|].
    pose proof (digits_bounds z ltac:(lia)) as [Hlo _].
    assert (2 ^ 53 <= 2 ^ (Zdigits2 z - 1)) by (apply Z.pow_le_mono_r; lia). lia. }
  exists m, (Zdigits2 z - 53). repeat split; try assumption; try lia.
  unfold pv. rewrite Hv, <- Z.mul_assoc, <- Z.pow_add_r by lia.
  f_equal. f_equal. lia.
Qed.

Lemma atLeast_ofZ (z : Z) : 0 < z < 2 ^ 53 -> atLeast (ofZ z) z.
Proof.
  intros Hz. destruct (ofZ_pv z Hz) as (m & e & -> & Hb & Hv & _).
  right. exists m, e. repeat split; [assumption|lia].
Qed.

Lemma atLeast_weaken (x : number) (a b : Z) : b <= a -> atLeast x a -> atLeast x b.
Proof.
  intros Hab [->|(m & e & -> & Hb & Hv)]; [now left|right].
  exists m, e. repeat split; try assumption.
  pose proof (pow2_pos 1074 ltac:(lia)). nia.
Qed.


Lemma wide_53 (M E : Z) : 2 ^ 52 <= M -> wide M E.
Proof.
  intros HM. unfold wide. rewrite fexp_eq.
  assert (53 <= Zdigits2 M).
  { change 53 with (Zdigits2 (2 ^ 52)). apply digits_le; [reflexivity|assumption]. }
  lia.
Qed.

Lemma mul_atLeast (y : number) (z c : Z) :
  atLeast y z -> 0 < z -> 0 < c -> c * z < 2 ^ 53 ->
  atLeast (nmul y (ofZ c)) (c * z).
Proof.
  intros Hy Hz Hc Hcz.
  destruct (ofZ_pv c ltac:(nia)) as (mc & ec & Hofc & Hbc & Hvc & Hec).
  destruct (bounded_inv mc ec Hbc) as (_ & Hmc & Hnc & _).
  rewrite Hofc. destruct Hy as [->|(my & ey & -> & Hby & Hvy)]; [now left|].
  destruct (bounded_inv my ey Hby) as (Hey & _).
  destruct (ofZ_pv (c * z) ltac:(nia)) as (mr & er & _ & Hbr & Hvr & Her).
  unfold nmul, SFmul. simpl xorb.
  assert (HM : 2 ^ 52 <= Zpos (my * mc)).
  { destruct Hnc; [lia|]. rewrite Pos2Z.inj_mul. nia. }
  assert (Hw : wide (Zpos (my * mc)) (ey + ec)) by now apply wide_53.
  pose proof (bra_valid false (Zpos (my * mc)) (ey + ec) loc_Exact ltac:(lia) Hw) as Hval.
  destruct (bra_lower (Zpos (my * mc)) (ey + ec) loc_Exact mr er (-1200)
              ltac:(lia) Hw Hbr ltac:(lia) ltac:(lia)) as [->|(m & e & Hres & Hle)].
  - unfold pv in *. rewrite Pos2Z.inj_mul.
    pose proof (pow2_pos (ey + 1074) ltac:(lia)) as HA.
    pose proof (pow2_pos (ec + 1074) ltac:(lia)) as HB.
    pose proof (pow2_pos 948 ltac:(lia)) as HC.
    pose proof (pow2_pos (ey + ec - -1200) ltac:(lia)) as HD.
    assert (HAB : 2 ^ (ey + 1074) * 2 ^ (ec + 1074)
                  = 2 ^ (ey + ec - -1200) * 2 ^ 948)
      by (rewrite <- !Z.pow_add_r by lia; f_equal; lia).
    assert (HT : 2 ^ (er + 1074) * 2 ^ 1074 = 2 ^ (er - -1200) * 2 ^ 948)
      by (rewrite <- !Z.pow_add_r by lia; f_equal; lia).
    assert (H1 : Zpos mr * 2 ^ (er - -1200) * 2 ^ 948
                 <= Zpos my * Zpos mc * 2 ^ (ey + ec - -1200) * 2 ^ 948).
    { rewrite <- !Z.mul_assoc, <- HAB, <- HT.
      transitivity (c * z * 2 ^ 1074 * 2 ^ 1074); [rewrite <- Hvr; lia|].
      pose proof (pow2_pos 1074 ltac:(lia)). nia. }
    apply Z.mul_le_mono_pos_r in H1; [|assumption]. lia.
  - now left.
  - right. rewrite Hres in *. exists m, e. repeat split; [exact Hval|]. lia.
Qed.

Lemma floor_atLeast (x : number) (b : Z) :
  atLeast x b -> 0 < b -> atLeast (nfloor x) b.
Proof.
  intros [->|(m & e & -> & Hb & Hv)] Hb0; [now left|].
  unfold nfloor. destruct (Z.leb_spec 0 e) as [He|He].
  { right. now exists m, e. }
  simpl cond_Zopp.
  destruct (bounded_inv m e Hb) as (Hrange & Hm & _).
  assert (Hp : 0 < 2 ^ (- e)) by (apply pow2_pos; lia).
  assert (Hq : b <= Zpos m / 2 ^ (- e)).
  { apply Z.div_le_lower_bound; [assumption|].
    unfold pv in Hv.
    replace 1074 with ((- e) + (e + 1074)) in Hv at 1 by lia.
    rewrite Z.pow_add_r, Z.mul_assoc in Hv by lia.
    apply Z.mul_le_mono_pos_r in Hv; [lia|apply pow2_pos; lia]. }
  assert (Hq' : Zpos m / 2 ^ (- e) < 2 ^ 53).
  { apply Z.div_lt_upper_bound; [assumption|]. nia. }
  apply atLeast_weaken with (Zpos m / 2 ^ (- e)); [assumption|].
  apply atLeast_ofZ. lia.
Qed.

Lemma div_atLeast (x : number) (z c : Z) :
  atLeast x (c * z) -> 0 < z -> 0 < c -> c * z < 2 ^ 53 ->
  atLeast (ndiv x (ofZ c)) z.
Proof.
  intros Hx Hz Hc Hcz.
  destruct (ofZ_pos c ltac:(nia)) as (mc & Hofc & Hmc & Hbc).
  destruct (ofZ_pv c ltac:(nia)) as (mc' & ec & Hofc' & _ & Hvc & Hec).
  rewrite Hofc in Hofc'. injection Hofc' as <- <-.
  destruct (bounded_inv mc _ Hbc) as (_ & Hmc53 & Hnc & _).
  assert (Hmc52 : 2 ^ 52 <= Zpos mc) by (destruct Hnc; lia).
  set (ec := Zdigits2 c - 53) in *.
  rewrite Hofc. destruct Hx as [->|(mf & ef & -> & Hbf & Hvf)]; [now left|].
  destruct (bounded_inv mf ef Hbf) as (Hef & Hmf & _).
  destruct (ofZ_pv z ltac:(nia)) as (mz & ez & _ & Hbz & Hvz & Hez).
  pose proof (digits_bounds (Zpos mf) ltac:(lia)) as [Hlo Hhi].
  pose proof (digits_pos (Zpos mf) ltac:(lia)) as Hd0.
  assert (Hd1 : Zdigits2 (Zpos mf) <= 53).
  { destruct (Z.le_gt_cases (Zdigits2 (Zpos mf)) 53) as [|Hgt]; [assumption|].
    assert (2 ^ 53 <= 2 ^ (Zdigits2 (Zpos mf) - 1)) by (apply Z.pow_le_mono_r; lia). lia. }
  assert (Hd2 : Zdigits2 (Zpos mc) = 53)
    by (apply digits_unique; [change (53 - 1) with 52|]; lia).
  set (d1 := Zdigits2 (Zpos mf)) in *.
  pose proof (pow2_pos 1074 ltac:(lia)) as HT.
  pose proof (pow2_pos (ef + 1074) ltac:(lia)) as HA.
  pose proof (pow2_pos (ec + 1074) ltac:(lia)) as HB.
  unfold pv in *.
  (* the quotient is at least 1 *)
  assert (Hg : 53 + ec <= d1 + ef).
  { assert (H1 : 2 ^ (52 + (ec + 1074)) < 2 ^ (d1 + (ef + 1074))).
    { rewrite (Z.pow_add_r 2 52), (Z.pow_add_r 2 d1) by lia.
      apply Z.le_lt_trans with (Zpos mf * 2 ^ (ef + 1074)); [|nia].
      apply Z.le_trans with (c * z * 2 ^ 1074); [|assumption].
      apply Z.le_trans with (Zpos mc * 2 ^ (ec + 1074)); [nia|].
      rewrite Hvc. nia. }
    apply Z.pow_lt_mono_r_iff in H1; lia. }
  unfold ndiv, SFdiv, SFdiv_core_binary. simpl xorb.
  fold d1. rewrite Hd2, fexp_eq.
  replace (Z.min (Z.max (d1 + ef - (53 + ec) - 53) (-1074)) (ef - ec))
    with (d1 + ef - ec - 106) by lia.
  replace (ef - ec - (d1 + ef - ec - 106)) with (106 - d1) by lia.
  destruct (106 - d1) as [|s|s] eqn:Hs; try lia.
  rewrite Z.shiftl_mul_pow2 by lia.
  set (m' := Zpos mf * 2 ^ Zpos s) in *.
  set (e' := d1 + ef - ec - 106) in *.
  assert (Hm' : 2 ^ 105 <= m').
  { unfold m'. replace 105 with ((d1 - 1) + Zpos s) by lia.
    rewrite Z.pow_add_r by lia.
    apply Z.mul_le_mono_nonneg_r; [apply Z.pow_nonneg; lia|assumption]. }
  pose proof (Z.div_eucl_eq m' (Zpos mc) ltac:(lia)) as Heucl.
  pose proof (Z.mod_pos_bound m' (Zpos mc) ltac:(lia)) as Hmod.
  unfold Z.modulo in Hmod.
  destruct (Z.div_eucl m' (Zpos mc)) as [q r].
  assert (Hq : 2 ^ 52 <= q).
  { change (2 ^ 105) with (2 ^ 52 * 2 ^ 53) in Hm'. nia. }
  assert (Hw : wide q e') by now apply wide_53.
  pose proof (bra_valid false q e' (new_location (Zpos mc) r) ltac:(lia) Hw) as Hval.
  destruct (bra_lower q e' (new_location (Zpos mc) r) mz ez (-1200)
              ltac:(lia) Hw Hbz ltac:(lia) ltac:(lia)) as [->|(m & e & Hres & Hle)].
  - pose proof (pow2_pos (e' - -1200) ltac:(lia)) as HD.
    pose proof (pow2_pos (ez + 1074) ltac:(lia)) as HE.
    assert (HK : 0 < Zpos mc * 2 ^ (ec + 1074)) by lia.
    apply Z.mul_lt_mono_pos_r with (p := Zpos mc * 2 ^ (ec + 1074)); [assumption|].
    assert (H1 : Zpos mz * 2 ^ (ez - -1200) * (Zpos mc * 2 ^ (ec + 1074))
                 = c * z * 2 ^ 1074 * 2 ^ 1200).
    { rewrite Hvc. replace (ez - -1200) with ((ez + 1074) + 126) by lia.
      rewrite Z.pow_add_r by lia. change (2 ^ 1200) with (2 ^ 1074 * 2 ^ 126). nia. }
    assert (H2 : Zpos mf * 2 ^ (ef + 1074) * 2 ^ 1200
                 = m' * (2 ^ (e' - -1200) * 2 ^ (ec + 1074))).
    { unfold m'. rewrite <- !Z.mul_assoc. f_equal.
      rewrite <- !Z.pow_add_r by lia. f_equal. lia. }
    rewrite H1.
    apply Z.le_lt_trans with (Zpos mf * 2 ^ (ef + 1074) * 2 ^ 1200).
    + apply Z.mul_le_mono_nonneg_r; [apply Z.pow_nonneg|]; lia.
    + rewrite H2.
      pose proof (Z.mul_pos_pos _ _ HD HB). nia.
  - now left.
  - right. rewrite Hres in *. exists m, e. repeat split; [exact Hval|].
    unfold pv in *. lia.
Qed.

Lemma ngeb_atLeast (y : number) (z : Z) :
  isDouble y -> 0 < z < 2 ^ 53 -> ngeb y (ofZ z) = true -> atLeast y z.
Proof.
  intros Hy Hz. destruct (ofZ_pv z Hz) as (mz & ez & -> & Hbz & Hvz & _).
  unfold ngeb, SFleb. destruct y as [s|s| |s m e]; simpl; try discriminate.
  - destruct s; [discriminate|]. now left.
  - destruct s; [discriminate|]. intros H. right. exists m, e.
    repeat split; [exact Hy|].
    change (match Z.compare ez e with
            | Eq => Pos.compare_cont Eq mz m | Lt => Lt | Gt => Gt end)
      with (match SFcompare (S754_finite false mz ez) (S754_finite false m e) with
            | Some c => c | None => Eq end) in H.
    rewrite (compare_pos mz ez m e Hbz Hy) in H.
    destruct (Z.compare_spec (pv mz ez) (pv m e)); try discriminate; lia.
Qed.

Lemma atLeast_ngeb (y : number) (z : Z) :
  atLeast y z -> 0 < z < 2 ^ 53 -> ngeb y (ofZ z) = true.
Proof.
  intros Hy Hz. destruct (ofZ_pv z Hz) as (mz & ez & -> & Hbz & Hvz & _).
  destruct Hy as [->|(m & e & -> & Hb & Hv)]; [reflexivity|].
  unfold ngeb, SFleb. rewrite (compare_pos mz ez m e Hbz Hb).
  destruct (Z.compare_spec (pv mz ez) (pv m e)); try reflexivity. lia.
Qed.

Lemma nmax_atLeast (y : number) (z : Z) :
  isDouble y -> y <> NaN -> 0 < z < 2 ^ 53 -> atLeast (nmax (ofZ z) y) z.
Proof.
  intros Hy Hnan Hz. pose proof (atLeast_ofZ z Hz) as Hself.
  destruct (ofZ_pv z Hz) as (mz & ez & Hof & Hbz & Hvz & _).
  rewrite Hof in *. unfold nmax.
  destruct y as [s|s| |s m e].
  - exact Hself.
  - destruct s; [exact Hself|now left].
  - now contradiction Hnan.
  - destruct s; [exact Hself|].
    rewrite (compare_pos mz ez m e Hbz Hy).
    destruct (Z.compare_spec (pv mz ez) (pv m e)); try exact Hself.
    right. exists m, e. repeat split; [exact Hy|lia].
Qed.

Lemma floor2_atLeast (y : number) (z : Z) :
  atLeast y z -> 0 < z -> 100 * z < 2 ^ 53 -> atLeast (floor2 y) z.
Proof.
  intros Hy Hz Hb. unfold floor2.
  apply div_atLeast; try lia.
  apply floor_atLeast; [|lia].
  now apply mul_atLeast.
Qed.

(** The truncation to two decimals of a number that is at least the whole
    number [z] is still at least [z]. *)
Lemma floor2_max_lower (y : number) (z : Z) :
  isDouble y -> y <> NaN -> 0 < z -> 100 * z < 2 ^ 53 ->
  ngeb (floor2 (nmax (ofZ z) y)) (ofZ z) = true.
Proof.
  intros Hy Hnan Hz Hb.
  apply atLeast_ngeb; [|lia].
  apply floor2_atLeast; try lia.
  apply nmax_atLeast; try assumption. lia.
Qed.

(** ** Results are doubles *)

Lemma binary_normalize_valid (m e : Z) (s : bool) :
  isDouble (binary_normalize prec emax m e s).
Proof.
  unfold isDouble, binary_normalize.
  destruct m; [reflexivity|apply binary_round_valid..].
Qed.

Lemma bra_not_nan (s : bool) (M E : Z) (l : location) :
  0 < M -> wide M E -> binary_round_aux prec emax s M E l <> NaN.
Proof.
  intros HM Hw. destruct (bra_spec s M E l HM Hw) as (M2 & _ & _ & _ & ->).
  unfold rounded.
  repeat match goal with |- context [if ?b then _ else _] => destruct b end;
    discriminate.
Qed.

Lemma binary_normalize_not_nan (m e : Z) (s : bool) :
  binary_normalize prec emax m e s <> NaN.
Proof.
  unfold binary_normalize. destruct m as [|p|p]; [discriminate| |].
  - destruct (binary_round_bra false p e) as [-> Hw].
    apply bra_not_nan; [|assumption]. pose proof (pow2_pos (Z.max 0 (e - fexp prec emax (Zpos (digits2_pos p) + e)))). nia.
  - destruct (binary_round_bra true p e) as [-> Hw].
    apply bra_not_nan; [|assumption]. pose proof (pow2_pos (Z.max 0 (e - fexp prec emax (Zpos (digits2_pos p) + e)))). nia.
Qed.

Lemma isFinite_double (x : number) : isFinite x = true -> isDouble x.
Proof. destruct x; simpl; try discriminate; intros H; try reflexivity. exact H. Qed.

Lemma nsub_finite (x y : number) :
  isFinite x = true -> isFinite y = true ->
  isDouble (nsub x y) /\ nsub x y <> NaN.
Proof.
  destruct x as [sx|sx| |sx mx ex], y as [sy|sy| |sy my ey]; simpl;
    try discriminate; intros Hx Hy.
  - destruct sx, sy; split; try reflexivity; discriminate.
  - split; [exact Hy|discriminate].
  - split; [exact Hx|discriminate].
  - split; [apply binary_normalize_valid|apply binary_normalize_not_nan].
Qed.

Lemma nadd_finite (x y : number) :
  isFinite x = true -> isFinite y = true ->
  isDouble (nadd x y) /\ nadd x y <> NaN.
Proof.
  destruct x as [sx|sx| |sx mx ex], y as [sy|sy| |sy my ey]; simpl;
    try discriminate; intros Hx Hy.
  - destruct sx, sy; split; try reflexivity; discriminate.
  - split; [exact Hy|discriminate].
  - split; [exact Hx|discriminate].
  - split; [apply binary_normalize_valid|apply binary_normalize_not_nan].
Qed.

(** ** Whole numbers are computed exactly *)

Lemma bra_true (M E : Z) (l : location) :
  binary_round_aux prec emax true M E l
  = SFopp (binary_round_aux prec emax false M E l).
Proof.
  unfold binary_round_aux.
  destruct (shr_fexp prec emax M E l) as [r e].
  destruct (shr_fexp prec emax _ e loc_Exact) as [r' e'].
  destruct (shr_m r'); try reflexivity.
  destruct (e' <=? emax - prec); reflexivity.
Qed.

Lemma binary_round_true (m : positive) (e : Z) :
  binary_round prec emax true m e = SFopp (binary_round prec emax false m e).
Proof.
  unfold binary_round. destruct (shl_align m e _) as [mz ez]. apply bra_true.
Qed.

Lemma ofZ_0 : ofZ 0 = S754_zero false.
Proof. reflexivity. Qed.

Lemma ofZ_opp (z : Z) : z <> 0 -> ofZ (- z) = SFopp (ofZ z).
Proof.
  intros Hz. destruct z as [|p|p]; [lia| |].
  - change (ofZ (- Zpos p)) with (binary_round prec emax true p 0).
    change (ofZ (Zpos p)) with (binary_round prec emax false p 0).
    apply binary_round_true.
  - change (ofZ (- Zneg p)) with (binary_round prec emax false p 0).
    change (ofZ (Zneg p)) with (binary_round prec emax true p 0).
    rewrite binary_round_true.
    destruct (binary_round prec emax false p 0) as [[]|[]| |[] ? ?]; reflexivity.
Qed.

(** The double of a whole number other than zero, below [2 ^ 53] in
    magnitude. *)
Lemma ofZ_rep (z : Z) :
  z <> 0 -> Z.abs z < 2 ^ 53 ->
  exists m e, ofZ z = S754_finite (z <? 0) m e
              /\ bounded prec emax m e = true
              /\ Zpos m = Z.abs z * 2 ^ (- e) /\ -52 <= e <= 0.
Proof.
  intros Hz Hb.
  destruct (ofZ_pos (Z.abs z) ltac:(lia)) as (m & Hm & Hv & Hbd).
  pose proof (digits_pos (Z.abs z) ltac:(lia)) as Hd0.
  assert (Hd : Zdigits2 (Z.abs z) <= 53).
  { destruct (Z.le_gt_cases (Zdigits2 (Z.abs z)) 53) as [|Hgt]; [assumption|].
    pose proof (digits_bounds (Z.abs z) ltac:(lia)) as [Hlo _].
    assert (2 ^ 53 <= 2 ^ (Zdigits2 (Z.abs z) - 1)) by (apply Z.pow_le_mono_r; lia). lia. }
  exists m, (Zdigits2 (Z.abs z) - 53). split; [|split; [assumption|split; [|lia]]].
  - destruct (Z.ltb_spec z 0) as [Hneg|Hpos].
    + replace z with (- Z.abs z) at 1 by lia.
      rewrite ofZ_opp, Hm by lia. reflexivity.
    + replace z with (Z.abs z) at 1 by lia. exact Hm.
  - rewrite Hv. f_equal. f_equal. lia.
Qed.

Lemma binary_normalize_int (S e z : Z) (szero : bool) :
  e <= 0 -> S = z * 2 ^ (- e) -> z <> 0 ->
  binary_normalize prec emax S e szero = ofZ z.
Proof.
  intros He HS Hz. pose proof (pow2_pos (- e) ltac:(lia)) as Hp.
  unfold ofZ, binary_normalize.
  destruct z as [|p|p]; try lia.
  - destruct S as [|q|q]; try nia.
    replace q with (Z.to_pos (Zpos p * 2 ^ (- e))) by (rewrite <- HS; reflexivity).
    replace e with (0 - - e) at 2 by lia.
    apply binary_round_shift. lia.
  - destruct S as [|q|q]; try nia.
    replace q with (Z.to_pos (Zpos p * 2 ^ (- e))).
    2:{ apply Pos2Z.inj. rewrite Z2Pos.id by lia. lia. }
    replace e with (0 - - e) at 2 by lia.
    apply binary_round_shift. lia.
Qed.



Lemma cond_Zopp_abs (z k : Z) : cond_Zopp (z <? 0) (Z.abs z * k) = z * k.
Proof. unfold cond_Zopp. destruct (Z.ltb_spec z 0); lia. Qed.




Lemma binary_round_int (s : bool) (m : positive) (e z : Z) :
  e <= 0 -> Zpos m = Z.abs z * 2 ^ (- e) -> s = (z <? 0) ->
  binary_round prec emax s m e = ofZ z.
Proof.
  intros He Hm ->. pose proof (pow2_pos (- e) ltac:(lia)) as Hp.
  assert (Hz : z <> 0) by (intros ->; simpl in Hm; lia).
  rewrite <- (binary_normalize_int (cond_Zopp (z <? 0) (Zpos m)) e z false He);
    [|rewrite Hm; apply cond_Zopp_abs|assumption].
  now destruct (z <? 0).
Qed.

Lemma bra_binary_round (s : bool) (m : positive) (e : Z) :
  wide (Zpos m) e ->
  binary_round_aux prec emax s (Zpos m) e loc_Exact = binary_round prec emax s m e.
Proof.
  intros Hw. destruct (binary_round_bra s m e) as [-> _].
  unfold wide in Hw. change (Zdigits2 (Zpos m)) with (Zpos (digits2_pos m)) in Hw.
  replace (Z.max 0 (e - fexp prec emax (Zpos (digits2_pos m) + e))) with 0 by lia.
  now rewrite Z.pow_0_r, Z.mul_1_r, Z.sub_0_r.
Qed.

Lemma rep_normal (m : positive) (e : Z) :
  bounded prec emax m e = true -> -52 <= e -> 2 ^ 52 <= Zpos m < 2 ^ 53.
Proof. intros Hb He. destruct (bounded_inv m e Hb) as (_ & ? & [|] & _); lia. Qed.

Lemma nmul_ofZ (a c : Z) :
  Z.abs a < 2 ^ 53 -> 0 < c < 2 ^ 53 -> nmul (ofZ a) (ofZ c) = ofZ (a * c).
Proof.
  intros Ha Hc.
  destruct (ofZ_rep c ltac:(lia) ltac:(lia)) as (mc & ec & Hoc & Hbc & Hmc & Hec).
  replace (c <? 0) with false in Hoc by (symmetry; apply Z.ltb_ge; lia).
  destruct (Z.eq_dec a 0) as [->|Ha0].
  { rewrite ofZ_0, Hoc. reflexivity. }
  destruct (ofZ_rep a Ha0 Ha) as (ma & ea & Hoa & Hba & Hma & Hea).
  rewrite Hoa, Hoc. unfold nmul, SFmul. rewrite xorb_false_r.
  pose proof (rep_normal ma ea Hba ltac:(lia)).
  pose proof (rep_normal mc ec Hbc ltac:(lia)).
  rewrite bra_binary_round by (apply wide_53; rewrite Pos2Z.inj_mul; nia).
  apply binary_round_int; [lia| |].
  - rewrite Pos2Z.inj_mul, Hma, Hmc, Z.abs_mul, Z.opp_add_distr, Z.pow_add_r by lia.
    rewrite (Z.abs_eq c) by lia. ring.
  - destruct (Z.ltb_spec a 0), (Z.ltb_spec (a * c) 0); try reflexivity; nia.
Qed.




Lemma rep_pv (z : Z) (m : positive) (e : Z) :
  Zpos m = Z.abs z * 2 ^ (- e) -> -52 <= e <= 0 -> pv m e = Z.abs z * 2 ^ 1074.
Proof.
  intros Hm He. unfold pv. rewrite Hm, <- Z.mul_assoc, <- Z.pow_add_r by lia.
  f_equal. f_equal. lia.
Qed.

Lemma compare_neg (m1 : positive) (e1 : Z) (m2 : positive) (e2 : Z) :
  SFcompare (S754_finite true m1 e1) (S754_finite true m2 e2)
  = option_map CompOpp
      (SFcompare (S754_finite false m1 e1) (S754_finite false m2 e2)).
Proof. unfold SFcompare. simpl option_map. now destruct (e1 ?= e2). Qed.

Lemma compare_scaled (a b k : Z) : 0 < k -> (a * k ?= b * k) = (a ?= b).
Proof.
  intros Hk. destruct (Z.compare_spec a b) as [->|H|H].
  - apply Z.compare_refl.
  - apply Z.compare_lt_iff. nia.
  - apply Z.compare_gt_iff. nia.
Qed.

Lemma compare_ofZ (a b : Z) :
  Z.abs a < 2 ^ 53 -> Z.abs b < 2 ^ 53 ->
  SFcompare (ofZ a) (ofZ b) = Some (a ?= b).
Proof.
  intros Ha Hb. pose proof (pow2_pos 1074 ltac:(lia)) as HT.
  destruct (Z.eq_dec a 0) as [->|Ha0].
  { rewrite ofZ_0. destruct (Z.eq_dec b 0) as [->|Hb0]; [reflexivity|].
    destruct (ofZ_rep b Hb0 Hb) as (m & e & -> & _).
    unfold SFcompare. f_equal. destruct (Z.ltb_spec b 0); symmetry;
      [apply Z.compare_gt_iff|apply Z.compare_lt_iff]; lia. }
  destruct (ofZ_rep a Ha0 Ha) as (ma & ea & -> & Hba & Hma & Hea).
  destruct (Z.eq_dec b 0) as [->|Hb0].
  { rewrite ofZ_0. unfold SFcompare. f_equal. destruct (Z.ltb_spec a 0); symmetry;
      [apply Z.compare_lt_iff|apply Z.compare_gt_iff]; lia. }
  destruct (ofZ_rep b Hb0 Hb) as (mb & eb & -> & Hbb & Hmb & Heb).
  pose proof (rep_pv a ma ea Hma Hea) as Hpa.
  pose proof (rep_pv b mb eb Hmb Heb) as Hpb.
  destruct (Z.ltb_spec a 0) as [Han|Hap], (Z.ltb_spec b 0) as [Hbn|Hbp].
  - rewrite compare_neg, (compare_pos ma ea mb eb Hba Hbb), Hpa, Hpb.
    simpl option_map. f_equal. rewrite compare_scaled by assumption.
    rewrite <- Z.compare_antisym.
    rewrite (Z.abs_neq a), (Z.abs_neq b) by lia. apply Z.compare_opp.
  - unfold SFcompare. f_equal. symmetry. apply Z.compare_lt_iff. lia.
  - unfold SFcompare. f_equal. symmetry. apply Z.compare_gt_iff. lia.
  - rewrite (compare_pos ma ea mb eb Hba Hbb), Hpa, Hpb.
    f_equal. rewrite compare_scaled by assumption.
    now rewrite (Z.abs_eq a), (Z.abs_eq b) by lia.
Qed.





Lemma ngeb_ofZ (a b : Z) :
  Z.abs a < 2 ^ 53 -> Z.abs b < 2 ^ 53 -> ngeb (ofZ a) (ofZ b) = (b <=? a).
Proof.
  intros Ha Hb. unfold ngeb, SFleb. rewrite compare_ofZ by assumption.
  unfold Z.leb. now destruct (b ?= a).
Qed.

(* ===================================================================== *)
(** ** Arrays: reading and writing in range *)
(* ===================================================================== *)

Lemma array_set_in_range (a : list number) (i : Z) (v : number) :
  0 <= i < len a -> array_set a i v = <[Z.to_nat i := v]> a.
Proof.
  intros [Hlo Hhi]. unfold array_set.
  destruct (Z.ltb_spec i 0) as [Hneg|_]; [lia|].
  destruct (Z.ltb_spec i (len a)) as [_|Hge]; [reflexivity|lia].
Qed.

Lemma len_array_set (a : list number) (i : Z) (v : number) :
  0 <= i < len a -> len (array_set a i v) = len a.
Proof.
  intros Hi. rewrite array_set_in_range by exact Hi.
  unfold len. now rewrite length_insert.
Qed.

Lemma array_set_lookup_ne (a : list number) (i : Z) (v : number) (j : nat) :
  0 <= i < len a -> j <> Z.to_nat i -> array_set a i v !! j = a !! j.
Proof.
  intros Hi Hj. rewrite array_set_in_range by exact Hi.
  apply list_lookup_insert_ne. congruence.
Qed.

Lemma array_get_set_eq (a : list number) (i : Z) (v : number) :
  0 <= i < len a -> array_get (array_set a i v) i = v.
Proof.
  intros Hi. rewrite array_set_in_range by exact Hi.
  unfold array_get. destruct (Z.ltb_spec i 0) as [Hneg|_]; [lia|].
  rewrite list_lookup_insert_eq; [reflexivity|]. unfold len in Hi. lia.
Qed.

Lemma array_get_set_ne (a : list number) (i k : Z) (v : number) :
  0 <= i < len a -> k <> i -> array_get (array_set a i v) k = array_get a k.
Proof.
  intros Hi Hk. unfold array_get.
  destruct (Z.ltb_spec k 0) as [_|Hk0]; [reflexivity|].
  rewrite array_set_lookup_ne; [reflexivity|exact Hi|lia].
Qed.

(** Case analysis on the range test that opens
    [calculateAdjacentWidthsByBorderPosition]. *)
Lemma range_test (i n : Z) :
  ((i <? 0) || (i >=? n) = true /\ (i < 0 \/ n <= i))
  \/ ((i <? 0) || (i >=? n) = false /\ 0 <= i < n).
Proof.
  destruct (Z.ltb_spec i 0), (Z.geb_spec i n); simpl; lia.
Qed.

Section ResizeFrame.

Variable numberToFixed : number -> number.

(** C10.  [calculateAdjacentWidthsByBorderPosition] returns as many widths as
    it was given, whatever the inputs; with [resizingIndex] negative or not
    below the number of columns it returns the widths it was given. *)
Theorem border_position_keeps_length
    (columnWidths : list number) (resizingIndex : Z) (mousePositionInTable : number)
    (cumulativeWidths : list number) (editor : IDomEditor) :
  length (calculateAdjacentWidthsByBorderPosition numberToFixed columnWidths
            resizingIndex mousePositionInTable cumulativeWidths editor)
  = length columnWidths
  /\ (resizingIndex < 0 \/ len columnWidths <= resizingIndex ->
      calculateAdjacentWidthsByBorderPosition numberToFixed columnWidths
        resizingIndex mousePositionInTable cumulativeWidths editor
      = columnWidths).
Proof.
  unfold calculateAdjacentWidthsByBorderPosition.
  destruct (range_test resizingIndex (len columnWidths)) as [[-> Hout]|[-> Hin]].
  - split; [reflexivity|intros _; reflexivity].
  - split; [|intros Hout; lia].
    assert (Hlen : forall a i v, 0 <= i < len a -> length (array_set a i v) = length a).
    { intros a i v Hi. pose proof (len_array_set a i v Hi) as E. unfold len in E. lia. }
    assert (Hlen1 : forall v, len (array_set columnWidths resizingIndex v)
                              = len columnWidths)
      by (intros v; now apply len_array_set).
    destruct (negb (isFullWidthActive editor)); [now apply Hlen|].
    destruct (nltb _ _); [now apply Hlen|].
    destruct (ngtb _ _).
    + destruct (Z.ltb_spec (resizingIndex + 1) (len columnWidths)).
      * rewrite Hlen by (rewrite Hlen1; lia). now apply Hlen.
      * destruct (Z.gtb_spec resizingIndex 0).
        -- rewrite Hlen by (rewrite Hlen1; lia). now apply Hlen.
        -- now apply Hlen.
    + destruct (Z.ltb_spec (resizingIndex + 1) (len columnWidths)).
      * rewrite Hlen by (rewrite Hlen1; lia). now apply Hlen.
      * destruct (Z.gtb_spec resizingIndex 0).
        -- rewrite Hlen by (rewrite Hlen1; lia). now apply Hlen.
        -- now apply Hlen.
Qed.

(** C9.  Outside full-width mode, with [resizingIndex] in range, every
    column other than the resized one keeps the width it had. *)
Theorem border_position_changes_one_column
    (columnWidths : list number) (resizingIndex : Z) (mousePositionInTable : number)
    (cumulativeWidths : list number) (editor : IDomEditor) (j : nat) :
  isFullWidthActive editor = false ->
  0 <= resizingIndex < len columnWidths ->
  j <> Z.to_nat resizingIndex ->
  calculateAdjacentWidthsByBorderPosition numberToFixed columnWidths
    resizingIndex mousePositionInTable cumulativeWidths editor !! j
  = columnWidths !! j.
Proof.
  intros Hoff Hin Hj. unfold calculateAdjacentWidthsByBorderPosition.
  destruct (range_test resizingIndex (len columnWidths)) as [[_ Hout]|[-> _]]; [lia|].
  rewrite Hoff. simpl. now apply array_set_lookup_ne.
Qed.

End ResizeFrame.

(* ===================================================================== *)
(** ** The full-width toggle *)
(* ===================================================================== *)

Lemma isActive_selected (editor : IDomEditor) :
  isFullWidthActive editor = true ->
  exists sel, selection editor = Some sel
              /\ getSelectedNodeByType editor "table" = Some (block editor)
              /\ width (block editor) = Some "100%"%string.
Proof.
  unfold isFullWidthActive, getSelectedNodeByType.
  destruct (selection editor) as [sel|]; [|discriminate].
  destruct (type (block editor)) as [ty|]; [|discriminate].
  destruct (String.eqb ty "table"); [|discriminate].
  destruct (width (block editor)) as [w|]; [|discriminate].
  intros H. apply String.eqb_eq in H. subst w. now exists sel.
Qed.

Lemma isDisabled_false (editor : IDomEditor) :
  TableAlwaysFullWidth.isDisabled editor = false ->
  exists sel, selection editor = Some sel /\ isCollapsed sel = true
              /\ getSelectedNodeByType editor "table" = Some (block editor).
Proof.
  unfold TableAlwaysFullWidth.isDisabled, getSelectedNodeByType.
  destruct (selection editor) as [sel|]; [|discriminate].
  destruct (isCollapsed sel) eqn:Hcol; simpl; [|discriminate].
  destruct (type (block editor)) as [ty|]; [|discriminate].
  destruct (String.eqb ty "table"); [|discriminate].
  intros _. exists sel. now rewrite Hcol.
Qed.

(** C6.  On a table that is full-width ([width === '100%']), [exec] returns
    normally and leaves every property of the node other than [width] as it
    was, [columnWidths] included; when the command is enabled, [width]
    becomes ['auto'], by one operation that sets [width] and nothing else. *)
Theorem exec_deactivation_sets_only_width (editor : IDomEditor) :
  isFullWidthActive editor = true ->
  exists editor',
    TableAlwaysFullWidth.exec editor = Done editor'
    /\ columnWidths (block editor') = columnWidths (block editor)
    /\ type (block editor') = type (block editor)
    /\ scrollWidth (block editor') = scrollWidth (block editor)
    /\ height (block editor') = height (block editor)
    /\ resizingIndex (block editor') = resizingIndex (block editor)
    /\ isResizing (block editor') = isResizing (block editor)
    /\ isHoverCellBorder (block editor') = isHoverCellBorder (block editor)
    /\ (TableAlwaysFullWidth.isDisabled editor = false ->
        width (block editor') = Some "auto"%string
        /\ operations editor'
           = operations editor
             ++ [{| type := None; width := Some "auto"%string;
                    columnWidths := None; scrollWidth := None; height := None;
                    resizingIndex := None; isResizing := None;
                    isHoverCellBorder := None |}]).
Proof.
  intros Hon. unfold TableAlwaysFullWidth.exec.
  destruct (TableAlwaysFullWidth.isDisabled editor) eqn:Hdis.
  - exists editor. repeat split; try reflexivity; discriminate.
  - unfold TableAlwaysFullWidth.isActive, TableAlwaysFullWidth.getValue.
    rewrite Hon. eexists. split; [reflexivity|].
    destruct (isActive_selected editor Hon) as (sel & Hsel & _).
    unfold setNodes. rewrite Hsel. simpl. repeat split; reflexivity.
Qed.

(** What [exec] does once every guard has been passed. *)
Lemma exec_activation
    (editor : IDomEditor) (widths : list number) (tableDom : TableDom)
    (containerElement : ContainerElement) (tableStyle : ComputedStyle)
    (otherTables : list ComputedStyle) :
  TableAlwaysFullWidth.isDisabled editor = false ->
  isFullWidthActive editor = false ->
  columnWidths (block editor) = Some widths ->
  widths <> [] ->
  domNode editor = Some tableDom ->
  tableContainer tableDom = Some containerElement ->
  tablesByTagName containerElement = tableStyle :: otherTables ->
  exists editor',
    TableAlwaysFullWidth.exec editor = Done editor'
    /\ width (block editor') = Some "100%"%string
    /\ columnWidths (block editor')
       = Some (newColumnWidths
                 (tableCurrentWidth containerElement tableStyle widths)
                 (containerWidth containerElement) widths).
Proof.
  intros Hen Hoff Hcols Hne Hdom Hcont Htabs.
  destruct (isDisabled_false editor Hen) as (sel & Hsel & _ & Hnode).
  unfold TableAlwaysFullWidth.exec.
  rewrite Hen. unfold TableAlwaysFullWidth.isActive, TableAlwaysFullWidth.getValue.
  rewrite Hoff, Hnode, Hcols, Hdom, Hcont. simpl default.
  destruct (Z.eqb_spec (len widths) 0) as [Hz|_].
  { destruct widths; [congruence|]. unfold len in Hz. simpl in Hz. lia. }
  rewrite Htabs. eexists. split; [reflexivity|].
  unfold setNodes. rewrite Hsel. simpl. split; reflexivity.
Qed.

(** C4, as the code has it.  [exec] returns normally and leaves the editor
    as it is when there is no selection, the selection is not collapsed, or
    no table node is selected; and, for a table that is not full-width, when
    the [.table-container] is absent, [columnWidths] is empty or the
    container holds no table element.  [handleCellBorderVisible] leaves
    everything as it is when the editor is disabled, and while a selection or
    a resize gesture is under way. *)
Theorem missing_context_is_a_noop :
  (forall editor : IDomEditor,
      selection editor = None
      \/ (exists sel, selection editor = Some sel /\ isCollapsed sel = false)
      \/ getSelectedNodeByType editor "table" = None
      \/ (isFullWidthActive editor = false
          /\ exists tableDom,
               domNode editor = Some tableDom
               /\ (tableContainer tableDom = None
                   \/ default [] (columnWidths (block editor)) = []
                   \/ exists containerElement,
                        tableContainer tableDom = Some containerElement
                        /\ tablesByTagName containerElement = [])) ->
      TableAlwaysFullWidth.exec editor = Done editor)
  /\ (forall (id : nat) (elemNode : TableElement) (e : MouseEvent)
             (scrollWidth : number) (w : World),
        disabled (editors w id) = true
        \/ isSelectionOperation w = true
        \/ isMouseDownForResize w = true ->
        handleCellBorderVisible id elemNode e scrollWidth w = w).
Proof.
  split.
  - intros editor Hmiss. unfold TableAlwaysFullWidth.exec.
    destruct (TableAlwaysFullWidth.isDisabled editor) eqn:Hdis; [reflexivity|].
    destruct (isDisabled_false editor Hdis) as (sel & Hsel & Hcol & Hnode).
    destruct Hmiss as [Hnone|[(sel' & Hsel' & Hcol')|[Hno|(Hoff & tableDom & Hdom & Hdomless)]]].
    + congruence.
    + rewrite Hsel in Hsel'. injection Hsel' as <-. congruence.
    + congruence.
    + unfold TableAlwaysFullWidth.isActive, TableAlwaysFullWidth.getValue.
      rewrite Hoff, Hnode, Hdom.
      destruct (tableContainer tableDom) as [containerElement|] eqn:Hcont;
        [|reflexivity].
      destruct Hdomless as [Habs|[Hempty|(c & Hc & Htabs)]].
      * discriminate.
      * rewrite Hempty. reflexivity.
      * injection Hc as <-. rewrite Htabs.
        now destruct (len (default [] (columnWidths (block editor))) =? 0).
  - intros id elemNode e scrollWidth w Hmiss. unfold handleCellBorderVisible.
    destruct (disabled (editors w id)); [reflexivity|].
    destruct Hmiss as [Hd|[Hs|Hr]]; [discriminate| |].
    + now rewrite Hs.
    + rewrite Hr. now rewrite orb_true_r.
Qed.

(* ===================================================================== *)
(** ** The drag gesture *)
(* ===================================================================== *)

(** C7.  Whatever the state, after [onMouseUp] no gesture is under way:
    both flags are false, no editor is recorded, the cursor style of the
    document body is back to the empty string, and the two listeners are
    unbound. *)
Theorem onMouseUp_clears_gesture (w : World) :
  isSelectionOperation (onMouseUp w) = false
  /\ isMouseDownForResize (onMouseUp w) = false
  /\ editorWhenMouseDown (onMouseUp w) = None
  /\ bodyCursor (onMouseUp w) = ""%string
  /\ mousemoveBound (onMouseUp w) = false
  /\ mouseupBound (onMouseUp w) = false.
Proof. repeat split. Qed.

Section Gesture.

Variable numberToFixed : number -> number.

Lemma insideDrag_snoc (start : World) (evs : list Event) (ev : Event) :
  insideDrag numberToFixed start evs -> isMouseUp ev = false ->
  insideDrag numberToFixed start (evs ++ [ev]).
Proof.
  intros (before & elem & x & since & -> & Hres & Hed & Hno) Hev.
  exists before, elem, x, (since ++ [ev]). repeat split; try assumption.
  - now rewrite <- app_assoc.
  - apply Forall_app. split; [assumption|]. now constructor.
Qed.

Lemma run_snoc (start : World) (evs : list Event) (ev : Event) :
  run numberToFixed start (evs ++ [ev])
  = dispatch numberToFixed (run numberToFixed start evs) ev.
Proof. unfold run. now rewrite fold_left_app. Qed.

(** No handler but the two mouse handlers touches the resize flag or the
    mouse-up listener. *)
Lemma dispatch_keeps_flag (w : World) (ev : Event) :
  match ev with EvMouseDown _ _ | EvMouseUp => False | _ => True end ->
  isMouseDownForResize (dispatch numberToFixed w ev) = isMouseDownForResize w
  /\ mouseupBound (dispatch numberToFixed w ev) = mouseupBound w.
Proof.
  destruct ev; intros Hev; try contradiction; simpl.
  - unfold onMouseMove. repeat case_match; split; reflexivity.
  - unfold handleCellBorderVisible. repeat case_match; split; reflexivity.
  - unfold handleCellBorderHighlight. repeat case_match; split; reflexivity.
  - unfold handleCellBorderMouseDown.
    destruct (isMouseDownForResize w) eqn:E; split; simpl; congruence.
  - split; reflexivity.
  - split; reflexivity.
  - split; reflexivity.
Qed.

(** While the resize flag is set, the mouse-up listener is bound and the
    run so far ends inside a resize gesture. *)
Lemma resize_flag_inside_drag (editors0 : nat -> IDomEditor) (evs : list Event) :
  isMouseDownForResize (run numberToFixed (initialWorld editors0) evs) = true ->
  mouseupBound (run numberToFixed (initialWorld editors0) evs) = true
  /\ insideDrag numberToFixed (initialWorld editors0) evs.
Proof.
  induction evs as [|ev evs IH] using rev_ind; [discriminate|].
  rewrite run_snoc.
  set (w := run numberToFixed (initialWorld editors0) evs) in *.
  destruct ev.
  all: try (match goal with
            | |- isMouseDownForResize (dispatch _ _ ?ev) = true -> _ =>
                intros Hflag;
                destruct (dispatch_keeps_flag w ev I) as [Ef Eb];
                rewrite Ef in Hflag; rewrite Eb;
                destruct (IH Hflag) as [Hb Hd];
                split; [exact Hb|now apply insideDrag_snoc]
            end).
  - (* mouse-down *)
    simpl. unfold onMouseDown.
    destruct (closestTableCell elem) eqn:Hcell.
    + simpl. intros Hflag. destruct (IH Hflag) as [_ Hd].
      split; [reflexivity|now apply insideDrag_snoc].
    + destruct (String.eqb (tagName elem) "DIV" && closestColumnResizerItem elem)
        eqn:Hres.
      * destruct (editorWhenMouseDown w) as [id|] eqn:Hed.
        -- simpl. intros _. split; [reflexivity|].
           exists evs, elem, clientX0, []. repeat split.
           ++ unfold onColumnResizer. now rewrite Hcell, Hres.
           ++ fold w. rewrite Hed. now eexists.
           ++ constructor.
        -- intros Hflag. destruct (IH Hflag) as [Hb Hd].
           split; [exact Hb|now apply insideDrag_snoc].
      * simpl. intros Hflag. destruct (IH Hflag) as [_ Hd].
        split; [reflexivity|now apply insideDrag_snoc].
  - (* mouse-up *)
    simpl. destruct (mouseupBound w) eqn:Hb; [discriminate|].
    intros Hflag. destruct (IH Hflag) as [Hb' _]. congruence.
Qed.

(** Outside a drag the mouse-move handler returns at once. *)
Lemma onMouseMove_idle (clientX : number) (w : World) :
  isMouseDownForResize w = false \/ editorWhenMouseDown w = None ->
  onMouseMove numberToFixed clientX w = Done w.
Proof.
  intros Hidle. unfold onMouseMove.
  destruct (isMouseDownForResize w); [|reflexivity].
  destruct Hidle as [Hflag|Hed]; [discriminate|]. now rewrite Hed.
Qed.

(** C5.  In every run of the module from its initial state, a run of the
    mouse-move handler that changes anything at all happens with
    [isMouseDownForResize] set and an editor recorded, after a mouse-down on
    a column resizer that found an editor recorded, and with no mouse-up
    since. *)
Theorem onMouseMove_commits_only_inside_drag
    (editors0 : nat -> IDomEditor) (evs : list Event) (clientX : number) :
  let w := run numberToFixed (initialWorld editors0) evs in
  state_of (onMouseMove numberToFixed clientX w) <> w ->
  isMouseDownForResize w = true
  /\ is_Some (editorWhenMouseDown w)
  /\ insideDrag numberToFixed (initialWorld editors0) evs.
Proof.
  intros w Hchange.
  assert (Hflag : isMouseDownForResize w = true).
  { destruct (isMouseDownForResize w) eqn:E; [reflexivity|].
    exfalso. apply Hchange. rewrite onMouseMove_idle; [reflexivity|now left]. }
  assert (Hed : is_Some (editorWhenMouseDown w)).
  { destruct (editorWhenMouseDown w) as [id|] eqn:E; [now eexists|].
    exfalso. apply Hchange. rewrite onMouseMove_idle; [reflexivity|now right]. }
  repeat split; try assumption.
  now apply resize_flag_inside_drag.
Qed.

End Gesture.

(* ===================================================================== *)
(** ** The resized column and the minimal width *)
(* ===================================================================== *)

Lemma array_get_finite (a : list number) (i : Z) :
  Forall (fun w => isFinite w = true) a -> 0 <= i < len a ->
  isFinite (array_get a i) = true.
Proof.
  intros Ha Hi. unfold array_get, len in *.
  destruct (Z.ltb_spec i 0); [lia|].
  destruct (a !! Z.to_nat i) as [w|] eqn:Hw.
  - simpl. exact (Forall_lookup_1 _ _ _ _ Ha Hw).
  - apply lookup_ge_None in Hw. lia.
Qed.

Lemma leftBoundary_finite (i : Z) (borders : list number) :
  Forall (fun b => isFinite b = true) borders -> 0 <= i <= len borders ->
  isFinite (leftBoundary i borders) = true.
Proof.
  intros Hb Hi. unfold leftBoundary.
  destruct (Z.eqb_spec i 0); [reflexivity|].
  apply array_get_finite; [assumption|lia].
Qed.

Lemma atLeast_double (x : number) (z : Z) : atLeast x z -> isDouble x /\ x <> NaN.
Proof.
  intros [->|(m & e & -> & Hb & _)]; (split; [|discriminate]); [reflexivity|exact Hb].
Qed.

Section ResizeWidths.

Variable numberToFixed : number -> number.

(** With [resizingIndex] in range, the resized column ends up with the
    adjusted width, truncated to two decimals and passed through
    [numberToFixed], in both modes. *)
Lemma resized_entry (columnWidths : list number) (resizingIndex : Z)
    (mousePositionInTable : number) (cumulativeWidths : list number)
    (editor : IDomEditor) :
  0 <= resizingIndex < len columnWidths ->
  array_get (calculateAdjacentWidthsByBorderPosition numberToFixed columnWidths
               resizingIndex mousePositionInTable cumulativeWidths editor)
            resizingIndex
  = numberToFixed
      (floor2 (adjustedWidth editor resizingIndex mousePositionInTable
                             cumulativeWidths)).
Proof.
  intros Hin. unfold calculateAdjacentWidthsByBorderPosition.
  destruct (range_test resizingIndex (len columnWidths)) as [[_ Hout]|[-> _]]; [lia|].
  assert (Hlen1 : forall v, len (array_set columnWidths resizingIndex v)
                            = len columnWidths)
    by (intros v; now apply len_array_set).
  destruct (negb (isFullWidthActive editor)); [now apply array_get_set_eq|].
  destruct (nltb _ _); [now apply array_get_set_eq|].
  destruct (ngtb _ _).
  - destruct (Z.ltb_spec (resizingIndex + 1) (len columnWidths)).
    + rewrite array_get_set_ne by (rewrite ?Hlen1; lia). now apply array_get_set_eq.
    + destruct (Z.gtb_spec resizingIndex 0).
      * rewrite array_get_set_ne by (rewrite ?Hlen1; lia).
        now apply array_get_set_eq.
      * now apply array_get_set_eq.
  - destruct (Z.ltb_spec (resizingIndex + 1) (len columnWidths)).
    + rewrite array_get_set_ne by (rewrite ?Hlen1; lia). now apply array_get_set_eq.
    + destruct (Z.gtb_spec resizingIndex 0).
      * rewrite array_get_set_ne by (rewrite ?Hlen1; lia).
        now apply array_get_set_eq.
      * now apply array_get_set_eq.
Qed.

(** The adjusted width is a positive number at least the minimum. *)
Lemma adjustedWidth_atLeast (editor : IDomEditor) (borders : list number)
    (resizingIndex minimum : Z) (mousePositionInTable : number) :
  minColumnWidth editor = ofZ minimum -> 0 < minimum < 2 ^ 53 ->
  Forall (fun b => isFinite b = true) borders ->
  isFinite mousePositionInTable = true ->
  0 <= resizingIndex <= len borders ->
  atLeast (adjustedWidth editor resizingIndex mousePositionInTable borders) minimum.
Proof.
  intros Hmin Hm Hb Hp Hi. unfold adjustedWidth. rewrite Hmin.
  destruct (nsub_finite mousePositionInTable (leftBoundary resizingIndex borders)
              Hp (leftBoundary_finite _ _ Hb Hi)) as [Hd Hn].
  now apply nmax_atLeast.
Qed.

(** C8, amended.  For finite widths, width change, mouse position and borders and an
    in-range [resizingIndex], the resized column comes out no narrower than
    the whole number [parseInt(minWidth) || 60], when that is between 1 and
    [2 ^ 46] and [numberToFixed] returns the truncated width as it is: from
    [calculateAdjacentWidths] and from both modes of
    [calculateAdjacentWidthsByBorderPosition]. *)
Theorem resized_column_not_below_minimum
    (editor : IDomEditor) (widths borders : list number)
    (resizingIndex minimum : Z) (widthChange mousePositionInTable : number) :
  minColumnWidth editor = ofZ minimum -> 0 < minimum <= 2 ^ 46 ->
  Forall (fun w => isFinite w = true) widths ->
  isFinite widthChange = true ->
  Forall (fun b => isFinite b = true) borders ->
  isFinite mousePositionInTable = true ->
  0 <= resizingIndex < len widths ->
  length borders = length widths ->
  let cut :=
    floor2 (adjustedWidth editor resizingIndex mousePositionInTable borders) in
  numberToFixed cut = cut ->
  ngeb (array_get (calculateAdjacentWidths widths resizingIndex widthChange editor)
                  resizingIndex)
       (minColumnWidth editor) = true
  /\ ngeb (array_get (calculateAdjacentWidthsByBorderPosition numberToFixed
                        widths resizingIndex mousePositionInTable borders editor)
                     resizingIndex)
          (minColumnWidth editor) = true.
Proof.
  intros Hmin Hm Hw Hc Hb Hp Hin Hlen cut Hkeep.
  assert (H53 : 2 ^ 46 * 100 < 2 ^ 53) by reflexivity.
  split.
  - unfold calculateAdjacentWidths.
    rewrite array_get_set_eq by exact Hin. rewrite Hmin.
    destruct (nadd_finite (array_get widths resizingIndex) widthChange
                (array_get_finite _ _ Hw Hin) Hc) as [Hd Hn].
    apply floor2_max_lower; try assumption; lia.
  - rewrite resized_entry by exact Hin. fold cut. rewrite Hkeep. unfold cut.
    rewrite Hmin. apply atLeast_ngeb; [|lia].
    apply floor2_atLeast; [|lia|lia].
    apply adjustedWidth_atLeast; try assumption; [lia|].
    unfold len in *. lia.
Qed.

End ResizeWidths.
(* ===================================================================== *)
(** ** Widths in whole numbers *)
(* ===================================================================== *)








Section ResizeTotal.

Variable numberToFixed : number -> number.


End ResizeTotal.
(* ===================================================================== *)
(** ** Exact values *)
(* ===================================================================== *)

Lemma Qpow2_nonneg (e : Z) : 0 <= e -> (2 ^ e == inject_Z (2 ^ e))%Q.
Proof. intros He. now rewrite Zpower_Qpower. Qed.

Lemma Qpow2_neg (e : Z) : e < 0 -> (2 ^ e == 1 / inject_Z (2 ^ (- e)))%Q.
Proof.
  intros He. replace e with (- - e) at 1 by lia.
  rewrite Qpower_opp, Qpow2_nonneg by lia. unfold Qdiv. now rewrite Qmult_1_l.
Qed.

Lemma Qpow2_pos (e : Z) : (0 < 2 ^ e)%Q.
Proof. apply Qpower_0_lt. reflexivity. Qed.


(** The digits of [toFixed(2)] are the nearest whole number of hundredths. *)
Lemma fixedInteger_nearest (m : positive) (e : Z) :
  0 <= fixedInteger m e
  /\ (inject_Z (fixedInteger m e) - (1 # 2)
      <= 100 * (inject_Z (Zpos m) * 2 ^ e))%Q
  /\ (100 * (inject_Z (Zpos m) * 2 ^ e)
      < inject_Z (fixedInteger m e) + (1 # 2))%Q.
Proof.
  unfold fixedInteger. destruct (Z.leb_spec 0 e) as [He|He].
  - pose proof (pow2_pos e He) as Hp. split; [lia|].
    rewrite Qpow2_nonneg by assumption.
    rewrite <- inject_Z_mult.
    change 100%Q with (inject_Z 100). rewrite <- inject_Z_mult.
    replace (100 * (Zpos m * 2 ^ e)) with (100 * Zpos m * 2 ^ e) by lia.
    set (k := 100 * Zpos m * 2 ^ e).
    split; unfold Qle, Qlt, Qminus, Qplus, Qopp, inject_Z; simpl; lia.
  - pose proof (pow2_pos (- e) ltac:(lia)) as Hp.
    set (P := 2 ^ (- e)) in *.
    replace (2 ^ (1 - e)) with (2 * P)
      by (unfold P; rewrite <- Z.pow_succ_r by lia; f_equal; lia).
    pose proof (Z.div_mod (200 * Zpos m + P) (2 * P) ltac:(lia)) as Hdm.
    pose proof (Z.mod_pos_bound (200 * Zpos m + P) (2 * P) ltac:(lia)) as Hmb.
    set (k := (200 * Zpos m + P) / (2 * P)) in *.
    assert (Hk0 : 0 <= k) by (apply Z.div_pos; lia).
    split; [assumption|].
    rewrite Qpow2_neg by assumption. fold P.
    assert (HP : inject_Z P = Zpos (Z.to_pos P) # 1)
      by (unfold inject_Z; now rewrite Z2Pos.id).
    rewrite HP.
    split; unfold Qle, Qlt, Qdiv, Qmult, Qinv, Qplus, Qminus, Qopp, inject_Z;
      simpl; rewrite ?Pos2Z.inj_mul, ?Z2Pos.id by lia; nia.
Qed.


(* ===================================================================== *)
(** ** The conversion to full width *)
(* ===================================================================== *)

(* ===================================================================== *)
(** ** Doubles: how far rounding moves a value *)
(* ===================================================================== *)
Lemma Qpow2_add (a b : Z) : (2 ^ (a + b) == 2 ^ a * 2 ^ b)%Q.
Proof. apply Qpower_plus. discriminate. Qed.

Lemma Qpow2_ge_1 (k : Z) : 0 <= k -> (1 <= 2 ^ k)%Q.
Proof.
  intros Hk. rewrite Qpow2_nonneg by assumption.
  pose proof (pow2_pos k Hk). unfold Qle, inject_Z. simpl. lia.
Qed.

Lemma Qpow2_le (a b : Z) : a <= b -> (2 ^ a <= 2 ^ b)%Q.
Proof.
  intros Hab. replace b with (a + (b - a)) by lia. rewrite Qpow2_add.
  pose proof (Qpow2_pos a). pose proof (Qpow2_ge_1 (b - a) ltac:(lia)).
  nra.
Qed.

Lemma Qpow2_le_inv (a b : Z) : (2 ^ a <= 2 ^ b)%Q -> a <= b.
Proof.
  intros H. destruct (Z.le_gt_cases a b) as [|Hlt]; [assumption|exfalso].
  replace a with (b + 1 + (a - b - 1)) in H by lia.
  rewrite !Qpow2_add in H. change (2 ^ 1)%Q with 2%Q in H.
  pose proof (Qpow2_pos b). pose proof (Qpow2_ge_1 (a - b - 1) ltac:(lia)).
  nra.
Qed.

(** The value of what rounding returns. *)
Lemma rounded_value (M2 e1 : Z) :
  0 <= M2 <= 2 ^ 53 -> -1074 <= e1 <= 970 -> (e1 = -1074 \/ M2 = 0 \/ 2 ^ 52 <= M2) ->
  isFinite (rounded false M2 e1) = true
  /\ (rounded false M2 e1 = S754_zero false
      \/ exists m e, rounded false M2 e1 = S754_finite false m e)
  /\ (value (rounded false M2 e1) == inject_Z M2 * 2 ^ e1)%Q.
Proof.
  intros HM2 He1 Hn.
  destruct (Z.eq_dec M2 0) as [->|Hnz].
  { unfold rounded. simpl. split; [reflexivity|]. split; [now left|].
    now rewrite Qmult_0_l. }
  assert (Hv : valid_binary prec emax (rounded false M2 e1) = true).
  { apply rounded_valid; [lia|lia|]. destruct Hn as [|[|]]; [now left|lia|now right]. }
  unfold rounded in *.
  destruct (Z.eqb_spec M2 0); [lia|].
  destruct (Z.eqb_spec M2 (2 ^ 53)) as [->|].
  - destruct (Z.leb_spec (e1 + 1) 971); [|lia].
    split; [exact Hv|]. split; [right; eauto|].
    unfold value, cond_Zopp. rewrite Qpow2_add.
    change (Zpos (Z.to_pos (2 ^ 52))) with (2 ^ 52).
    change (2 ^ 1)%Q with 2%Q.
    change (2 ^ 53) with (2 ^ 52 * 2). rewrite inject_Z_mult.
    change (inject_Z 2) with 2%Q. ring.
  - destruct (Z.leb_spec e1 971); [|lia].
    split; [exact Hv|]. split; [right; eauto|].
    unfold value, cond_Zopp. rewrite Z2Pos.id by lia. reflexivity.
Qed.

(** Rounding a zero mantissa. *)
Lemma bra_zero (s : bool) (E : Z) (l : location) :
  wide 0 E ->
  exists M2, 0 <= M2 <= 1
             /\ binary_round_aux prec emax s 0 E l = rounded s M2 (-1074).
Proof.
  intros Hw. unfold wide in Hw. simpl Zdigits2 in Hw. rewrite fexp_eq in Hw.
  assert (HE : E <= -1074) by lia.
  assert (Hshr : exists rec, shr_fexp prec emax 0 E l = (rec, -1074) /\ shr_m rec = 0).
  { unfold shr_fexp. simpl Zdigits2. rewrite fexp_eq.
    replace (Z.max (0 + E - 53) (-1074)) with (-1074) by lia.
    unfold shr. destruct (-1074 - E) as [|p|p] eqn:Hn; try lia.
    - exists (shr_record_of_loc 0 l). split; [f_equal; lia|apply shr_record_of_loc_m].
    - exists (SpecFloat.iter_pos shr_1 p (shr_record_of_loc 0 l)).
      split; [f_equal; lia|].
      rewrite iter_pos_iter.
      destruct (shr_iter_m p (shr_record_of_loc 0 l)) as [_ ->];
        rewrite shr_record_of_loc_m; [lia|reflexivity]. }
  destruct Hshr as (rec & Hshr & Hm).
  exists (round_nearest_even (shr_m rec) (loc_of_shr_record rec)).
  pose proof (round_nearest_even_range (shr_m rec) (loc_of_shr_record rec)) as Hr.
  rewrite Hm in *. split; [lia|].
  unfold binary_round_aux. rewrite Hshr, Hm.
  apply finish_spec; lia.
Qed.

(** Rounding moves a value by at most one unit in the last place. *)
Lemma bra_near (M E : Z) (l : location) (x : Q) :
  0 <= M -> wide M E ->
  (inject_Z M * 2 ^ E <= x)%Q -> (x <= inject_Z (M + 1) * 2 ^ E)%Q ->
  (x <= 2 ^ 1000)%Q ->
  let r := binary_round_aux prec emax false M E l in
  isFinite r = true
  /\ (r = S754_zero false \/ exists m e, r = S754_finite false m e)
  /\ (Qabs (value r - x) <= x * 2 ^ (-52) + 2 ^ (-1074))%Q.
Proof.
  intros HM Hw Hlo Hhi Hbig r. subst r.
  pose proof (Qpow2_pos E) as HpE.
  pose proof (Qpow2_pos (-52)) as Hu.
  pose proof (Qpow2_pos (-1074)) as Heta.
  assert (Hx0 : (0 <= x)%Q).
  { apply Qle_trans with (inject_Z M * 2 ^ E)%Q; [|assumption].
    apply Qmult_le_0_compat; [|now apply Qlt_le_weak].
    change 0%Q with (inject_Z 0). rewrite <- Zle_Qle. assumption. }
  assert (Hxu : (0 <= x * 2 ^ (-52))%Q)
    by (apply Qmult_le_0_compat; [assumption|now apply Qlt_le_weak]).
  destruct (Z.eq_dec M 0) as [->|HM0].
  - destruct (bra_zero false E l Hw) as (M2 & HM2 & ->).
    destruct (rounded_value M2 (-1074) ltac:(lia) ltac:(lia) ltac:(now left))
      as (Hfin & Hshape & Hval).
    split; [exact Hfin|]. split; [exact Hshape|].
    assert (HE : E <= -1074).
    { unfold wide in Hw. simpl Zdigits2 in Hw. rewrite fexp_eq in Hw. lia. }
    pose proof (Qpow2_le E (-1074) HE) as HEle.
    change (inject_Z (0 + 1)) with 1%Q in Hhi. change (inject_Z 0) with 0%Q in Hlo.
    rewrite Hval. apply Qabs_Qle_condition.
    assert (HM2' : (inject_Z M2 == 0 \/ inject_Z M2 == 1)%Q).
    { destruct (Z.eq_dec M2 0) as [->|]; [now left|right].
      replace M2 with 1 by lia. reflexivity. }
    destruct HM2' as [-> | ->]; split; nra.
  - assert (HMpos : 0 < M) by lia.
    destruct (bra_spec false M E l HMpos Hw) as (M2 & HloM & HhiM & _ & ->).
    destruct (bra_shape M E HMpos Hw) as (Hn & HM1 & Hnorm).
    set (e1 := fexp prec emax (Zdigits2 M + E)) in *.
    set (P := 2 ^ (e1 - E)) in *.
    set (M1 := M / P) in *.
    assert (HP : 0 < P) by (apply pow2_pos; lia).
    pose proof (Z.div_mod M P ltac:(lia)) as Hdm.
    pose proof (Z.mod_pos_bound M P HP) as Hmb.
    fold M1 in Hdm.
    (* no overflow *)
    pose proof (digits_bounds M HMpos) as [Hdlo _].
    pose proof (digits_pos M HMpos) as Hd0.
    assert (Hd : Zdigits2 M + E <= 1001).
    { assert (H1 : (2 ^ (Zdigits2 M - 1 + E) <= 2 ^ 1000)%Q).
      { rewrite Qpow2_add. rewrite (Qpow2_nonneg (Zdigits2 M - 1)) by lia.
        assert (inject_Z (2 ^ (Zdigits2 M - 1)) <= inject_Z M)%Q
          by (rewrite <- Zle_Qle; lia).
        nra. }
      apply Qpow2_le_inv in H1. lia. }
    assert (He1 : -1074 <= e1 <= 970) by (unfold e1; rewrite fexp_eq; lia).
    destruct (rounded_value M2 e1 ltac:(lia) He1
                ltac:(destruct Hnorm; [now left|right; right; lia]))
      as (Hfin & Hshape & Hval).
    split; [exact Hfin|]. split; [exact Hshape|].
    rewrite Hval.
    set (U := (2 ^ e1)%Q).
    assert (HU : (U == inject_Z P * 2 ^ E)%Q).
    { unfold U, P. rewrite <- Qpow2_nonneg by lia. rewrite <- Qpow2_add.
      replace (e1 - E + E) with e1 by lia. reflexivity. }
    assert (HUpos : (0 < U)%Q) by apply Qpow2_pos.
    assert (Hx1 : (inject_Z M1 * U <= x)%Q).
    { rewrite HU. rewrite Qmult_assoc, <- inject_Z_mult.
      assert (inject_Z (M1 * P) <= inject_Z M)%Q by (rewrite <- Zle_Qle; lia).
      nra. }
    assert (Hx2 : (x <= (inject_Z M1 + 1) * U)%Q).
    { rewrite HU. change 1%Q with (inject_Z 1). rewrite <- inject_Z_plus.
      rewrite Qmult_assoc, <- inject_Z_mult.
      assert (inject_Z (M + 1) <= inject_Z ((M1 + 1) * P))%Q by (rewrite <- Zle_Qle; lia).
      nra. }
    assert (HUsmall : (U <= x * 2 ^ (-52) + 2 ^ (-1074))%Q).
    { destruct Hnorm as [Hsub|Hnorm].
      - unfold U. rewrite Hsub.
        set (eta := (2 ^ (-1074))%Q) in *. set (xu := (x * 2 ^ (-52))%Q) in *. lra.
      - assert (H52 : (inject_Z (2 ^ 52) <= inject_Z M1)%Q) by (rewrite <- Zle_Qle; lia).
        rewrite <- Qpow2_nonneg in H52 by lia.
        assert (H0 : (2 ^ 52 * 2 ^ (-52) == 1)%Q) by (rewrite <- Qpow2_add; reflexivity).
        set (a := (2 ^ 52)%Q) in *. set (u := (2 ^ (-52))%Q) in *.
        assert (a * U <= x)%Q.
        { apply Qle_trans with (inject_Z M1 * U)%Q; [|assumption].
          apply Qmult_le_compat_r; [assumption|now apply Qlt_le_weak]. }
        assert (a * U * u <= x * u)%Q
          by (apply Qmult_le_compat_r; [assumption|now apply Qlt_le_weak]).
        assert (a * U * u == U)%Q by (rewrite <- Qmult_assoc, (Qmult_comm U u), Qmult_assoc, H0; ring).
        lra. }
    apply Qabs_Qle_condition.
    assert (HM2' : (inject_Z M2 == inject_Z M1 \/ inject_Z M2 == inject_Z M1 + 1)%Q).
    { destruct (Z.eq_dec M2 M1) as [->|]; [now left|right].
      replace M2 with (M1 + 1) by lia. rewrite inject_Z_plus. reflexivity. }
    destruct HM2' as [-> | ->]; split; nra.
Qed.

Lemma digits_pow2 (N : Z) : 0 <= N -> Zdigits2 (2 ^ N) = N + 1.
Proof.
  intros HN. pose proof (pow2_pos N HN).
  apply digits_unique; [|assumption].
  replace (N + 1 - 1) with N by lia. split; [lia|].
  rewrite Z.pow_add_r by lia. lia.
Qed.

(** The integer quotient the division starts from, and its scale. *)
Lemma div_core_spec (m1 m2 : positive) (e1 e2 : Z) :
  exists M E l,
    SFdiv_core_binary prec emax (Zpos m1) e1 (Zpos m2) e2 = (M, E, l)
    /\ 0 <= M /\ wide M E
    /\ (inject_Z M * 2 ^ E
        <= (inject_Z (Zpos m1) * 2 ^ e1) / (inject_Z (Zpos m2) * 2 ^ e2))%Q
    /\ ((inject_Z (Zpos m1) * 2 ^ e1) / (inject_Z (Zpos m2) * 2 ^ e2)
        <= inject_Z (M + 1) * 2 ^ E)%Q.
Proof.
  unfold SFdiv_core_binary.
  set (d1 := Zdigits2 (Zpos m1)). set (d2 := Zdigits2 (Zpos m2)).
  set (D := d1 + e1 - (d2 + e2)).
  set (e' := Z.min (fexp prec emax D) (e1 - e2)).
  set (s := e1 - e2 - e').
  assert (Hs : 0 <= s) by (unfold s, e'; lia).
  set (m' := match s with
             | 0 => Zpos m1 | Zpos _ => Z.shiftl (Zpos m1) s | Zneg _ => 0 end).
  assert (Hm' : m' = Zpos m1 * 2 ^ s).
  { unfold m'. destruct s as [|p|p] eqn:Hp; try lia.
    now rewrite Z.shiftl_mul_pow2. }
  clearbody m'.
  pose proof (pow2_pos s Hs) as H2s.
  pose proof (Z.div_eucl_eq m' (Zpos m2) ltac:(lia)) as Heucl.
  pose proof (Z.mod_pos_bound m' (Zpos m2) ltac:(lia)) as Hmod.
  unfold Z.modulo in Hmod.
  destruct (Z.div_eucl m' (Zpos m2)) as [q r].
  exists q, e', (new_location (Zpos m2) r).
  split; [reflexivity|].
  assert (Hq0 : 0 <= q) by nia.
  split; [exact Hq0|].
  pose proof (digits_bounds (Zpos m1) ltac:(lia)) as [Hlo1 Hhi1].
  pose proof (digits_bounds (Zpos m2) ltac:(lia)) as [Hlo2 Hhi2].
  pose proof (digits_pos (Zpos m1) ltac:(lia)) as Hd1.
  pose proof (digits_pos (Zpos m2) ltac:(lia)) as Hd2.
  fold d1 in Hlo1, Hhi1, Hd1. fold d2 in Hlo2, Hhi2, Hd2.
  assert (Hdm' : Zdigits2 m' = d1 + s) by (rewrite Hm'; apply digits_shift; lia).
  split.
  { unfold wide. rewrite fexp_eq.
    assert (He' : e' <= Z.max (D - 53) (-1074))
      by (unfold e'; rewrite fexp_eq; lia).
    destruct (Z.eq_dec q 0) as [->|Hqnz].
    - simpl Zdigits2.
      assert (Hlt : m' < Zpos m2) by lia.
      assert (Hle : Zdigits2 m' <= d2) by (apply digits_le; lia).
      unfold D, s in *. lia.
    - assert (Hqpos : 0 < q) by lia.
      pose proof (digits_pos q Hqpos) as Hdq.
      assert (Hdig : d1 + s - d2 <= Zdigits2 q).
      { destruct (Z.le_gt_cases (d1 + s - d2) 0) as [|Hgt]; [lia|].
        set (N := d1 + s - d2 - 1).
        assert (HN : 0 <= N) by (unfold N; lia).
        assert (H1 : 2 ^ N <= q).
        { pose proof (digits_bounds m' ltac:(nia)) as [Hlo' _].
          rewrite Hdm' in Hlo'.
          replace (d1 + s - 1) with (d2 + N) in Hlo' by (unfold N; lia).
          rewrite Z.pow_add_r in Hlo' by lia.
          pose proof (pow2_pos N HN).
          destruct (Z.le_gt_cases (2 ^ N) q) as [|Hlt]; [assumption|exfalso].
          assert (Zpos m2 * (q + 1) <= Zpos m2 * 2 ^ N)
            by (apply Z.mul_le_mono_nonneg_l; lia).
          assert (Zpos m2 * 2 ^ N < 2 ^ d2 * 2 ^ N)
            by (apply Z.mul_lt_mono_pos_r; lia).
          lia. }
        pose proof (digits_le (2 ^ N) q (pow2_pos N HN) H1) as H2.
        rewrite digits_pow2 in H2 by assumption. unfold N in H2. lia. }
      unfold D, s in *. lia. }
  assert (HB : (0 < inject_Z (Zpos m2) * 2 ^ e2)%Q).
  { apply Qmult_lt_0_compat; [reflexivity|apply Qpow2_pos]. }
  assert (HA : (inject_Z (Zpos m1) * 2 ^ e1
                == inject_Z m' * (2 ^ e' * 2 ^ e2))%Q).
  { rewrite Hm', inject_Z_mult, <- Qpow2_nonneg by assumption.
    rewrite <- Qpow2_add, <- Qmult_assoc, <- Qpow2_add.
    replace (s + (e' + e2)) with e1 by (unfold s; lia). reflexivity. }
  assert (Hpp : (0 < 2 ^ e' * 2 ^ e2)%Q)
    by (apply Qmult_lt_0_compat; apply Qpow2_pos).
  split.
  - apply Qle_shift_div_l; [exact HB|]. rewrite HA.
    assert (Hre : (inject_Z q * 2 ^ e' * (inject_Z (Zpos m2) * 2 ^ e2)
                   == inject_Z (q * Zpos m2) * (2 ^ e' * 2 ^ e2))%Q)
      by (rewrite inject_Z_mult; ring).
    rewrite Hre.
    apply Qmult_le_compat_r; [|now apply Qlt_le_weak].
    rewrite <- Zle_Qle. lia.
  - apply Qle_shift_div_r; [exact HB|]. rewrite HA.
    assert (Hre : (inject_Z (q + 1) * 2 ^ e' * (inject_Z (Zpos m2) * 2 ^ e2)
                   == inject_Z ((q + 1) * Zpos m2) * (2 ^ e' * 2 ^ e2))%Q)
      by (rewrite inject_Z_mult; ring).
    rewrite Hre.
    apply Qmult_le_compat_r; [|now apply Qlt_le_weak].
    rewrite <- Zle_Qle. lia.
Qed.

(** A quotient of positive numbers is off by at most one unit in the last
    place. *)
Lemma ndiv_near (mw : positive) (ew : Z) (mT : positive) (eT : Z) :
  (value (S754_finite false mw ew) / value (S754_finite false mT eT) <= 2 ^ 1000)%Q ->
  let r := ndiv (S754_finite false mw ew) (S754_finite false mT eT) in
  isFinite r = true
  /\ (r = S754_zero false \/ exists m e, r = S754_finite false m e)
  /\ (Qabs (value r
            - value (S754_finite false mw ew) / value (S754_finite false mT eT))
      <= value (S754_finite false mw ew) / value (S754_finite false mT eT)
         * 2 ^ (-52) + 2 ^ (-1074))%Q.
Proof.
  unfold value, cond_Zopp. intros Hbig.
  destruct (div_core_spec mw mT ew eT) as (M & E & l & Hcore & HM & Hw & Hlo & Hhi).
  unfold ndiv, SFdiv. rewrite Hcore. simpl xorb.
  now apply bra_near.
Qed.

(** The double a decimal numeral is read as is off by at most one unit in
    the last place. *)
Lemma ofRatio_near (k : Z) :
  0 <= k <= 2 ^ 900 ->
  let r := ofRatio false k 100 in
  isFinite r = true
  /\ (r = S754_zero false \/ exists m e, r = S754_finite false m e)
  /\ (Qabs (value r - inject_Z k / 100)
      <= inject_Z k / 100 * 2 ^ (-52) + 2 ^ (-1074))%Q.
Proof.
  intros Hk. unfold ofRatio.
  pose proof (Qpow2_pos (-1074)) as Heta.
  destruct k as [|p|p]; try lia.
  - split; [reflexivity|]. split; [now left|].
    simpl value. set (eta := (2 ^ (-1074))%Q) in *.
    assert (H1 : (0 - inject_Z 0 / 100 == 0)%Q) by reflexivity.
    assert (H2 : (inject_Z 0 / 100 * 2 ^ (-52) == 0)%Q) by reflexivity.
    rewrite H1, H2. clear H1 H2. clearbody eta.
    change (Qabs 0) with 0%Q. lra.
  - destruct (div_core_spec p 100 0 0) as (M & E & l & Hcore & HM & Hw & Hlo & Hhi).
    rewrite Hcore.
    assert (Hx : ((inject_Z (Zpos p) * 2 ^ 0) / (inject_Z (Zpos 100) * 2 ^ 0)
                  == inject_Z (Zpos p) / 100)%Q).
    { change (2 ^ 0)%Q with 1%Q. change (inject_Z (Zpos 100)) with 100%Q.
      now rewrite !Qmult_1_r. }
    rewrite Hx in Hlo, Hhi.
    apply bra_near; try assumption.
    apply Qle_shift_div_r; [reflexivity|].
    apply Qle_trans with (2 ^ 900)%Q.
    + rewrite (Qpow2_nonneg 900) by lia. rewrite <- Zle_Qle. lia.
    + apply Qle_trans with (2 ^ 1000 * 1)%Q;
        [rewrite Qmult_1_r; apply Qpow2_le; lia|].
      apply Qmult_le_l; [apply Qpow2_pos|]. discriminate.
Qed.

(** The exact value of a positive double, from its scaled value. *)
Lemma value_pv (m : positive) (e : Z) :
  -1074 <= e ->
  (value (S754_finite false m e) == inject_Z (pv m e) * 2 ^ (-1074))%Q.
Proof.
  intros He. unfold value, cond_Zopp, pv.
  rewrite inject_Z_mult, <- Qpow2_nonneg by lia.
  rewrite <- Qmult_assoc, <- Qpow2_add.
  replace (e + 1074 + -1074) with e by lia. reflexivity.
Qed.

Lemma value_ofZ (c : Z) :
  0 < c < 2 ^ 53 ->
  exists m e, ofZ c = S754_finite false m e /\ 2 ^ 52 <= Zpos m
              /\ (value (ofZ c) == inject_Z c)%Q.
Proof.
  intros Hc. destruct (ofZ_pv c Hc) as (m & e & Hof & Hb & Hv & He).
  destruct (bounded_inv m e Hb) as (_ & _ & Hn & _).
  exists m, e. split; [exact Hof|]. split; [lia|].
  rewrite Hof, value_pv by lia. rewrite Hv, inject_Z_mult.
  rewrite <- (Qpow2_nonneg 1074) by lia.
  rewrite <- Qmult_assoc, <- Qpow2_add. change (2 ^ (1074 + -1074))%Q with 1%Q.
  apply Qmult_1_r.
Qed.

(** A product with a whole number is off by at most one unit in the last
    place. *)
Lemma nmul_near (ms : positive) (es c : Z) :
  0 < c < 2 ^ 53 ->
  (value (S754_finite false ms es) <= 2 ^ 900)%Q ->
  let r := nmul (S754_finite false ms es) (ofZ c) in
  isFinite r = true
  /\ (r = S754_zero false \/ exists m e, r = S754_finite false m e)
  /\ (Qabs (value r - value (S754_finite false ms es) * inject_Z c)
      <= value (S754_finite false ms es) * inject_Z c * 2 ^ (-52) + 2 ^ (-1074))%Q.
Proof.
  intros Hc Hbig r. subst r.
  destruct (value_ofZ c Hc) as (mc & ec & Hof & Hmc & Hvc).
  rewrite Hof in *. clear Hof.
  unfold nmul, SFmul. simpl xorb.
  assert (Hx : (inject_Z (Zpos (ms * mc)) * 2 ^ (es + ec)
                == value (S754_finite false ms es) * value (S754_finite false mc ec))%Q).
  { unfold value, cond_Zopp. rewrite Pos2Z.inj_mul, inject_Z_mult, Qpow2_add. ring. }
  assert (Hvs : (0 <= value (S754_finite false ms es))%Q).
  { unfold value, cond_Zopp. apply Qmult_le_0_compat; [discriminate|].
    apply Qlt_le_weak, Qpow2_pos. }
  destruct (bra_near (Zpos (ms * mc)) (es + ec) loc_Exact
              (value (S754_finite false ms es) * value (S754_finite false mc ec)))
    as (Hfin & Hshape & Hnear).
  - lia.
  - apply wide_53. rewrite Pos2Z.inj_mul. nia.
  - rewrite Hx. apply Qle_refl.
  - rewrite <- Hx. apply Qmult_le_compat_r; [|apply Qlt_le_weak, Qpow2_pos].
    rewrite <- Zle_Qle. lia.
  - rewrite Hvc.
    apply Qle_trans with (2 ^ 900 * 2 ^ 53)%Q;
      [|rewrite <- Qpow2_add; apply Qpow2_le; lia].
    apply Qle_trans with (2 ^ 900 * inject_Z c)%Q.
    + apply Qmult_le_compat_r; [assumption|].
      change 0%Q with (inject_Z 0). rewrite <- Zle_Qle. lia.
    + apply Qmult_le_l; [apply Qpow2_pos|].
      rewrite (Qpow2_nonneg 53) by lia. rewrite <- Zle_Qle. lia.
  - split; [exact Hfin|]. split; [exact Hshape|].
    rewrite Hvc in Hnear. exact Hnear.
Qed.

Lemma unit_roundoff_small : (2 ^ (-52) <= 1 # 1000000)%Q.
Proof. vm_compute. discriminate. Qed.

Lemma smallest_double_small : (2 ^ (-1074) <= 1 # 1000000)%Q.
Proof.
  apply Qle_trans with (2 ^ (-52))%Q; [apply Qpow2_le; lia|apply unit_roundoff_small].
Qed.

(** [toFixed2] moves a small non-negative number by half a hundredth and a
    rounding. *)
Lemma toFixed2_near (q : number) :
  isFinite q = true ->
  (q = S754_zero false \/ exists m e, q = S754_finite false m e) ->
  (value q <= 2)%Q ->
  let r := toFixed2 q in
  isFinite r = true
  /\ (r = S754_zero false \/ exists m e, r = S754_finite false m e)
  /\ (Qabs (value r - value q) <= (1 # 200) + (4 # 1000000))%Q.
Proof.
  intros Hfin [->|(m & e & ->)] Hle r; subst r.
  { split; [reflexivity|]. split; [now left|]. vm_compute. discriminate. }
  unfold toFixed2.
  assert (Hcond : (0 <=? e) && (10 ^ 21 <=? Zpos m * 2 ^ e) = false).
  { destruct (Z.leb_spec 0 e) as [He|He]; [|reflexivity].
    apply Z.leb_gt. unfold value, cond_Zopp in Hle.
    rewrite Qpow2_nonneg, <- inject_Z_mult in Hle by assumption.
    change 2%Q with (inject_Z 2) in Hle. rewrite <- Zle_Qle in Hle. lia. }
  rewrite Hcond.
  destruct (fixedInteger_nearest m e) as (Hk0 & Hlo & Hhi).
  set (k := fixedInteger m e) in *.
  change (inject_Z (Zpos m) * 2 ^ e)%Q with (value (S754_finite false m e)) in Hlo, Hhi.
  set (v := value (S754_finite false m e)) in *.
  assert (Hv0 : (0 <= v)%Q).
  { unfold v, value, cond_Zopp. apply Qmult_le_0_compat; [discriminate|].
    apply Qlt_le_weak, Qpow2_pos. }
  assert (Hk201 : (inject_Z k <= 201)%Q) by lra.
  assert (Hk : k <= 201).
  { change 201%Q with (inject_Z 201) in Hk201. now rewrite <- Zle_Qle in Hk201. }
  destruct (ofRatio_near k ltac:(split; [lia|]; transitivity 201; [lia|]; now vm_compute))
    as (Hf & Hs & Hnear).
  split; [exact Hf|]. split; [exact Hs|].
  pose proof unit_roundoff_small as Hu. pose proof smallest_double_small as Heta.
  pose proof (Qpow2_pos (-52)) as Hu0. pose proof (Qpow2_pos (-1074)) as Heta0.
  set (u := (2 ^ (-52))%Q) in *. set (eta := (2 ^ (-1074))%Q) in *.
  set (vr := value (ofRatio false k 100)) in *.
  clearbody u eta vr v.
  assert (Hkq : (0 <= inject_Z k)%Q)
    by (change 0%Q with (inject_Z 0); rewrite <- Zle_Qle; assumption).
  set (kq := inject_Z k) in *. clearbody kq.
  apply Qabs_Qle_condition in Hnear. apply Qabs_Qle_condition.
  assert (Hkq0 : (0 <= kq / 100)%Q) by (apply Qle_shift_div_l; lra).
  assert (Hkq1 : (kq / 100 <= 201 / 100)%Q)
    by (apply Qle_shift_div_r; [reflexivity|]; field_simplify; lra).
  assert (Hkqv : (kq / 100 - (1 # 200) <= v /\ v <= kq / 100 + (1 # 200))%Q).
  { assert (H100 : (kq == 100 * (kq / 100))%Q) by (field; discriminate).
    set (t := (kq / 100)%Q) in *. clearbody t. lra. }
  assert (Hprod : (kq / 100 * u <= (201 / 100) * (1 # 1000000))%Q).
  { apply Qle_trans with (201 / 100 * u)%Q.
    - apply Qmult_le_compat_r; lra.
    - apply Qmult_le_l; [reflexivity|lra]. }
  assert (Hprod0 : (0 <= kq / 100 * u)%Q) by (apply Qmult_le_0_compat; lra).
  set (t := (kq / 100)%Q) in *. set (tu := (t * u)%Q) in *. clearbody tu t.
  assert (H201 : (201 / 100 * (1 # 1000000) <= 3 # 1000000)%Q) by (vm_compute; discriminate).
  lra.
Qed.

(** The accumulated error of one converted column. *)
Lemma share_error (c x1 vq vsh vr u eta : Q) :
  (1 <= c)%Q -> (0 <= x1 <= 1)%Q ->
  (0 <= u <= 1 # 1000000)%Q -> (0 <= eta <= 1 # 1000000)%Q ->
  (Qabs (vq - x1) <= x1 * u + eta)%Q ->
  (Qabs (vsh - vq) <= (1 # 200) + (4 # 1000000))%Q ->
  (Qabs (vr - vsh * c) <= vsh * c * u + eta)%Q ->
  (Qabs (vr - c * x1) <= c * (51 # 10000))%Q.
Proof.
  intros Hc Hx Hu Heta H1 H2 H3.
  apply Qabs_Qle_condition in H1. apply Qabs_Qle_condition in H2.
  apply Qabs_Qle_condition in H3. apply Qabs_Qle_condition.
  assert (Hxu : (0 <= x1 * u /\ x1 * u <= 1 # 1000000)%Q) by nra.
  set (xu := (x1 * u)%Q) in *. clearbody xu.
  assert (Hvq : (vq <= 2)%Q) by lra.
  assert (Hvsh : (-1 <= vsh <= 3)%Q) by lra.
  assert (Hsc : (- c <= vsh * c <= 3 * c)%Q) by nra.
  assert (Hscu : (- (c * (3 # 1000000)) <= vsh * c * u <= c * (3 # 1000000))%Q) by nra.
  set (scu := (vsh * c * u)%Q) in *. clearbody scu.
  assert (Hd2 : (- (c * ((1 # 200) + (4 # 1000000))) <= (vsh - vq) * c
                 <= c * ((1 # 200) + (4 # 1000000)))%Q) by nra.
  assert (Hd1 : (- (c * (2 # 1000000)) <= (vq - x1) * c <= c * (2 # 1000000))%Q) by nra.
  nra.
Qed.

Lemma value_finite_nonneg (s : bool) (m : positive) (e : Z) :
  (0 <= value (S754_finite s m e))%Q -> s = false.
Proof.
  destruct s; [|reflexivity]. unfold value, cond_Zopp. intros H. exfalso.
  pose proof (Qpow2_pos e) as Hp.
  assert (Hneg : (inject_Z (- Zpos m) * 2 ^ e < 0)%Q).
  { assert (Hre : (inject_Z (- Zpos m) * 2 ^ e == - (inject_Z (Zpos m) * 2 ^ e))%Q)
      by (rewrite inject_Z_opp; ring).
    rewrite Hre.
    assert (0 < inject_Z (Zpos m) * 2 ^ e)%Q
      by (apply Qmult_lt_0_compat; [reflexivity|assumption]).
    set (t := (inject_Z (Zpos m) * 2 ^ e)%Q) in *. clearbody t. lra. }
  set (t := (inject_Z (- Zpos m) * 2 ^ e)%Q) in *. clearbody t. lra.
Qed.

Lemma value_finite_pos (m : positive) (e : Z) : (0 < value (S754_finite false m e))%Q.
Proof.
  unfold value, cond_Zopp. apply Qmult_lt_0_compat; [reflexivity|apply Qpow2_pos].
Qed.

(** One converted column: its share of the current width is rounded to two
    decimals and multiplied by the available width, which leaves it within
    0.51% of the available width of its exact share. *)
Lemma converted_column (w : number) (mT : positive) (eT c : Z) :
  isFinite w = true -> (0 <= value w)%Q ->
  (value w <= value (S754_finite false mT eT))%Q ->
  0 <= c < 2 ^ 53 ->
  let r := nmul (toFixed2 (ndiv w (S754_finite false mT eT))) (ofZ c) in
  isFinite r = true
  /\ (Qabs (value r - inject_Z c * (value w / value (S754_finite false mT eT)))
      <= inject_Z c * (51 # 10000))%Q.
Proof.
  intros Hfin Hw0 HwT Hc r. subst r.
  pose proof (value_finite_pos mT eT) as HT.
  set (T := S754_finite false mT eT) in *.
  assert (Hcq : (0 <= inject_Z c)%Q)
    by (change 0%Q with (inject_Z 0); rewrite <- Zle_Qle; lia).
  assert (Hzero : forall s s' : bool,
            isFinite (nmul (S754_zero s) (ofZ c)) = true
            /\ value (nmul (S754_zero s) (ofZ c)) = 0%Q).
  { intros s s'. destruct (Z.eq_dec c 0) as [->|Hc0].
    - rewrite ofZ_0. split; reflexivity.
    - destruct (value_ofZ c ltac:(lia)) as (mc & ec & -> & _). split; reflexivity. }
  destruct w as [s|s| |s m e]; try discriminate.
  - (* a zero *)
    change (ndiv (S754_zero s) T) with (S754_zero (xorb s false)).
    change (toFixed2 (S754_zero (xorb s false))) with (S754_zero false).
    destruct (Hzero false false) as [Hf ->]. split; [exact Hf|].
    change (value (S754_zero s)) with 0%Q.
    assert (H0 : (0 - inject_Z c * (0 / value T) == 0)%Q)
      by (unfold Qdiv; rewrite Qmult_0_l; ring).
    rewrite H0. change (Qabs 0) with 0%Q.
    set (cq := inject_Z c) in *. clearbody cq. lra.
  - pose proof (value_finite_nonneg s m e Hw0) as ->.
    set (w := S754_finite false m e) in *.
    pose proof (value_finite_pos m e) as Hwpos. fold w in Hwpos.
    set (x1 := (value w / value T)%Q).
    assert (Hx1 : (0 <= x1 <= 1)%Q).
    { unfold x1. split.
      - apply Qle_shift_div_l; [exact HT|]. rewrite Qmult_0_l. now apply Qlt_le_weak.
      - apply Qle_shift_div_r; [exact HT|]. now rewrite Qmult_1_l. }
    pose proof unit_roundoff_small as Hu. pose proof smallest_double_small as Heta.
    pose proof (Qpow2_pos (-52)) as Hu0. pose proof (Qpow2_pos (-1074)) as Heta0.
    destruct (ndiv_near m e mT eT) as (Hqf & Hqs & Hqn).
    { fold w T x1. apply Qle_trans with 1%Q; [apply Hx1|]. apply Qpow2_ge_1. lia. }
    fold w T x1 in Hqf, Hqs, Hqn.
    set (q := ndiv w T) in *.
    assert (Hxu : (0 <= x1 * 2 ^ (-52) /\ x1 * 2 ^ (-52) <= 1 # 1000000)%Q).
    { split; [apply Qmult_le_0_compat; [apply Hx1|now apply Qlt_le_weak]|].
      apply Qle_trans with (1 * 2 ^ (-52))%Q;
        [apply Qmult_le_compat_r; [apply Hx1|now apply Qlt_le_weak]|].
      now rewrite Qmult_1_l. }
    assert (Hq2 : (value q <= 2)%Q).
    { apply Qabs_Qle_condition in Hqn.
      set (u := (2 ^ (-52))%Q) in *. set (eta := (2 ^ (-1074))%Q) in *.
      set (xu := (x1 * u)%Q) in *. set (vq := value q) in *.
      clearbody u eta xu vq x1. lra. }
    destruct (toFixed2_near q Hqf Hqs Hq2) as (Hsf & Hss & Hsn).
    set (sh := toFixed2 q) in *.
    assert (Hres : isFinite (nmul sh (ofZ c)) = true
                   /\ (1 <= inject_Z c ->
                       Qabs (value (nmul sh (ofZ c)) - value sh * inject_Z c)
                       <= value sh * inject_Z c * 2 ^ (-52) + 2 ^ (-1074))%Q
                   /\ (c = 0 -> value (nmul sh (ofZ c)) = 0%Q)).
    { destruct Hss as [Hsz|(ms & es & Hsm)]; rewrite Hsz || rewrite Hsm.
      - destruct (Hzero false false) as [Hf ->]. split; [exact Hf|].
        split; [|reflexivity]. intros _. change (value (S754_zero false)) with 0%Q.
        assert (H0 : (0 - 0 * inject_Z c == 0)%Q) by ring.
        assert (H1 : (0 * inject_Z c * 2 ^ (-52) == 0)%Q) by ring.
        rewrite H0, H1. change (Qabs 0) with 0%Q.
        set (eta := (2 ^ (-1074))%Q) in *. clearbody eta. lra.
      - destruct (Z.eq_dec c 0) as [->|Hc0].
        + rewrite ofZ_0. split; [reflexivity|]. split; [|reflexivity].
          intros H1. exfalso. revert H1. now vm_compute.
        + destruct (nmul_near ms es c ltac:(lia)) as (Hrf & _ & Hrn).
          { rewrite <- Hsm. apply Qabs_Qle_condition in Hsn.
            apply Qle_trans with 3%Q.
            - set (vs := value sh) in *. set (vq := value q) in *.
              clearbody vs vq. lra.
            - apply Qle_trans with (2 ^ 2)%Q; [now vm_compute|apply Qpow2_le; lia]. }
          split; [exact Hrf|]. split; [intros _; exact Hrn|intros; lia]. }
    destruct Hres as (Hrf & Hrn & Hr0).
    split; [exact Hrf|].
    destruct (Z.eq_dec c 0) as [Hc0|Hc0].
    + rewrite (Hr0 Hc0). subst c. change (inject_Z 0) with 0%Q.
      assert (H0 : (0 - 0 * x1 == 0)%Q) by ring.
      rewrite H0. now vm_compute.
    + assert (Hc1 : (1 <= inject_Z c)%Q)
        by (change 1%Q with (inject_Z 1); rewrite <- Zle_Qle; lia).
      specialize (Hrn Hc1).
      apply share_error with (vq := value q) (vsh := value sh)
                             (u := (2 ^ (-52))%Q) (eta := (2 ^ (-1074))%Q);
        try assumption.
      * split; [now apply Qlt_le_weak|assumption].
      * split; [now apply Qlt_le_weak|assumption].
Qed.

Lemma total_cons (w : number) (ws : list number) :
  total (w :: ws) = (value w + total ws)%Q.
Proof. reflexivity. Qed.

Lemma total_nonneg (ws : list number) :
  Forall (fun w => isFinite w = true /\ (0 <= value w)%Q) ws -> (0 <= total ws)%Q.
Proof.
  induction 1 as [|w ws [_ Hw] _ IH]; [apply Qle_refl|].
  rewrite total_cons. set (a := value w) in *. set (b := total ws) in *.
  clearbody a b. lra.
Qed.

(** A column is no wider than all the columns together. *)
Lemma value_le_total (ws : list number) :
  Forall (fun w => isFinite w = true /\ (0 <= value w)%Q) ws ->
  Forall (fun w => (value w <= total ws)%Q) ws.
Proof.
  induction 1 as [|w ws [Hf Hw] Hall IH]; [constructor|].
  pose proof (total_nonneg ws Hall) as Ht.
  constructor.
  - rewrite total_cons. set (a := value w) in *. set (b := total ws) in *.
    clearbody a b. lra.
  - eapply List.Forall_impl; [|exact IH]. intros x Hx. simpl in Hx.
    rewrite total_cons. set (a := value w) in *. set (b := total ws) in *.
    set (vx := value x) in *. clearbody a b vx. lra.
Qed.

(** The converted columns together. *)
Lemma converted_total (ws : list number) (mT : positive) (eT c : Z) :
  Forall (fun w => isFinite w = true /\ (0 <= value w)%Q
                   /\ (value w <= value (S754_finite false mT eT))%Q) ws ->
  0 <= c < 2 ^ 53 ->
  Forall (fun w => isFinite w = true)
         (newColumnWidths (S754_finite false mT eT) (ofZ c) ws)
  /\ (Qabs (total (newColumnWidths (S754_finite false mT eT) (ofZ c) ws)
            - inject_Z c * (total ws / value (S754_finite false mT eT)))
      <= inject_Z (len ws) * inject_Z c * (51 # 10000))%Q.
Proof.
  intros Hall Hc. set (T := S754_finite false mT eT) in *.
  induction Hall as [|w ws (Hf & Hw0 & HwT) Hall [IHf IHt]].
  - split; [constructor|].
    change (newColumnWidths T (ofZ c) []) with (@nil number).
    change (total []) with 0%Q. change (inject_Z (len [])) with 0%Q.
    assert (H0 : (0 - inject_Z c * (0 / value T) == 0)%Q)
      by (unfold Qdiv; rewrite Qmult_0_l; ring).
    assert (H1 : (0 * inject_Z c * (51 # 10000) == 0)%Q) by ring.
    rewrite H0, H1. now vm_compute.
  - destruct (converted_column w mT eT c Hf Hw0 HwT Hc) as [Hrf Hrn]. fold T in Hrf, Hrn.
    change (newColumnWidths T (ofZ c) (w :: ws))
      with (nmul (toFixed2 (ndiv w T)) (ofZ c) :: newColumnWidths T (ofZ c) ws).
    split; [constructor; assumption|].
    rewrite !total_cons.
    assert (Hlen : (inject_Z (len (w :: ws)) == inject_Z (len ws) + 1)%Q).
    { unfold len. rewrite length_cons, Nat2Z.inj_succ. unfold Z.succ.
      now rewrite inject_Z_plus. }
    rewrite Hlen.
    assert (Hsplit : (inject_Z c * ((value w + total ws) / value T)
                      == inject_Z c * (value w / value T)
                         + inject_Z c * (total ws / value T))%Q)
      by (unfold Qdiv; ring).
    rewrite Hsplit.
    apply Qabs_Qle_condition in Hrn. apply Qabs_Qle_condition in IHt.
    apply Qabs_Qle_condition.
    set (a := value (nmul (toFixed2 (ndiv w T)) (ofZ c))) in *.
    set (b := total (newColumnWidths T (ofZ c) ws)) in *.
    set (a' := (inject_Z c * (value w / value T))%Q) in *.
    set (b' := (inject_Z c * (total ws / value T))%Q) in *.
    set (n := inject_Z (len ws)) in *. set (cq := inject_Z c) in *.
    set (nc := (n * cq)%Q) in *.
    assert (Hexp : ((n + 1) * cq * (51 # 10000) == nc * (51 # 10000) + cq * (51 # 10000))%Q)
      by (unfold nc; ring).
    rewrite Hexp. clearbody a b a' b' nc cq. lra.
Qed.

(** The larger of a positive number and anything, when finite, is
    positive. *)
Lemma nmax_positive (ma : positive) (ea : Z) (b : number) :
  isFinite (nmax (S754_finite false ma ea) b) = true ->
  exists m e, nmax (S754_finite false ma ea) b = S754_finite false m e.
Proof.
  unfold nmax.
  destruct b as [[]|[]| |[] mb eb]; try (cbn; discriminate); try (cbn; eauto; fail).
  destruct (SFcompare (S754_finite false ma ea) (S754_finite false mb eb))
    as [[]|]; try discriminate; eauto.
Qed.

(** C3 (as amended).  On a table that is not full-width whose column widths
    are finite, not negative and add up to the current table width, with
    the container's available width a whole number of pixels: [exec] sets
    [width] to ['100%'] and produces finite column widths whose sum is the
    available width up to the rounding of the shares, that is, within 0.51%
    of the available width for every column. *)
Theorem exec_activation_fills_container_up_to_rounding
    (editor : IDomEditor) (widths : list number) (tableDom : TableDom)
    (containerElement : ContainerElement) (tableStyle : ComputedStyle)
    (otherTables : list ComputedStyle) (available : Z) :
  TableAlwaysFullWidth.isDisabled editor = false ->
  isFullWidthActive editor = false ->
  columnWidths (block editor) = Some widths ->
  widths <> [] ->
  domNode editor = Some tableDom ->
  tableContainer tableDom = Some containerElement ->
  tablesByTagName containerElement = tableStyle :: otherTables ->
  len widths < 2 ^ 32 ->
  Forall (fun w => isFinite w = true /\ (0 <= value w)%Q) widths ->
  isFinite (tableCurrentWidth containerElement tableStyle widths) = true ->
  (total widths == value (tableCurrentWidth containerElement tableStyle widths))%Q ->
  containerWidth containerElement = ofZ available ->
  0 <= available < 2 ^ 53 ->
  exists editor' widths',
    TableAlwaysFullWidth.exec editor = Done editor'
    /\ width (block editor') = Some "100%"%string
    /\ columnWidths (block editor') = Some widths'
    /\ Forall (fun w => isFinite w = true) widths'
    /\ (Qabs (total widths' - inject_Z available)
        <= inject_Z (len widths) * inject_Z available * (51 # 10000))%Q.
Proof.
  intros Hen Hoff Hcols Hne Hdom Hcont Htabs Hlen Hall Hfin Htotal Havail Hc.
  destruct (exec_activation editor widths tableDom containerElement tableStyle
              otherTables Hen Hoff Hcols Hne Hdom Hcont Htabs)
    as (editor' & Hexec & Hwidth & Hnew).
  exists editor', (newColumnWidths
                     (tableCurrentWidth containerElement tableStyle widths)
                     (containerWidth containerElement) widths).
  split; [exact Hexec|]. split; [exact Hwidth|]. split; [exact Hnew|].
  assert (Hn : 0 < len widths).
  { destruct widths; [congruence|]. unfold len. rewrite length_cons. lia. }
  assert (HT : exists mT eT,
             tableCurrentWidth containerElement tableStyle widths
             = S754_finite false mT eT).
  { revert Hfin. unfold tableCurrentWidth.
    rewrite nmul_ofZ by lia.
    destruct (ofZ_pos (len widths * 60) ltac:(lia)) as (ma & -> & _).
    apply nmax_positive. }
  destruct HT as (mT & eT & HT). rewrite HT in *. rewrite Havail.
  pose proof (value_finite_pos mT eT) as HTpos.
  assert (Hall' : Forall (fun w => isFinite w = true /\ (0 <= value w)%Q
                                   /\ (value w <= value (S754_finite false mT eT))%Q)
                         widths).
  { pose proof (value_le_total widths Hall) as Hle.
    apply Forall_forall. intros w Hw.
    rewrite Forall_forall in Hall. rewrite Forall_forall in Hle.
    destruct (Hall w Hw) as [Hf H0]. repeat split; try assumption.
    rewrite <- Htotal. now apply Hle. }
  destruct (converted_total widths mT eT available Hall' Hc) as [Hf Hnear].
  split; [exact Hf|].
  assert (Hone : (inject_Z available
                  * (total widths / value (S754_finite false mT eT))
                  == inject_Z available)%Q).
  { rewrite Htotal. field.
    intros H0. rewrite H0 in HTpos. now apply Qlt_irrefl in HTpos. }
  rewrite Hone in Hnear. exact Hnear.
Qed.
(* ===================================================================== *)
(** ** Further properties: the two list helpers *)
(* ===================================================================== *)

Lemma cumulate_length (columnWidths : list number) (totalWidth : number) :
  length (cumulate totalWidth columnWidths) = length columnWidths.
Proof.
  revert totalWidth. induction columnWidths as [|w ws IH]; intros t;
    [reflexivity|]. cbn [cumulate length]. now rewrite IH.
Qed.

(** The borders after a running total [t] are the totals of the prefixes,
    added up from the left starting at [t]. *)
Lemma cumulate_prefixes (columnWidths : list number) (t : number) :
  cumulate t columnWidths
  = map (fun i => fold_left nadd (take (S i) columnWidths) t)
        (seq 0 (length columnWidths)).
Proof.
  revert t. induction columnWidths as [|w ws IH]; intros t; [reflexivity|].
  cbn [cumulate length seq map]. f_equal.
  rewrite IH, <- seq_shift, map_map. reflexivity.
Qed.

(** X1.  [getCumulativeWidths] returns one border per column, and the border
    of column [i] is the sum of the widths of columns [0] to [i], added up
    from the left in the arithmetic of the code, as
    [reduce((x, y) => x + y, 0)] adds them. *)
Theorem cumulative_widths_are_running_totals (widths : list number) :
  length (getCumulativeWidths widths) = length widths
  /\ getCumulativeWidths widths
     = map (fun i => sum (take (S i) widths)) (seq 0 (length widths)).
Proof.
  unfold getCumulativeWidths. split.
  - apply cumulate_length.
  - apply cumulate_prefixes.
Qed.

(** X3.  When the widths add up to a zero in the arithmetic of the code, no
    share that [getColumnWidthRatios] returns is a finite number: each is
    [NaN] or an infinity. *)
Theorem column_width_ratios_of_zero_total (widths : list number) :
  truthy (sum widths) = false -> isNaN (sum widths) = false ->
  Forall (fun ratio => isFinite ratio = false) (getColumnWidthRatios widths).
Proof.
  intros Hz Hn. unfold getColumnWidthRatios.
  destruct (sum widths) as [s|s| |s m e]; try discriminate.
  clear Hz Hn.
  induction widths as [|w ws IH]; constructor; [|exact IH].
  destruct w as [sw|sw| |sw mw ew]; reflexivity.
Qed.
(* ===================================================================== *)
(** ** Further properties: the width recomputation *)
(* ===================================================================== *)

Lemma nmax_NaN_r (x : number) : nmax x NaN = NaN.
Proof. now destruct x. Qed.

(** X4.  [calculateAdjacentWidths] in its three regimes.  In range it keeps
    the number of columns and every column but the resized one.  With a
    negative [resizingIndex] (the [-1] a node without [resizingIndex] stands
    for) the elements it returns are the widths it was given.  Past the end
    it reads [undefined]: the array is extended up to that index, the entry
    written there is [NaN] and the given widths stay in front of it. *)
Theorem calculateAdjacentWidths_regimes
    (columnWidths : list number) (resizingIndex : Z) (widthChange : number)
    (editor : IDomEditor) :
  (0 <= resizingIndex < len columnWidths ->
   length (calculateAdjacentWidths columnWidths resizingIndex widthChange editor)
   = length columnWidths
   /\ forall j : nat,
        j <> Z.to_nat resizingIndex ->
        calculateAdjacentWidths columnWidths resizingIndex widthChange editor !! j
        = columnWidths !! j)
  /\ (resizingIndex < 0 ->
      calculateAdjacentWidths columnWidths resizingIndex widthChange editor
      = columnWidths)
  /\ (len columnWidths <= resizingIndex ->
      len (calculateAdjacentWidths columnWidths resizingIndex widthChange editor)
      = resizingIndex + 1
      /\ calculateAdjacentWidths columnWidths resizingIndex widthChange editor
           !! Z.to_nat resizingIndex
         = Some NaN
      /\ forall j : nat,
           (j < length columnWidths)%nat ->
           calculateAdjacentWidths columnWidths resizingIndex widthChange editor !! j
           = columnWidths !! j).
Proof.
  unfold calculateAdjacentWidths. split; [split|split].
  - pose proof (len_array_set columnWidths resizingIndex
                  (floor2 (nmax (minColumnWidth editor)
                             (nadd (array_get columnWidths resizingIndex) widthChange)))
                  H) as E.
    unfold len in E. lia.
  - intros j Hj. now apply array_set_lookup_ne.
  - intros Hneg. unfold array_set.
    destruct (Z.ltb_spec resizingIndex 0); [reflexivity|lia].
  - intros Hpast. unfold array_set, array_get.
    destruct (Z.ltb_spec resizingIndex 0) as [Hneg|_]; [unfold len in Hpast; lia|].
    destruct (Z.ltb_spec resizingIndex (len columnWidths)) as [Hlt|_]; [lia|].
    rewrite (lookup_ge_None_2 columnWidths (Z.to_nat resizingIndex))
      by (unfold len in Hpast; lia).
    simpl default. change (nadd NaN widthChange) with NaN.
    rewrite nmax_NaN_r. change (floor2 NaN) with NaN.
    unfold len in *. repeat split.
    + rewrite !length_app, length_replicate. simpl. lia.
    + rewrite lookup_app_r by lia.
      rewrite lookup_app_r by (rewrite length_replicate; lia).
      rewrite length_replicate.
      now replace (Z.to_nat resizingIndex - length columnWidths
                   - (Z.to_nat resizingIndex - length columnWidths))%nat with 0%nat
        by lia.
    + intros j Hj. now rewrite lookup_app_l.
Qed.

Lemma calculateAdjacentWidths_regimes_sample :
  len (calculateAdjacentWidths [ofZ 100] 2 (ofZ 10) evenColumns) = 2 + 1
  /\ calculateAdjacentWidths [ofZ 100] 2 (ofZ 10) evenColumns !! Z.to_nat 2
     = Some NaN
  /\ forall j : nat,
       (j < length [ofZ 100])%nat ->
       calculateAdjacentWidths [ofZ 100] 2 (ofZ 10) evenColumns !! j
       = [ofZ 100] !! j.
Proof.
  apply (calculateAdjacentWidths_regimes [ofZ 100] 2 (ofZ 10) evenColumns).
  unfold len. simpl. lia.
Defined.

Section ResizeMore.

Variable numberToFixed : number -> number.

(** X5.  In either mode, with [resizingIndex] in range,
    [calculateAdjacentWidthsByBorderPosition] leaves every column alone but
    the resized one and a single neighbour: the right one, or the left one
    when the resized column is the last. *)
Theorem border_position_touches_two_columns
    (columnWidths : list number) (resizingIndex : Z) (mousePositionInTable : number)
    (cumulativeWidths : list number) (editor : IDomEditor) (j : nat) :
  0 <= resizingIndex < len columnWidths ->
  let neighbour :=
    if resizingIndex + 1 <? len columnWidths
    then resizingIndex + 1 else resizingIndex - 1 in
  j <> Z.to_nat resizingIndex ->
  j <> Z.to_nat neighbour ->
  calculateAdjacentWidthsByBorderPosition numberToFixed columnWidths
    resizingIndex mousePositionInTable cumulativeWidths editor !! j
  = columnWidths !! j.
Proof.
  intros Hin neighbour Hj Hn. unfold calculateAdjacentWidthsByBorderPosition.
  destruct (range_test resizingIndex (len columnWidths)) as [[_ Hout]|[-> _]]; [lia|].
  assert (Hlen1 : forall v, len (array_set columnWidths resizingIndex v)
                            = len columnWidths)
    by (intros v; now apply len_array_set).
  assert (Hone : forall v, array_set columnWidths resizingIndex v !! j
                           = columnWidths !! j)
    by (intros v; now apply array_set_lookup_ne).
  subst neighbour.
  destruct (negb (isFullWidthActive editor)); [apply Hone|].
  destruct (nltb _ _); [apply Hone|].
  destruct (Z.ltb_spec (resizingIndex + 1) (len columnWidths)).
  - destruct (ngtb _ _);
      (rewrite array_set_lookup_ne; [apply Hone|rewrite Hlen1; lia|exact Hn]).
  - destruct (Z.gtb_spec resizingIndex 0).
    + destruct (ngtb _ _);
        (rewrite array_set_lookup_ne; [apply Hone|rewrite Hlen1; lia|exact Hn]).
    + destruct (ngtb _ _); apply Hone.
Qed.

End ResizeMore.

Lemma nsub_defined (x y : number) :
  isDouble x -> isDouble y -> x <> NaN -> y <> NaN ->
  isFinite x = true \/ isFinite y = true ->
  isDouble (nsub x y) /\ nsub x y <> NaN.
Proof.
  intros Hx Hy Hnx Hny Hf.
  destruct x as [sx|sx| |sx mx ex], y as [sy|sy| |sy my ey];
    try (now contradiction Hnx); try (now contradiction Hny);
    try (destruct Hf; discriminate); simpl.
  - destruct sx, sy; split; try reflexivity; discriminate.
  - split; [reflexivity|discriminate].
  - split; [exact Hy|discriminate].
  - split; [reflexivity|discriminate].
  - split; [reflexivity|discriminate].
  - split; [exact Hx|discriminate].
  - split; [reflexivity|discriminate].
  - split; [apply binary_normalize_valid|apply binary_normalize_not_nan].
Qed.

Section Compensation.

Variable numberToFixed : number -> number.

(** X6.  In full-width mode, for finite widths, borders and mouse position:
    when the code finds that the resized column has grown by 0.1 or more and
    there is a neighbour to take the width from, that neighbour does not
    come out narrower than the minimal column width (a whole number between
    1 and [2 ^ 46], [numberToFixed] returning the truncated width as it
    is). *)
Theorem compensated_neighbour_not_below_minimum
    (editor : IDomEditor) (widths borders : list number)
    (resizingIndex minimum : Z) (mousePositionInTable : number) :
  isFullWidthActive editor = true ->
  minColumnWidth editor = ofZ minimum -> 0 < minimum <= 2 ^ 46 ->
  Forall (fun w => isFinite w = true) widths ->
  Forall (fun b => isFinite b = true) borders ->
  isFinite mousePositionInTable = true ->
  0 <= resizingIndex < len widths ->
  length borders = length widths ->
  let neighbour :=
    if resizingIndex + 1 <? len widths
    then resizingIndex + 1 else resizingIndex - 1 in
  0 <= neighbour ->
  let widthChange :=
    nsub (adjustedWidth editor resizingIndex mousePositionInTable borders)
         (array_get widths resizingIndex) in
  nltb (nabs widthChange) tenth = false ->
  ngtb widthChange (ofZ 0) = true ->
  let cut :=
    floor2 (nmax (minColumnWidth editor)
                 (nsub (array_get widths neighbour) widthChange)) in
  numberToFixed cut = cut ->
  ngeb (array_get (calculateAdjacentWidthsByBorderPosition numberToFixed
                     widths resizingIndex mousePositionInTable borders editor)
                  neighbour)
       (minColumnWidth editor) = true.
Proof.
  intros Hfull Hmin Hm Hw Hb Hp Hin Hlen neighbour Hnb widthChange Hbig Hgrow
         cut Hkeep.
  assert (H53 : 2 ^ 46 * 100 < 2 ^ 53) by reflexivity.
  assert (Hnbin : 0 <= neighbour < len widths).
  { unfold neighbour in *.
    destruct (Z.ltb_spec (resizingIndex + 1) (len widths)); lia. }
  assert (Hentry : array_get (calculateAdjacentWidthsByBorderPosition numberToFixed
                     widths resizingIndex mousePositionInTable borders editor)
                     neighbour = numberToFixed cut).
  { unfold calculateAdjacentWidthsByBorderPosition.
    destruct (range_test resizingIndex (len widths)) as [[_ Hout]|[-> _]]; [lia|].
    rewrite Hfull. simpl negb. cbv iota. fold widthChange.
    rewrite Hbig, Hgrow.
    assert (Hlen1 : forall v, len (array_set widths resizingIndex v) = len widths)
      by (intros v; now apply len_array_set).
    unfold neighbour in *.
    destruct (Z.ltb_spec (resizingIndex + 1) (len widths)).
    - apply array_get_set_eq. rewrite Hlen1. lia.
    - destruct (Z.gtb_spec resizingIndex 0); [|lia].
      apply array_get_set_eq. rewrite Hlen1. lia. }
  rewrite Hentry, Hkeep. unfold cut. rewrite Hmin.
  pose proof (adjustedWidth_atLeast editor borders resizingIndex minimum
                mousePositionInTable Hmin ltac:(lia) Hb Hp
                ltac:(unfold len in *; lia)) as Hadj.
  destruct (atLeast_double _ _ Hadj) as [Hda Hna].
  pose proof (array_get_finite _ _ Hw Hin) as Hcur.
  pose proof (array_get_finite _ _ Hw Hnbin) as Hadjacent.
  destruct (nsub_defined _ _ Hda (isFinite_double _ Hcur) Hna
              ltac:(intros E; rewrite E in Hcur; discriminate)
              (or_intror Hcur)) as [Hdc Hnc].
  fold widthChange in Hdc, Hnc.
  destruct (nsub_defined _ _ (isFinite_double _ Hadjacent) Hdc
              ltac:(intros E; rewrite E in Hadjacent; discriminate) Hnc
              (or_introl Hadjacent)) as [Hdy Hny].
  apply floor2_max_lower; try assumption; lia.
Qed.

End Compensation.
Lemma total_insert (a : list number) (i : nat) (old new : number) :
  a !! i = Some old ->
  (total (<[i := new]> a) == total a - value old + value new)%Q.
Proof.
  revert i. induction a as [|w a IH]; intros [|i] H; simpl in *; try discriminate.
  - injection H as ->. ring.
  - rewrite (IH i H). ring.
Qed.

Section PlainDrag.

Variable numberToFixed : number -> number.

(** X7.  Outside full-width mode a drag replaces the resized column and
    nothing else, so the exact total of the widths changes by exactly the
    change of the resized column: the table grows or shrinks with it. *)
Theorem plain_drag_changes_total_by_the_column
    (editor : IDomEditor) (widths borders : list number) (resizingIndex : Z)
    (mousePositionInTable current : number) :
  isFullWidthActive editor = false ->
  0 <= resizingIndex < len widths ->
  widths !! Z.to_nat resizingIndex = Some current ->
  exists resized : number,
    array_get (calculateAdjacentWidthsByBorderPosition numberToFixed
                 widths resizingIndex mousePositionInTable borders editor)
              resizingIndex
    = resized
    /\ calculateAdjacentWidthsByBorderPosition numberToFixed
         widths resizingIndex mousePositionInTable borders editor
       = <[Z.to_nat resizingIndex := resized]> widths
    /\ (total (calculateAdjacentWidthsByBorderPosition numberToFixed
                 widths resizingIndex mousePositionInTable borders editor)
        == total widths - value current + value resized)%Q.
Proof.
  intros Hoff Hin Hcur.
  unfold calculateAdjacentWidthsByBorderPosition.
  destruct (range_test resizingIndex (len widths)) as [[_ Hout]|[-> _]]; [lia|].
  rewrite Hoff. simpl negb. cbv iota.
  set (resized := numberToFixed _).
  exists resized. rewrite array_get_set_eq by exact Hin.
  rewrite (array_set_in_range widths resizingIndex resized Hin).
  repeat split. now apply total_insert.
Qed.

End PlainDrag.
(* ===================================================================== *)
(** ** Further properties: the handlers *)
(* ===================================================================== *)

(** A [setNodes] that sets neither [width] nor [columnWidths] leaves both as
    they are. *)
Lemma setNodes_keeps_widths (editor : IDomEditor) (props : TableElement) :
  width props = None -> columnWidths props = None ->
  width (block (setNodes editor props)) = width (block editor)
  /\ columnWidths (block (setNodes editor props)) = columnWidths (block editor).
Proof.
  intros Hw Hc. unfold setNodes.
  destruct (selection editor); [|split; reflexivity].
  simpl. now rewrite Hw, Hc.
Qed.

Lemma with_editor_keeps_widths (w : World) (id other : nat) (props : TableElement) :
  width props = None -> columnWidths props = None ->
  width (block (editors (with_editor w id (setNodes (editors w id) props)) other))
  = width (block (editors w other))
  /\ columnWidths
       (block (editors (with_editor w id (setNodes (editors w id) props)) other))
     = columnWidths (block (editors w other)).
Proof.
  intros Hw Hc. simpl.
  destruct (decide (id = other)) as [->|Hne].
  - rewrite fn_lookup_insert. now apply setNodes_keeps_widths.
  - rewrite fn_lookup_insert_ne by exact Hne. split; reflexivity.
Qed.


(** X9.  The loop of [handleCellBorderVisible]: when it finds a border, that
    border is within 5px of the mouse (from 5px left of it, up to but not
    including 5px right of it) and no earlier border is; when it finds none,
    no border is. *)
Theorem findBorder_finds_the_first_border
    (position : number) (cumulativeWidths : list number) (start : Z) :
  match findBorder position cumulativeWidths start with
  | Some i =>
      exists (k : nat) (border : number),
        i = start + Z.of_nat k
        /\ cumulativeWidths !! k = Some border
        /\ nearBorder position border = true
        /\ forall (k' : nat) (earlier : number),
             (k' < k)%nat -> cumulativeWidths !! k' = Some earlier ->
             nearBorder position earlier = false
  | None =>
      forall (k : nat) (border : number),
        cumulativeWidths !! k = Some border -> nearBorder position border = false
  end.
Proof.
  revert start. induction cumulativeWidths as [|b rest IH]; intros start.
  - simpl. intros k border Hk. discriminate.
  - cbn [findBorder]. fold (nearBorder position b).
    destruct (nearBorder position b) eqn:Hb; cbv iota.
    + exists 0%nat, b. repeat split; [lia|exact Hb|]. intros k' earlier Hk'. lia.
    + specialize (IH (start + 1)).
      destruct (findBorder position rest (start + 1)) as [i|].
      * destruct IH as (k & border & Hi & Hk & Hnear & Hfirst).
        exists (S k), border. repeat split; [lia|exact Hk|exact Hnear|].
        intros [|k'] earlier Hlt Hlook.
        -- injection Hlook as <-. exact Hb.
        -- apply (Hfirst k' earlier); [lia|exact Hlook].
      * intros [|k] border Hlook.
        -- injection Hlook as <-. exact Hb.
        -- now apply (IH k border).
Qed.

Section HandlersMore.

Variable numberToFixed : number -> number.

(** As many widths come out of [calculateAdjacentWidthsByBorderPosition] as
    went in. *)
Lemma border_position_length
    (columnWidths : list number) (resizingIndex : Z) (mousePositionInTable : number)
    (cumulativeWidths : list number) (editor : IDomEditor) :
  length (calculateAdjacentWidthsByBorderPosition numberToFixed columnWidths
            resizingIndex mousePositionInTable cumulativeWidths editor)
  = length columnWidths.
Proof.
  unfold calculateAdjacentWidthsByBorderPosition.
  destruct (range_test resizingIndex (len columnWidths)) as [[-> _]|[-> Hin]];
    [reflexivity|].
  assert (Hlen : forall a i v, 0 <= i < len a -> length (array_set a i v) = length a).
  { intros a i v Hi. pose proof (len_array_set a i v Hi) as E. unfold len in E. lia. }
  assert (Hlen1 : forall v, len (array_set columnWidths resizingIndex v)
                            = len columnWidths)
    by (intros v; now apply len_array_set).
  destruct (negb (isFullWidthActive editor)); [now apply Hlen|].
  destruct (nltb _ _); [now apply Hlen|].
  destruct (Z.ltb_spec (resizingIndex + 1) (len columnWidths)).
  - destruct (ngtb _ _); (rewrite Hlen by (rewrite Hlen1; lia); now apply Hlen).
  - destruct (Z.gtb_spec resizingIndex 0).
    + destruct (ngtb _ _); (rewrite Hlen by (rewrite Hlen1; lia); now apply Hlen).
    + destruct (ngtb _ _); now apply Hlen.
Qed.

(** X10.  During a drag, with the selection in a table whose DOM node and
    [.table] element are found, one run of the mouse-move handler returns
    normally and commits exactly one operation, which sets [columnWidths]
    alone: the number of columns, the table's [width], the other editors and
    the gesture state stay as they are. *)
Theorem onMouseMove_commits_column_widths
    (w : World) (id : nat) (elemNode : TableElement) (tableDom : TableDom)
    (rectLeft clientX : number) :
  isMouseDownForResize w = true ->
  editorWhenMouseDown w = Some id ->
  getSelectedNodeByType (editors w id) "table" = Some elemNode ->
  domNode (editors w id) = Some tableDom ->
  tableRectLeft tableDom = Some rectLeft ->
  exists (widths' : list number) (w' : World),
    onMouseMove numberToFixed clientX w = Done w'
    /\ length widths' = length (default [] (columnWidths elemNode))
    /\ columnWidths (block (editors w' id)) = Some widths'
    /\ width (block (editors w' id)) = width (block (editors w id))
    /\ operations (editors w' id)
       = operations (editors w id) ++ [columnWidthsProps widths']
    /\ (forall other : nat, other <> id -> editors w' other = editors w other)
    /\ isMouseDownForResize w' = true
    /\ editorWhenMouseDown w' = Some id.
Proof.
  intros Hflag Hed Hnode Hdom Hrect. unfold onMouseMove.
  rewrite Hflag, Hed, Hnode, Hdom, Hrect. simpl negb. cbv iota.
  set (widths' :=
         calculateAdjacentWidthsByBorderPosition numberToFixed
           (default [] (columnWidths elemNode))
           (default (-1) (resizingIndex elemNode)) (nsub clientX rectLeft)
           (getCumulativeWidths (default [] (columnWidths elemNode)))
           (editors w id)).
  exists widths',
    (with_editor w id (setNodes (editors w id) (columnWidthsProps widths'))).
  split; [reflexivity|].
  assert (Hsel : exists sel, selection (editors w id) = Some sel).
  { unfold getSelectedNodeByType in Hnode.
    destruct (selection (editors w id)) as [sel|]; [now exists sel|discriminate]. }
  destruct Hsel as [sel Hsel].
  split; [apply border_position_length|].
  simpl. rewrite fn_lookup_insert. unfold setNodes. rewrite Hsel. simpl.
  repeat split; try assumption.
  intros other Hne. apply fn_lookup_insert_ne. congruence.
Qed.

(** X12.  Column widths and the table's [width] change only through a drag
    commit, the full-width toggle or the host: every other event leaves both
    as they are in every editor. *)
Theorem widths_change_only_by_drag_toggle_or_host
    (w : World) (ev : Event) (id : nat) :
  match ev with
  | EvMouseMove _ | EvToggleFullWidth _ | EvHost _ _ => False
  | _ => True
  end ->
  width (block (editors (dispatch numberToFixed w ev) id))
  = width (block (editors w id))
  /\ columnWidths (block (editors (dispatch numberToFixed w ev) id))
     = columnWidths (block (editors w id)).
Proof.
  destruct ev; intros Hev; try contradiction; simpl.
  - unfold onMouseDown. repeat case_match; split; reflexivity.
  - destruct (mouseupBound w); split; reflexivity.
  - unfold handleCellBorderVisible.
    repeat case_match; try (split; reflexivity);
      now apply with_editor_keeps_widths.
  - unfold handleCellBorderHighlight.
    case_match; now apply with_editor_keeps_widths.
  - unfold handleCellBorderMouseDown. case_match; split; reflexivity.
  - now apply with_editor_keeps_widths.
Qed.

Lemma dispatch_keeps_recorded (w : World) (ev : Event) :
  isMouseDownForResize w = true -> isMouseUp ev = false ->
  isMouseDownForResize (dispatch numberToFixed w ev) = true
  /\ editorWhenMouseDown (dispatch numberToFixed w ev) = editorWhenMouseDown w.
Proof.
  intros Hflag Hev. destruct ev; try discriminate; simpl.
  - unfold onMouseDown. repeat case_match; split; simpl; congruence.
  - unfold onMouseMove. repeat case_match; split; simpl; congruence.
  - unfold handleCellBorderVisible. repeat case_match; split; simpl; congruence.
  - unfold handleCellBorderHighlight. repeat case_match; split; simpl; congruence.
  - unfold handleCellBorderMouseDown. rewrite Hflag. split; congruence.
  - split; simpl; congruence.
  - split; simpl; congruence.
  - split; simpl; congruence.
Qed.

(** X13.  Once a resize has started, the editor recorded for it cannot be
    replaced before the mouse-up: whatever else happens, the resize flag
    stays set and [editorWhenMouseDown] stays the same. *)
Theorem recorded_editor_stays_during_drag (w : World) (evs : list Event) :
  isMouseDownForResize w = true ->
  Forall (fun ev => isMouseUp ev = false) evs ->
  isMouseDownForResize (run numberToFixed w evs) = true
  /\ editorWhenMouseDown (run numberToFixed w evs) = editorWhenMouseDown w.
Proof.
  intros Hflag Hevs. revert w Hflag.
  induction Hevs as [|ev evs Hev _ IH]; intros w Hflag; [now split|].
  destruct (dispatch_keeps_recorded w ev Hflag Hev) as [Hflag' Hed'].
  destruct (IH (dispatch numberToFixed w ev) Hflag') as [Hf He].
  split; [exact Hf|].
  change (run numberToFixed w (ev :: evs))
    with (run numberToFixed (dispatch numberToFixed w ev) evs).
  now rewrite He.
Qed.


Lemma dispatch_keeps_unarmed (w : World) (ev : Event) :
  isMouseDownForResize w = false -> editorWhenMouseDown w = None ->
  isCellBorderMouseDown ev = false ->
  isMouseDownForResize (dispatch numberToFixed w ev) = false
  /\ editorWhenMouseDown (dispatch numberToFixed w ev) = None.
Proof.
  intros Hflag Hed Hev. destruct ev; try discriminate; simpl.
  - unfold onMouseDown. rewrite Hed. repeat case_match; split; simpl; congruence.
  - now rewrite onMouseMove_idle by (now left).
  - destruct (mouseupBound w); split; simpl; congruence.
  - unfold handleCellBorderVisible. repeat case_match; split; simpl; congruence.
  - unfold handleCellBorderHighlight. repeat case_match; split; simpl; congruence.
  - split; simpl; congruence.
  - split; simpl; congruence.
  - split; simpl; congruence.
Qed.

(** X14.  With no resize under way and no editor recorded (as when the
    module is loaded, and after every [onMouseUp]), no resize can start
    until the renderer calls [handleCellBorderMouseDown]: mouse-downs on a
    column resizer included, no other event sets the resize flag or records
    an editor. *)
Theorem no_resize_before_an_editor_is_recorded (w : World) (evs : list Event) :
  isMouseDownForResize w = false ->
  editorWhenMouseDown w = None ->
  Forall (fun ev => isCellBorderMouseDown ev = false) evs ->
  isMouseDownForResize (run numberToFixed w evs) = false
  /\ editorWhenMouseDown (run numberToFixed w evs) = None.
Proof.
  intros Hflag Hed Hevs. revert w Hflag Hed.
  induction Hevs as [|ev evs Hev _ IH]; intros w Hflag Hed; [now split|].
  destruct (dispatch_keeps_unarmed w ev Hflag Hed Hev) as [Hflag' Hed'].
  exact (IH (dispatch numberToFixed w ev) Hflag' Hed').
Qed.

End HandlersMore.

(* ===================================================================== *)
(** ** Further properties: the toggle *)
(* ===================================================================== *)

(** X15.  Switching to full width and back: the first [exec] converts the
    column widths and sets ['100%']; the second sets ['auto'] and leaves in
    place the widths the first one computed. *)
Theorem toggle_on_then_off_keeps_converted_widths
    (editor : IDomEditor) (widths : list number) (tableDom : TableDom)
    (containerElement : ContainerElement) (tableStyle : ComputedStyle)
    (otherTables : list ComputedStyle) :
  TableAlwaysFullWidth.isDisabled editor = false ->
  isFullWidthActive editor = false ->
  columnWidths (block editor) = Some widths ->
  widths <> [] ->
  domNode editor = Some tableDom ->
  tableContainer tableDom = Some containerElement ->
  tablesByTagName containerElement = tableStyle :: otherTables ->
  exists on off : IDomEditor,
    TableAlwaysFullWidth.exec editor = Done on
    /\ TableAlwaysFullWidth.exec on = Done off
    /\ width (block on) = Some "100%"%string
    /\ width (block off) = Some "auto"%string
    /\ columnWidths (block off)
       = Some (newColumnWidths
                 (tableCurrentWidth containerElement tableStyle widths)
                 (containerWidth containerElement) widths).
Proof.
  intros Hen Hoff Hcols Hne Hdom Hcont Htabs.
  destruct (isDisabled_false editor Hen) as (sel & Hsel & Hcol & Hnode).
  assert (Hty : type (block editor) = Some "table"%string).
  { unfold getSelectedNodeByType in Hnode. rewrite Hsel in Hnode.
    destruct (type (block editor)) as [ty|]; [|discriminate].
    destruct (String.eqb_spec ty "table"); [now subst|discriminate]. }
  unfold TableAlwaysFullWidth.exec at 1.
  rewrite Hen. unfold TableAlwaysFullWidth.isActive, TableAlwaysFullWidth.getValue.
  rewrite Hoff, Hnode, Hcols, Hdom, Hcont. simpl default.
  destruct (Z.eqb_spec (len widths) 0) as [Hz|_].
  { destruct widths; [congruence|]. unfold len in Hz. simpl in Hz. lia. }
  rewrite Htabs. eexists. eexists. split; [reflexivity|].
  unfold TableAlwaysFullWidth.exec, TableAlwaysFullWidth.isDisabled,
    TableAlwaysFullWidth.isActive, TableAlwaysFullWidth.getValue,
    isFullWidthActive, getSelectedNodeByType, setNodes.
  rewrite Hsel. simpl. rewrite Hcol, Hty. simpl.
  repeat split; reflexivity.
Qed.

(* ===================================================================== *)
(** ** Further properties: hovering over the borders *)
(* ===================================================================== *)

(** X19.  Hovering twice at the same place commits at most once: with a
    selection in the editor, a second call of [handleCellBorderVisible] for
    the same mouse event, on the node as the first call left it, changes
    nothing. *)
Theorem handleCellBorderVisible_settles
    (id : nat) (e : MouseEvent) (scrollWidth : number) (w : World) (sel : Range) :
  selection (editors w id) = Some sel ->
  let once :=
    handleCellBorderVisible id (block (editors w id)) e scrollWidth w in
  handleCellBorderVisible id (block (editors once id)) e scrollWidth once = once.
Proof.
  intros Hsel once.
  assert (Hset : forall props,
             editors (with_editor w id (setNodes (editors w id) props)) id
             = {| selection := Some sel;
                  block := assign props (block (editors w id));
                  disabled := disabled (editors w id);
                  insertTableConfig := insertTableConfig (editors w id);
                  domNode := domNode (editors w id);
                  operations := operations (editors w id) ++ [props] |}).
  { intros props. simpl. rewrite fn_lookup_insert. unfold setNodes.
    now rewrite Hsel. }
  set (node := block (editors w id)) in *.
  set (insideCell :=
         match target e with
         | Some t =>
             ngtb (clientX e) (nadd (rectX t) (ofZ 5))
             && nltb (clientX e) (nsub (nadd (rectX t) (rectWidth t)) (ofZ 5))
         | None => false
         end).
  set (found :=
         match target e ≫= closestTable with
         | Some parentX =>
             findBorder (nsub (clientX e) parentX)
               (getCumulativeWidths
                  (if String.eqb (default "auto"%string (width node)) "100%"
                   then map (fun v => nmul v scrollWidth)
                            (getColumnWidthRatios (default [] (columnWidths node)))
                   else default [] (columnWidths node))) 0
         | None => None
         end).
  (* what the handler does, by cases *)
  assert (Hstep : forall (w0 : World) (node0 : TableElement),
             disabled (editors w0 id) = false ->
             isSelectionOperation w0 || isMouseDownForResize w0 = false ->
             width node0 = width node -> columnWidths node0 = columnWidths node ->
             handleCellBorderVisible id node0 e scrollWidth w0
             = if insideCell then
                 (if default false (isHoverCellBorder node0)
                  then with_editor w0 id
                         (setNodes (editors w0 id) (hoverProps false (-1)))
                  else w0)
               else
                 match found with
                 | Some i =>
                     if decide (resizingIndex node0 = Some i) then w0
                     else with_editor w0 id
                            (setNodes (editors w0 id) (hoverProps true i))
                 | None =>
                     if default false (isHoverCellBorder node0)
                     then with_editor w0 id
                            (setNodes (editors w0 id) (hoverProps false (-1)))
                     else w0
                 end).
  { intros w0 node0 Hdis0 Hgest0 Hw0 Hc0. unfold handleCellBorderVisible.
    rewrite Hdis0, Hgest0, Hw0, Hc0. fold insideCell.
    destruct insideCell; [reflexivity|]. unfold found.
    destruct (target e ≫= closestTable); reflexivity. }
  destruct (disabled (editors w id)) eqn:Hdis.
  { assert (Honce : once = w)
      by (unfold once, handleCellBorderVisible; now rewrite Hdis).
    rewrite Honce. unfold handleCellBorderVisible. now rewrite Hdis. }
  destruct (isSelectionOperation w || isMouseDownForResize w) eqn:Hgest.
  { assert (Honce : once = w)
      by (unfold once, handleCellBorderVisible; now rewrite Hdis, Hgest).
    rewrite Honce. unfold handleCellBorderVisible. now rewrite Hdis, Hgest. }
  assert (Honce : once = _) by (apply (Hstep w node Hdis Hgest); reflexivity).
  (* after a reset the node no longer hovers; after a hit it holds the index *)
  assert (Hafter : forall props,
             width props = None -> columnWidths props = None ->
             let w1 := with_editor w id (setNodes (editors w id) props) in
             handleCellBorderVisible id (block (editors w1 id)) e scrollWidth w1
             = if insideCell then
                 (if default false (isHoverCellBorder (assign props node))
                  then with_editor w1 id
                         (setNodes (editors w1 id) (hoverProps false (-1)))
                  else w1)
               else
                 match found with
                 | Some i =>
                     if decide (resizingIndex (assign props node) = Some i) then w1
                     else with_editor w1 id
                            (setNodes (editors w1 id) (hoverProps true i))
                 | None =>
                     if default false (isHoverCellBorder (assign props node))
                     then with_editor w1 id
                            (setNodes (editors w1 id) (hoverProps false (-1)))
                     else w1
                 end).
  { intros props Hw Hc w1.
    assert (Hblock : block (editors w1 id) = assign props node)
      by (unfold w1; now rewrite Hset).
    rewrite Hblock. apply Hstep.
    - unfold w1. now rewrite Hset.
    - exact Hgest.
    - simpl. now rewrite Hw.
    - simpl. now rewrite Hc. }
  rewrite Honce.
  destruct insideCell.
  - destruct (default false (isHoverCellBorder node)) eqn:Hhover.
    + now rewrite Hafter.
    + fold node. rewrite (Hstep w node Hdis Hgest eq_refl eq_refl).
      now rewrite Hhover.
  - destruct found as [i|].
    + destruct (decide (resizingIndex node = Some i)) as [Hsame|Hdiff].
      * fold node. rewrite (Hstep w node Hdis Hgest eq_refl eq_refl).
        now destruct (decide (resizingIndex node = Some i)).
      * rewrite Hafter by reflexivity. simpl.
        now destruct (decide (Some i = Some i)).
    + destruct (default false (isHoverCellBorder node)) eqn:Hhover.
      * now rewrite Hafter.
      * fold node. rewrite (Hstep w node Hdis Hgest eq_refl eq_refl).
        now rewrite Hhover.
Qed.

(* ===================================================================== *)
(** ** The statements on sample tables *)
(* ===================================================================== *)

(** In a table that is not full-width, a drag of the first border leaves
    the second column alone. *)
Lemma border_position_changes_one_column_sample :
  calculateAdjacentWidthsByBorderPosition toFixed2 [ofZ 60; ofZ 60; ofZ 60] 0
    (ofZ 80) (getCumulativeWidths [ofZ 60; ofZ 60; ofZ 60]) threeColumns !! 1%nat
  = [ofZ 60; ofZ 60; ofZ 60] !! 1%nat.
Proof.
  apply (border_position_changes_one_column toFixed2).
  - reflexivity.
  - unfold len. simpl. lia.
  - simpl. lia.
Defined.

(** With the default minimum of 60, the first of two columns of 100px does
    not come out narrower than 60px, whether it is made 70px narrower or its
    border is dragged to 30px. *)
Lemma resized_column_not_below_minimum_sample :
  ngeb (array_get (calculateAdjacentWidths [ofZ 100; ofZ 100] 0 (ofZ (-70))
                     evenColumns) 0)
       (minColumnWidth evenColumns) = true
  /\ ngeb (array_get (calculateAdjacentWidthsByBorderPosition toFixed2
                        [ofZ 100; ofZ 100] 0 (ofZ 30) [ofZ 100; ofZ 200]
                        evenColumns) 0)
          (minColumnWidth evenColumns) = true.
Proof.
  apply (resized_column_not_below_minimum toFixed2 evenColumns
           [ofZ 100; ofZ 100] [ofZ 100; ofZ 200] 0 60 (ofZ (-70)) (ofZ 30)).
  - reflexivity.
  - lia.
  - repeat constructor.
  - reflexivity.
  - repeat constructor.
  - reflexivity.
  - unfold len. simpl. lia.
  - reflexivity.
  - reflexivity.
Defined.



(** The same conversion in total: the three new widths are finite and add up
    to 1000px within 0.51% of 1000px for each column. *)
Lemma exec_activation_fills_container_up_to_rounding_sample :
  exists (editor' : IDomEditor) (widths' : list number),
    TableAlwaysFullWidth.exec threeColumns = Done editor'
    /\ width (block editor') = Some "100%"%string
    /\ columnWidths (block editor') = Some widths'
    /\ Forall (fun w => isFinite w = true) widths'
    /\ (Qabs (total widths' - inject_Z 1000)
        <= inject_Z 3 * inject_Z 1000 * (51 # 10000))%Q.
Proof.
  refine (exec_activation_fills_container_up_to_rounding threeColumns
            [ofZ 60; ofZ 60; ofZ 60] (sampleDom "180px") (sampleContainer "180px")
            (sampleStyle "180px") [] 1000 _ _ _ _ _ _ _ _ _ _ _ _ _);
    try reflexivity.
  - discriminate.
  - repeat constructor; now vm_compute.
  - lia.
Defined.

(** Without a [.table-container], [exec] leaves a table that is not
    full-width alone; on a disabled editor the hover handler does nothing. *)
Lemma missing_context_is_a_noop_sample :
  TableAlwaysFullWidth.exec threeColumnsWithoutContainer
  = Done threeColumnsWithoutContainer
  /\ handleCellBorderVisible 0 (sampleTable "auto" [ofZ 100; ofZ 100]) hoverBorder
       (ofZ 200) (initialWorld disabledPage)
     = initialWorld disabledPage.
Proof.
  split.
  - apply (proj1 missing_context_is_a_noop). right. right. right.
    split; [reflexivity|]. eexists. split; [reflexivity|]. now left.
  - apply (proj2 missing_context_is_a_noop). now left.
Defined.

Lemma exec_deactivation_sets_only_width_sample :
  exists editor',
    TableAlwaysFullWidth.exec evenColumns = Done editor'
    /\ columnWidths (block editor') = columnWidths (block evenColumns)
    /\ type (block editor') = type (block evenColumns)
    /\ scrollWidth (block editor') = scrollWidth (block evenColumns)
    /\ height (block editor') = height (block evenColumns)
    /\ resizingIndex (block editor') = resizingIndex (block evenColumns)
    /\ isResizing (block editor') = isResizing (block evenColumns)
    /\ isHoverCellBorder (block editor') = isHoverCellBorder (block evenColumns)
    /\ (TableAlwaysFullWidth.isDisabled evenColumns = false ->
        width (block editor') = Some "auto"%string
        /\ operations editor'
           = operations evenColumns
             ++ [{| type := None; width := Some "auto"%string;
                    columnWidths := None; scrollWidth := None; height := None;
                    resizingIndex := None; isResizing := None;
                    isHoverCellBorder := None |}]).
Proof. apply (exec_deactivation_sets_only_width evenColumns). reflexivity. Defined.

(** After the renderer has recorded the editor and the mouse has gone down
    on a resizer, a mouse move commits new widths; the run is inside a
    drag. *)
Lemma onMouseMove_commits_only_inside_drag_sample :
  isMouseDownForResize (run toFixed2 (initialWorld twoColumnPage) dragStart) = true
  /\ is_Some (editorWhenMouseDown (run toFixed2 (initialWorld twoColumnPage) dragStart))
  /\ insideDrag toFixed2 (initialWorld twoColumnPage) dragStart.
Proof.
  apply (onMouseMove_commits_only_inside_drag toFixed2 twoColumnPage dragStart (ofZ 120)).
  intros H.
  apply (f_equal (fun w => length (operations (editors w 0%nat)))) in H.
  vm_compute in H. discriminate.
Defined.

(* ===================================================================== *)
(** ** Where the statements of the specification fail *)
(* ===================================================================== *)


(** C3 fails on three equal columns: each share is rounded down to 0.33, so
    the new widths are 330px each and add up to 990px in a container with
    1000px available. *)
Lemma exec_activation_misses_container_width :
  TableAlwaysFullWidth.isDisabled threeColumns = false
  /\ isFullWidthActive threeColumns = false
  /\ sum (widthsOf threeColumns) = ofZ 180
  /\ tableCurrentWidth (sampleContainer "180px") (sampleStyle "180px")
                       (widthsOf threeColumns)
     = ofZ 180
  /\ width (block (state_of (TableAlwaysFullWidth.exec threeColumns)))
     = Some "100%"%string
  /\ widthsOf (state_of (TableAlwaysFullWidth.exec threeColumns))
     = [ofZ 330; ofZ 330; ofZ 330]
  /\ sum (widthsOf (state_of (TableAlwaysFullWidth.exec threeColumns))) = ofZ 990
  /\ containerWidth (sampleContainer "180px") = ofZ 1000
  /\ nltb (ofZ 990) (ofZ 1000) = true.
Proof. repeat split; vm_compute; reflexivity. Qed.

(** C4 fails for the deactivation: on a full-width table [exec] sets [width]
    to ['auto'] although the [.table-container] is absent and
    [columnWidths] is empty. *)
Lemma exec_without_container_still_deactivates :
  (domNode fullWidthWithoutContainer ≫= tableContainer) = None
  /\ widthsOf fullWidthWithoutContainer = []
  /\ width (block fullWidthWithoutContainer) = Some "100%"%string
  /\ width (block (state_of (TableAlwaysFullWidth.exec fullWidthWithoutContainer)))
     = Some "auto"%string
  /\ TableAlwaysFullWidth.exec fullWidthWithoutContainer
     <> Done fullWidthWithoutContainer.
Proof.
  repeat split; try reflexivity.
  intros H. apply (f_equal (fun r => width (block (state_of r)))) in H.
  vm_compute in H. discriminate.
Qed.

(** C8 fails in two ways.  With a configured minimum of 45.7 the code reads
    the minimum as 45: a column of 100px made 80px narrower comes out 45px
    wide, less than 45.7.  And a column whose width is [NaN] comes out
    [NaN], which is not at least the minimum. *)
Lemma resized_column_below_configured_minimum :
  minWidth (insertTableConfig fractionalMinimum) = Some "45.7"%string
  /\ array_get (calculateAdjacentWidths [ofZ 100] 0 (ofZ (-80)) fractionalMinimum) 0
     = ofZ 45
  /\ nltb (ofZ 45) (ofRatio false 457 10) = true
  /\ (forall numberToFixed : number -> number,
        array_get (calculateAdjacentWidthsByBorderPosition numberToFixed [ofZ 100] 0
                     (ofZ 20) [ofZ 100] fractionalMinimum) 0
        = numberToFixed (ofZ 45))
  /\ array_get (calculateAdjacentWidths [NaN] 0 (ofZ 10) evenColumns) 0 = NaN
  /\ ngeb NaN (minColumnWidth evenColumns) = false.
Proof. repeat split; intros; vm_compute; reflexivity. Qed.
(* ===================================================================== *)
(** ** The further properties on sample tables *)
(* ===================================================================== *)

(** Widths of 5px and -5px add up to zero: the shares are the two
    infinities. *)
Lemma column_width_ratios_of_zero_total_sample :
  Forall (fun ratio => isFinite ratio = false)
         (getColumnWidthRatios [ofZ 5; ofZ (-5)]).
Proof.
  apply (column_width_ratios_of_zero_total [ofZ 5; ofZ (-5)]); reflexivity.
Defined.

Lemma border_position_touches_two_columns_sample :
  calculateAdjacentWidthsByBorderPosition toFixed2 [ofZ 100; ofZ 100; ofZ 100] 0
    (ofZ 120) (getCumulativeWidths [ofZ 100; ofZ 100; ofZ 100]) evenColumns !! 2%nat
  = [ofZ 100; ofZ 100; ofZ 100] !! 2%nat.
Proof.
  apply (border_position_touches_two_columns toFixed2).
  - unfold len. simpl. lia.
  - simpl. lia.
  - simpl. lia.
Defined.

(** Two columns of 100px and 70px in a full-width table, the border dragged
    to 120px: the second column is held at the minimum of 60px. *)
Lemma compensated_neighbour_not_below_minimum_sample :
  ngeb (array_get (calculateAdjacentWidthsByBorderPosition toFixed2
                     [ofZ 100; ofZ 70] 0 (ofZ 120) [ofZ 100; ofZ 170]
                     evenColumns) 1)
       (minColumnWidth evenColumns) = true.
Proof.
  apply (compensated_neighbour_not_below_minimum toFixed2 evenColumns
           [ofZ 100; ofZ 70] [ofZ 100; ofZ 170] 0 60 (ofZ 120)).
  - reflexivity.
  - reflexivity.
  - lia.
  - repeat constructor.
  - repeat constructor.
  - reflexivity.
  - unfold len. simpl. lia.
  - reflexivity.
  - simpl. lia.
  - reflexivity.
  - reflexivity.
  - reflexivity.
Defined.

(** Three columns of 60px, the first border dragged to 80.125px: the first
    column becomes 80.12px, and the total grows by 20.12px. *)
Lemma plain_drag_changes_total_by_the_column_sample :
  exists resized : number,
    array_get (calculateAdjacentWidthsByBorderPosition toFixed2
                 [ofZ 60; ofZ 60; ofZ 60] 0 (ofRatio false 80125 1000)
                 [ofZ 60; ofZ 120; ofZ 180] threeColumns) 0
    = resized
    /\ calculateAdjacentWidthsByBorderPosition toFixed2
         [ofZ 60; ofZ 60; ofZ 60] 0 (ofRatio false 80125 1000)
         [ofZ 60; ofZ 120; ofZ 180] threeColumns
       = <[0%nat := resized]> [ofZ 60; ofZ 60; ofZ 60]
    /\ (total (calculateAdjacentWidthsByBorderPosition toFixed2
                 [ofZ 60; ofZ 60; ofZ 60] 0 (ofRatio false 80125 1000)
                 [ofZ 60; ofZ 120; ofZ 180] threeColumns)
        == total [ofZ 60; ofZ 60; ofZ 60] - value (ofZ 60) + value resized)%Q.
Proof.
  apply (plain_drag_changes_total_by_the_column toFixed2 threeColumns
           [ofZ 60; ofZ 60; ofZ 60] [ofZ 60; ofZ 120; ofZ 180] 0
           (ofRatio false 80125 1000) (ofZ 60)).
  - reflexivity.
  - unfold len. simpl. lia.
  - reflexivity.
Defined.

Lemma onMouseMove_commits_column_widths_sample :
  exists (widths' : list number) (w' : World),
    onMouseMove toFixed2 (ofZ 120) (draggingWorld twoColumnPage) = Done w'
    /\ length widths' = 2%nat
    /\ columnWidths (block (editors w' 0%nat)) = Some widths'
    /\ width (block (editors w' 0%nat)) = Some "auto"%string
    /\ operations (editors w' 0%nat) = [] ++ [columnWidthsProps widths']
    /\ (forall other : nat, other <> 0%nat -> editors w' other = twoColumnPage other)
    /\ isMouseDownForResize w' = true
    /\ editorWhenMouseDown w' = Some 0%nat.
Proof.
  apply (onMouseMove_commits_column_widths toFixed2 (draggingWorld twoColumnPage)
           0%nat (sampleTable "auto" [ofZ 100; ofZ 100]) (sampleDom "200px") (ofZ 0)
           (ofZ 120)); reflexivity.
Defined.

Lemma widths_change_only_by_drag_toggle_or_host_sample :
  width (block (editors (dispatch toFixed2 (draggingWorld twoColumnPage)
                           (EvCellBorderHighlight 0%nat hoverBorder)) 0%nat))
  = width (block (editors (draggingWorld twoColumnPage) 0%nat))
  /\ columnWidths
       (block (editors (dispatch toFixed2 (draggingWorld twoColumnPage)
                          (EvCellBorderHighlight 0%nat hoverBorder)) 0%nat))
     = columnWidths (block (editors (draggingWorld twoColumnPage) 0%nat)).
Proof.
  apply (widths_change_only_by_drag_toggle_or_host toFixed2
           (draggingWorld twoColumnPage) (EvCellBorderHighlight 0%nat hoverBorder)
           0%nat).
  exact I.
Defined.

Lemma recorded_editor_stays_during_drag_sample :
  isMouseDownForResize
    (run toFixed2 (draggingWorld twoColumnPage)
         [EvCellBorderMouseDown 1%nat; EvMouseMove (ofZ 120)]) = true
  /\ editorWhenMouseDown
       (run toFixed2 (draggingWorld twoColumnPage)
            [EvCellBorderMouseDown 1%nat; EvMouseMove (ofZ 120)])
     = editorWhenMouseDown (draggingWorld twoColumnPage).
Proof.
  apply (recorded_editor_stays_during_drag toFixed2 (draggingWorld twoColumnPage)).
  - reflexivity.
  - repeat constructor.
Defined.

Lemma no_resize_before_an_editor_is_recorded_sample :
  isMouseDownForResize
    (run toFixed2 (initialWorld twoColumnPage)
         [EvMouseDown resizerElement (ofZ 100); EvMouseMove (ofZ 120)]) = false
  /\ editorWhenMouseDown
       (run toFixed2 (initialWorld twoColumnPage)
            [EvMouseDown resizerElement (ofZ 100); EvMouseMove (ofZ 120)])
     = None.
Proof.
  apply (no_resize_before_an_editor_is_recorded toFixed2 (initialWorld twoColumnPage)).
  - reflexivity.
  - reflexivity.
  - repeat constructor.
Defined.

Lemma toggle_on_then_off_keeps_converted_widths_sample :
  exists on off : IDomEditor,
    TableAlwaysFullWidth.exec threeColumns = Done on
    /\ TableAlwaysFullWidth.exec on = Done off
    /\ width (block on) = Some "100%"%string
    /\ width (block off) = Some "auto"%string
    /\ columnWidths (block off)
       = Some (newColumnWidths
                 (tableCurrentWidth (sampleContainer "180px") (sampleStyle "180px")
                                    [ofZ 60; ofZ 60; ofZ 60])
                 (containerWidth (sampleContainer "180px"))
                 [ofZ 60; ofZ 60; ofZ 60]).
Proof.
  refine (toggle_on_then_off_keeps_converted_widths threeColumns
            [ofZ 60; ofZ 60; ofZ 60] (sampleDom "180px") (sampleContainer "180px")
            (sampleStyle "180px") [] _ _ _ _ _ _ _); try reflexivity.
  discriminate.
Defined.

Lemma handleCellBorderVisible_settles_sample :
  handleCellBorderVisible 0
    (block (editors (handleCellBorderVisible 0 (block (twoColumnPage 0%nat))
                       hoverBorder (ofZ 200) (initialWorld twoColumnPage)) 0%nat))
    hoverBorder (ofZ 200)
    (handleCellBorderVisible 0 (block (twoColumnPage 0%nat)) hoverBorder (ofZ 200)
       (initialWorld twoColumnPage))
  = handleCellBorderVisible 0 (block (twoColumnPage 0%nat)) hoverBorder (ofZ 200)
      (initialWorld twoColumnPage).
Proof.
  apply (handleCellBorderVisible_settles 0 hoverBorder (ofZ 200)
           (initialWorld twoColumnPage) {| isCollapsed := true |}).
  reflexivity.
Defined.
